(** * Gauge creator: telemetry series, slicing, resampling and frame rendering

    A shallow embedding of [backend_logic.py] and [gauge_generator.py].

    Conventions of the embedding:
    - an instant is a number of microseconds since the epoch (a [Z]), and so
      is the time of a trackpoint, which the parser makes aware and UTC; a
      [timedelta] is a number of microseconds;
    - a Python [float] is the rational number it denotes.  Where a float
      decides a count or a size through [int()] on a product or a quotient
      (the duration in seconds and the number of frames, the progress
      percentages, the width of a resized icon), each operation is rounded
      to the nearest binary64 number, as the interpreter does.  The values
      that are only carried or drawn (distances and speeds, the interpolated
      series, the scale of the heart, which needs a sine and is over the
      real numbers) are computed exactly;
    - a Python [int] is a [Z]; [str(int)] is stdpp's [pretty];
    - a [dict] used as a cache is a [gmap] with string keys;
    - a division by zero is not modelled: the configuration of the source
      has no zero frame rate, and an icon file has no zero height; neither
      is the overflow of a float to infinity;
    - [slice_data_and_save_json] is modelled where the conversions of the
      window's endpoints to UTC succeed ([converts_to_utc] below says when
      they do); the conversions to local time in [parse_tcx_file] are
      modelled with their errors;
    - what the interpreter, the operating system, PIL and OpenCV decide
      (font metrics, float formatting, [strptime], whether a file can be
      opened, whether the progress callback raises) is a field of an
      interface class, so every theorem holds for all of their behaviours. *)

From Stdlib Require Import Ascii ZArith QArith Qround Qabs Qpower Qreals Reals.
From Stdlib Require Import Lra Lia.
From Stdlib Require Lqa.
From stdpp Require Import base numbers option list strings pretty gmap sorting.

Local Open Scope string_scope.
Local Open Scope list_scope.
Local Open Scope Z_scope.

(** ** Python numbers *)

(** [int(x)] on a float: truncation toward zero. *)
Definition py_int (x : Q) : Z := Z.quot (Qnum x) (Z.pos (Qden x)).

(** [round(x)] on a float: round to nearest, ties to the even integer.  The
    program never calls it: it states what the specification says, and it
    is how a significand is rounded below. *)
Definition py_round (x : Q) : Z :=
  let f := Qfloor x in
  match ((x - inject_Z f) ?= (1 # 2))%Q with
  | Lt => f
  | Gt => f + 1
  | Eq => if Z.even f then f else f + 1
  end.

(** *** Double precision

    An arithmetic operation on floats is the exact operation followed by
    rounding to the nearest binary64 number, ties to the one with an even
    significand. *)

(** [floor(log2(x))] for a positive rational [x]. *)
Definition Qlog2 (x : Q) : Z :=
  let n := Qnum x in
  let d := Z.pos (Qden x) in
  let e := Z.log2 n - Z.log2 d in
  if n * 2 ^ Z.max 0 (- e) <? d * 2 ^ Z.max 0 e then e - 1 else e.

Definition pow2 (k : Z) : Q := (2 ^ k)%Q.

(** The binary64 number nearest to [x]: 53 significant bits, the least
    exponent that of the subnormal numbers. *)
Definition binary64 (x : Q) : Q :=
  if Qeq_bool x 0 then 0%Q
  else
    let e := Qlog2 (Qabs x) in
    let q := Z.max (e - 52) (- 1074) in
    (inject_Z (py_round (x / pow2 q)) * pow2 q)%Q.

(** [float(n)], the conversion that [x * n] and [n * x] apply to an [int]. *)
Definition float_of_int (n : Z) : Q := binary64 (inject_Z n).

(** [a / b] on two [int]s: the correctly rounded quotient. *)
Definition int_truediv (a b : Z) : Q := binary64 (inject_Z a / inject_Z b).

(** [x * y] on two floats. *)
Definition float_mul (x y : Q) : Q := binary64 (x * y).

(** [int(x)] on a float given as a real number. *)
Definition py_int_R (x : R) : Z :=
  if Rle_dec 0 x then Int_part x else - Int_part (- x).

(** [a <= b], [a < b] on floats. *)
Definition Qleb (a b : Q) : bool := Qle_bool a b.
Definition Qltb (a b : Q) : bool := negb (Qle_bool b a).

(** [timedelta.total_seconds()] for a difference of [us] microseconds:
    [us / 10**6] on two [int]s. *)
Definition total_seconds (us : Z) : Q := int_truediv us 1000000.

(** ** Exceptions and the world outside the interpreter *)

Inductive exn :=
| ValueError (msg : string)
| RuntimeError (msg : string)
| IOError (msg : string)
| KeyError (key : string)
| IndexError
| FileNotFoundError (path : string)
| OSError (msg : string)
| OverflowError (msg : string)
| CallbackError (code : Z).

(** A fallible pure computation. *)
Definition result (A : Type) : Type := exn + A.

(** ** Images and rasters, symbolically

    An image is what was drawn and at which size; a raster is the background
    colour followed by the layers composited onto it, in order.  Two rasters
    with the same layers hold the same pixels. *)

Inductive font := FONT_XL | FONT_L.

Inductive image :=
| TextImage (text : string) (f : font) (w h : Z)
| IconFile (path : string) (w h : Z)
| Resized (src : image) (w h : Z).

Definition width (im : image) : Z :=
  match im with TextImage _ _ w _ | IconFile _ w _ | Resized _ w _ => w end.
Definition height (im : image) : Z :=
  match im with TextImage _ _ _ h | IconFile _ _ h | Resized _ _ h => h end.

Record layer := Layer { lay_img : image; lay_x : Z; lay_y : Z }.
Definition raster := list layer.

(** ** Files *)

(** A serialized trackpoint: [time] is the ISO-8601 text of a UTC instant
    (kept as that instant), a key that may be absent is an [option]. *)
Record jpoint := JPoint {
  j_time : Z;
  j_power : option Z;
  j_hr : option Z;
  j_cadence : Z;
  j_distance : option Q;
  j_speed : option Q
}.

Inductive file :=
| JsonFile (points : list jpoint)
| VideoFile (frames : list raster)
| OtherFile.

Record world := World {
  files : gmap string file;
  open_writers : gset string;
  stdout : list string
}.

(** ** Stateful, fallible code: state passing with exceptions *)

Definition M (A : Type) : Type := world → world * result A.

Definition ret {A} (a : A) : M A := λ w, (w, inr a).
Definition raise {A} (e : exn) : M A := λ w, (w, inl e).
Definition bind {A B} (m : M A) (k : A → M B) : M B :=
  λ w, match m w with
       | (w', inr a) => k a w'
       | (w', inl e) => (w', inl e)
       end.
Definition lift {A} (r : result A) : M A := λ w, (w, r).
Definition modify (f : world → world) : M unit := λ w, (f w, inr tt).

(** [try: body finally: cleanup]: the cleanup runs on every exit of the body;
    the body's outcome is kept unless the cleanup itself raises. *)
Definition try_finally {A} (body : M A) (cleanup : M unit) : M A :=
  λ w, match body w with
       | (w1, r) =>
           match cleanup w1 with
           | (w2, inr _) => (w2, r)
           | (w2, inl e) => (w2, inl e)
           end
       end.

Definition rbind {A B} (r : result A) (k : A → result B) : result B :=
  match r with inl e => inl e | inr a => k a end.

Declare Scope py_scope.
Delimit Scope py_scope with py.
Notation "'let!' x ':=' m 'in' k" := (bind m (λ x, k))
  (at level 10, x pattern, m at level 100, k at level 200) : py_scope.
Notation "'let?' x ':=' r 'in' k" := (rbind r (λ x, k))
  (at level 10, x pattern, r at level 100, k at level 200) : py_scope.
Local Open Scope py_scope.

(** ** What the platform decides *)

Class Python := {
  (** [datetime.strptime(s, fmt)], [None] for [ValueError] *)
  strptime : string → string → option Z;
  (** [int(s)] and [float(s)] on text, [None] for [ValueError] *)
  int_of_text : string → option Z;
  float_of_text : string → option Q;
  (** [f"{x:.1f}"] *)
  format_1f : Q → string;
  (** the UTC offset of the local zone, in microseconds, in effect at a
      local wall time and at an instant *)
  utcoffset_of_wall : Z → Z;
  utcoffset_at : Z → Z;
  (** the exception that the platform's local-time lookup raises on a
      reading, if any: [time.localtime] refuses a timestamp outside its
      range *)
  localtime_error : Z → option exn;
  (** whether [open(path, 'w')] succeeds *)
  can_create : string → bool
}.

(** An asset file that cannot be found: the font, on which
    [ImageFont.truetype] raises [OSError], or an icon, on which [Image.open]
    raises [FileNotFoundError]. *)
Inductive missing :=
| MissingFont (path : string)
| MissingIcon (path : string).

Class Pillow := {
  (** [ImageDraw.textbbox((0, 0), text, font=font)] *)
  textbbox : font → string → Z * Z * Z * Z;
  (** the first asset file that cannot be found, if any, in the order the
      program opens them: the font, then the two icons *)
  missing_asset : option missing;
  (** sizes of the icon files *)
  lightning_icon_orig_size : Z * Z;
  heart_icon_orig_size : Z * Z
}.

Class OpenCV := {
  (** whether [cv2.VideoWriter(path, ...)] ends up opened *)
  writer_opens : string → bool
}.

(** A progress callback: [Some code] when the call raises. *)
Definition callback := Z → string → option Z.

(** [progress_callback(p, m)] *)
Definition call (cb : callback) (p : Z) (m : string) : M unit :=
  match cb p m with
  | Some code => raise (CallbackError code)
  | None => ret tt
  end.

(** [print(line)] *)
Definition print (line : string) : M unit :=
  modify (λ w, World (files w) (open_writers w) (stdout w ++ [line])).

(** * gauge_generator.py *)

Module gauge_generator.

(** The constants of the "MASTER CONFIGURATION" block. *)
Class Config := {
  VIDEO_FPS : Z;
  FRAME_WIDTH : Z;
  FRAME_HEIGHT : Z;
  BODY_WEIGHT_KG : Q;
  TEXT_OUTLINE_WIDTH : Z;
  LIGHTNING_ICON_PATH : string;
  HEART_ICON_PATH : string;
  LAYOUT_START_X : Z;
  LAYOUT_START_Y : Z;
  LINE_SPACING : Z;
  ICON_SPACING : Z;
  ICON_TARGET_HEIGHT : Z;
  LINE_HEIGHT_XL : Z;
  LINE_HEIGHT_L : Z;
  HEART_ANIMATION_STRENGTH : Q
}.

(** The values the source gives them. *)
Definition MASTER_CONFIGURATION : Config := {|
  VIDEO_FPS := 30;
  FRAME_WIDTH := 1280;
  FRAME_HEIGHT := 720;
  BODY_WEIGHT_KG := 65;
  TEXT_OUTLINE_WIDTH := 5;
  LIGHTNING_ICON_PATH := "assets/lightning.png";
  HEART_ICON_PATH := "assets/heart.png";
  LAYOUT_START_X := 100;
  LAYOUT_START_Y := 100;
  LINE_SPACING := 30;
  ICON_SPACING := 20;
  ICON_TARGET_HEIGHT := 90;
  LINE_HEIGHT_XL := 130;
  LINE_HEIGHT_L := 100;
  HEART_ANIMATION_STRENGTH := 15 # 100
|}.

Section generator.
Context `{Config, Python, Pillow, OpenCV}.

(** *** Helper functions *)

(** [overlay_image_alpha(background, overlay, x, y)]: the overlay is blended
    onto the background, clipped to the canvas; nothing is drawn when the
    clipped region is empty. *)
Definition overlay_image_alpha (background : raster) (overlay : image) (x y : Z)
  : raster :=
  let h_overlay := height overlay in
  let w_overlay := width overlay in
  let y1 := Z.max 0 y in
  let y2 := Z.min FRAME_HEIGHT (y + h_overlay) in
  let x1 := Z.max 0 x in
  let x2 := Z.min FRAME_WIDTH (x + w_overlay) in
  if (y2 <=? y1) || (x2 <=? x1) then background
  else background ++ [Layer overlay x y].

(** [draw_text_with_outline_pil(text, font, fill, outline, stroke_width)];
    the two colours are constants of the program. *)
Definition draw_text_with_outline_pil (text : string) (f : font)
    (stroke_width : Z) : image :=
  let '(b0, b1, b2, b3) := textbbox f text in
  let text_w := b2 - b0 + stroke_width * 2 in
  let text_h := b3 - b1 + stroke_width * 2 in
  TextImage text f text_w text_h.

(** *** 2. Font and icon loading *)

Definition resize_icon (icon : image) (new_height : Z) : image :=
  let aspect_ratio := int_truediv (width icon) (height icon) in
  let new_width := py_int (float_mul (float_of_int new_height) aspect_ratio) in
  Resized icon new_width new_height.

Record assets := Assets { LIGHTNING_ICON : image; HEART_ICON : image }.

(** The [try] block: only [FileNotFoundError] is caught and turned into a
    [RuntimeError]; the [OSError] of a missing font goes through. *)
Definition load_assets : result assets :=
  match missing_asset with
  | Some (MissingFont _) => inl (OSError "cannot open resource")
  | Some (MissingIcon filename) =>
      inl (RuntimeError ("Asset file not found: " +:+ filename +:+ "."))
  | None =>
      let lightning_icon_orig :=
        IconFile LIGHTNING_ICON_PATH
          (fst lightning_icon_orig_size) (snd lightning_icon_orig_size) in
      let heart_icon_orig :=
        IconFile HEART_ICON_PATH
          (fst heart_icon_orig_size) (snd heart_icon_orig_size) in
      inr {| LIGHTNING_ICON := resize_icon lightning_icon_orig ICON_TARGET_HEIGHT;
             HEART_ICON := resize_icon heart_icon_orig ICON_TARGET_HEIGHT |}
  end.

(** *** 3. Data loading and interpolation *)

(** [np.linspace(start, stop, num)] *)
Definition linspace (start stop : Q) (num : nat) : list Q :=
  match num with
  | O => []
  | S O => [start]
  | S div =>
      let step := ((stop - start) / inject_Z (Z.of_nat div))%Q in
      map (λ k, (start + inject_Z (Z.of_nat k) * step)%Q) (seq 0 num)
  end.

(** [np.interp] at one abscissa, on sample points [(x0, y0) :: rest] with
    increasing abscissas: linear between neighbours, clamped at both ends. *)
Fixpoint interp_from (x x0 y0 : Q) (rest : list (Q * Q)) : Q :=
  match rest with
  | [] => y0
  | (x1, y1) :: rest' =>
      if Qleb x1 x then interp_from x x1 y1 rest'
      else (y0 + (x - x0) * ((y1 - y0) / (x1 - x0)))%Q
  end.

Definition interp1 (xp_fp : list (Q * Q)) (x : Q) : Q :=
  match xp_fp with
  | [] => 0%Q
  | (x0, y0) :: rest => if Qleb x x0 then y0 else interp_from x x0 y0 rest
  end.

(** [np.interp(x, xp, fp)] *)
Definition np_interp (x xp fp : list Q) : result (list Q) :=
  match xp with
  | [] => inl (ValueError "array of sample points is empty")
  | _ => inr (map (interp1 (zip xp fp)) x)
  end.

Record interpolated := Interpolated {
  power : list Q;
  hr : list Q;
  w_per_kg : list Q
}.

(** The number of frames:
    [int(duration_seconds * VIDEO_FPS) if duration_seconds > 0 else 1]. *)
Definition num_interpolated_of (duration_seconds : Q) : Z :=
  if Qltb 0 duration_seconds
  then py_int (float_mul duration_seconds (float_of_int VIDEO_FPS))
  else 1.

Definition interpolate (trackpoints : list jpoint) : result interpolated :=
  match trackpoints with
  | [] => inl (ValueError "Input JSON file is empty.")
  | first :: _ =>
      let power := map (λ tp, inject_Z (default 0 (j_power tp))) trackpoints in
      let hr := map (λ tp, inject_Z (default 0 (j_hr tp))) trackpoints in
      let num_points := length trackpoints in
      let start_dt := j_time first in
      let end_dt := j_time (List.last trackpoints first) in
      let duration_seconds := total_seconds (end_dt - start_dt) in
      let num_interpolated := num_interpolated_of duration_seconds in
      let top := inject_Z (Z.of_nat num_points - 1) in
      let orig_x := linspace 0 top num_points in
      let interp_x := linspace 0 top (Z.to_nat num_interpolated) in
      let? power_i := np_interp interp_x orig_x power in
      let? hr_i := np_interp interp_x orig_x hr in
      inr {| power := power_i;
             hr := hr_i;
             w_per_kg :=
               map (λ p, if Qltb 0 BODY_WEIGHT_KG
                         then (p / BODY_WEIGHT_KG)%Q else 0%Q) power_i |}
  end.

Definition read_json (json_path : string) : M (list jpoint) :=
  λ w, match files w !! json_path with
       | None => (w, inl (FileNotFoundError json_path))
       | Some (JsonFile points) => (w, inr points)
       | Some _ => (w, inl (ValueError "Expecting value"))
       end.

(** *** 4. Frame composition and video creation, with caching *)

(** [cv2.VideoWriter(output_path, ...)] followed by the [isOpened] test. *)
Definition open_writer (output_path : string) : M unit :=
  λ w, if writer_opens output_path
       then (World (<[output_path := VideoFile []]> (files w))
                   ({[output_path]} ∪ open_writers w) (stdout w), inr tt)
       else (w, inl (IOError "Could not open video writer.")).

(** [out.write(frame_cv)] *)
Definition writer_write (output_path : string) (frame_cv : raster) : M unit :=
  modify (λ w,
    World (alter (λ f, match f with
                       | VideoFile frames => VideoFile (frames ++ [frame_cv])
                       | other => other
                       end) output_path (files w))
          (open_writers w) (stdout w)).

(** [out.release()] *)
Definition writer_release (output_path : string) : M unit :=
  modify (λ w, World (files w) (open_writers w ∖ {[output_path]}) (stdout w)).

Record caches := Caches {
  text_cache : gmap string image;
  base_frame_cache : gmap string raster
}.

(** [f"{power_val}-{hr_val}"] *)
Definition key_of (power_val hr_val : Z) : string :=
  pretty power_val +:+ "-" +:+ pretty hr_val.

(** The cache key of a frame with interpolated values [p] and [h]. *)
Definition cache_key (p h : Q) : string := key_of (py_int p) (py_int h).

(** [if s not in text_cache: text_cache[s] = draw(...)] then [text_cache[s]] *)
Definition text_cached (tc : gmap string image) (s : string) (f : font)
  : gmap string image * image :=
  match tc !! s with
  | Some im => (tc, im)
  | None =>
      let im := draw_text_with_outline_pil s f TEXT_OUTLINE_WIDTH in
      (<[s := im]> tc, im)
  end.

(** The cached part of one iteration: the frame before the heart is drawn,
    and the heart-rate text image that positions the heart. *)
Definition render_base (a : assets) (c : caches) (power_val hr_val : Z)
    (w_per_kg_val : Q) : result (caches * raster * image) :=
  let cache_key := key_of power_val hr_val in
  match base_frame_cache c !! cache_key with
  | Some cached =>
      let frame_cv := cached in
      match text_cache c !! (pretty hr_val +:+ " bpm") with
      | Some hr_text_pil => inr (c, frame_cv, hr_text_pil)
      | None => inl (KeyError (pretty hr_val +:+ " bpm"))
      end
  | None =>
      let frame_cv : raster := [] in
      let current_y := LAYOUT_START_Y in
      (* power text *)
      let power_text_str := pretty power_val +:+ "W" in
      let '(tc, power_text_pil) :=
        text_cached (text_cache c) power_text_str FONT_XL in
      let text_y := current_y + (LINE_HEIGHT_XL - height power_text_pil) `div` 2 in
      let frame_cv :=
        overlay_image_alpha frame_cv power_text_pil LAYOUT_START_X text_y in
      let icon_x := LAYOUT_START_X + width power_text_pil + ICON_SPACING in
      let icon_y :=
        current_y + (LINE_HEIGHT_XL - height (LIGHTNING_ICON a)) `div` 2 in
      let frame_cv :=
        overlay_image_alpha frame_cv (LIGHTNING_ICON a) icon_x icon_y in
      let current_y := current_y + (LINE_HEIGHT_XL + LINE_SPACING) in
      (* W/kg text *)
      let wkg_text_str := format_1f w_per_kg_val +:+ " W/kg" in
      let '(tc, wkg_text_pil) := text_cached tc wkg_text_str FONT_L in
      let text_y := current_y + (LINE_HEIGHT_L - height wkg_text_pil) `div` 2 in
      let frame_cv :=
        overlay_image_alpha frame_cv wkg_text_pil LAYOUT_START_X text_y in
      let current_y := current_y + (LINE_HEIGHT_L + LINE_SPACING) in
      (* heart-rate text, static part *)
      let hr_text_str := pretty hr_val +:+ " bpm" in
      let '(tc, hr_text_pil) := text_cached tc hr_text_str FONT_L in
      let text_y := current_y + (LINE_HEIGHT_L - height hr_text_pil) `div` 2 in
      let frame_cv :=
        overlay_image_alpha frame_cv hr_text_pil LAYOUT_START_X text_y in
      inr ({| text_cache := tc;
              base_frame_cache := <[cache_key := frame_cv]> (base_frame_cache c) |},
           frame_cv, hr_text_pil)
  end.

(** The heart animation: recomputed for every frame. *)
Definition scale_factor (hr_val : Z) (i : nat) : R :=
  let time_s := (INR i / IZR VIDEO_FPS)%R in
  let beat_freq_hz := (IZR hr_val / 60)%R in
  (1 + Q2R HEART_ANIMATION_STRENGTH *
       (sin (2 * PI * beat_freq_hz * time_s) * (1 / 2) + 1 / 2))%R.

Definition beating_heart (a : assets) (hr_val : Z) (i : nat) : image :=
  let w := width (HEART_ICON a) in
  let h := height (HEART_ICON a) in
  Resized (HEART_ICON a)
    (py_int_R (IZR w * scale_factor hr_val i))
    (py_int_R (IZR h * scale_factor hr_val i)).

(** The heart overlay of frame [i]: the image and where it is composited. *)
Definition heart_overlay (a : assets) (hr_text_pil : image) (hr_val : Z)
    (i : nat) : layer :=
  let beating_heart_pil := beating_heart a hr_val i in
  let icon_x := LAYOUT_START_X + width hr_text_pil + ICON_SPACING in
  let icon_y :=
    (LAYOUT_START_Y + LINE_HEIGHT_XL + LINE_SPACING + LINE_HEIGHT_L + LINE_SPACING)
    + (LINE_HEIGHT_L - height beating_heart_pil) `div` 2 in
  Layer beating_heart_pil icon_x icon_y.

Definition animate (a : assets) (frame_cv : raster) (hr_text_pil : image)
    (hr_val : Z) (i : nat) : raster :=
  let o := heart_overlay a hr_text_pil hr_val i in
  overlay_image_alpha frame_cv (lay_img o) (lay_x o) (lay_y o).

(** The progress report at the end of iteration [i]: every two seconds. *)
Definition report_progress (progress_callback : option callback)
    (i total_frames : nat) : M unit :=
  match progress_callback with
  | Some cb =>
      if (Z.of_nat i + 1) `mod` (VIDEO_FPS * 2) =? 0
      then
        let percentage :=
          py_int (float_mul (int_truediv (Z.of_nat i + 1) (Z.of_nat total_frames))
                            (float_of_int 100)) in
        call cb percentage
          ("Rendering frame " +:+ pretty (Z.of_nat i + 1) +:+ "/"
           +:+ pretty (Z.of_nat total_frames))
      else ret tt
  | None => ret tt
  end.

(** [l[i]] *)
Definition index {A} (l : list A) (i : nat) : result A :=
  match l !! i with Some x => inr x | None => inl IndexError end.

(** The state of one iteration just before the heart is drawn. *)
Record prepared := Prepared {
  pr_caches : caches;
  pr_power_val : Z;
  pr_hr_val : Z;
  pr_base : raster;
  pr_hr_text : image
}.

Definition prepare (a : assets) (d : interpolated) (c : caches) (i : nat)
  : result prepared :=
  let? p := index (power d) i in
  let power_val := py_int p in
  let? h := index (hr d) i in
  let hr_val := py_int h in
  let? w_per_kg_val := index (w_per_kg d) i in
  let? (c', frame_cv, hr_text_pil) :=
    render_base a c power_val hr_val w_per_kg_val in
  inr (Prepared c' power_val hr_val frame_cv hr_text_pil).

(** The body of [for i in range(total_frames)]. *)
Definition frame_body (a : assets) (output_path : string)
    (progress_callback : option callback) (d : interpolated)
    (total_frames : nat) (c : caches) (i : nat) : M caches :=
  let! pr := lift (prepare a d c i) in
  let frame_cv := animate a (pr_base pr) (pr_hr_text pr) (pr_hr_val pr) i in
  let! _ := writer_write output_path frame_cv in
  let! _ := report_progress progress_callback i total_frames in
  ret (pr_caches pr).

Fixpoint for_range {S} (body : S → nat → M S) (indices : list nat) (s : S)
  : M S :=
  match indices with
  | [] => ret s
  | i :: rest => let! s' := body s i in for_range body rest s'
  end.

Definition empty_caches : caches := Caches ∅ ∅.

(** [create_gauge_video(json_path, output_path, progress_callback)] *)
Definition create_gauge_video (json_path output_path : string)
    (progress_callback : option callback) : M unit :=
  let! a := lift load_assets in
  let! trackpoints := read_json json_path in
  let! d := lift (interpolate trackpoints) in
  let! _ := open_writer output_path in
  let total_frames := length (power d) in
  let! _ := for_range (frame_body a output_path progress_callback d total_frames)
                      (seq 0 total_frames) empty_caches in
  writer_release output_path.

End generator.
End gauge_generator.

(** * backend_logic.py *)

Module backend_logic.

(** A [datetime]: naive (a wall-clock reading) or aware (an instant and the
    offset of its zone). *)
Inductive datetime :=
| Naive (wall : Z)
| Aware (utc : Z) (utcoffset : Z).

(** What the XPath queries return on one [Trackpoint] element. *)
Record tp_node := TpNode {
  time_str_nodes : list string;
  power_nodes : list string;
  hr_nodes : list string;
  cad_nodes : list string;
  dist_nodes : list string
}.

(** What [etree.parse] does on the file. *)
Inductive xml :=
| XMLSyntaxError (details : string)
| Tree (all_tp_nodes : list tp_node).

(** A trackpoint dictionary; [time] is aware and in UTC; the key [speed] is
    absent until the speed pass sets it. *)
Record trackpoint := Trackpoint {
  tp_time : Z;
  tp_power : Z;
  tp_hr : Z;
  tp_cadence : Z;
  tp_distance : option Q;
  tp_speed : option Q
}.

Definition set_speed (v : Q) (tp : trackpoint) : trackpoint :=
  Trackpoint (tp_time tp) (tp_power tp) (tp_hr tp) (tp_cadence tp)
             (tp_distance tp) (Some v).

Record tcx_data := TcxData {
  start_time : datetime;
  end_time : datetime;
  trackpoints : list trackpoint
}.

Section backend.
Context `{gauge_generator.Config, Python, Pillow, OpenCV}.

(** *** parse_tcx_file *)

(** The two [strptime] attempts; [.replace(tzinfo=timezone.utc)] reads the
    parsed wall time as a UTC instant. *)
Definition parse_time (time_str : string) : option Z :=
  match strptime time_str "%Y-%m-%dT%H:%M:%S.%fZ" with
  | Some t => Some t
  | None => strptime time_str "%Y-%m-%dT%H:%M:%SZ"
  end.

Definition first_or (nodes : list string) (d : string) : string :=
  match nodes with s :: _ => s | [] => d end.

(** [int(s or 0)] *)
Definition int_or_0 (s : string) : result Z :=
  if decide (s = "") then inr 0
  else match int_of_text s with
       | Some z => inr z
       | None => inl (ValueError ("invalid literal for int() with base 10: " +:+ s))
       end.

(** [float(s) if s is not None else None] *)
Definition float_or_None (s : option string) : result (option Q) :=
  match s with
  | None => inr None
  | Some s =>
      match float_of_text s with
      | Some q => inr (Some q)
      | None => inl (ValueError ("could not convert string to float: " +:+ s))
      end
  end.

Definition warning (time_str : string) : string :=
  "Warning: Skipping trackpoint with unparsable time: " +:+ time_str.

(** [for tp in all_tp_nodes], with the list built so far. *)
Fixpoint collect (all_tp_nodes : list tp_node) (trackpoints : list trackpoint)
  : M (list trackpoint) :=
  match all_tp_nodes with
  | [] => ret trackpoints
  | tp :: rest =>
      match time_str_nodes tp with
      | [] => collect rest trackpoints
      | time_str :: _ =>
          let power_str := first_or (power_nodes tp) "0" in
          let hr_str := first_or (hr_nodes tp) "0" in
          let cad_str := first_or (cad_nodes tp) "0" in
          let dist_str := head (dist_nodes tp) in
          match parse_time time_str with
          | None =>
              let! _ := print (warning time_str) in
              collect rest trackpoints
          | Some time =>
              let! power := lift (int_or_0 power_str) in
              let! hr := lift (int_or_0 hr_str) in
              let! cadence := lift (int_or_0 cad_str) in
              let! distance := lift (float_or_None dist_str) in
              collect rest
                (trackpoints ++ [Trackpoint time power hr cadence distance None])
          end
      end
  end.

(** The body of the speed pass at index [i], on the list updated in place. *)
Definition speed_body (trackpoints : list trackpoint) (i : nat)
  : list trackpoint :=
  match trackpoints !! i with
  | None => trackpoints
  | Some cur =>
      let v :=
        match i with
        | O => 0%Q
        | S j =>
            match trackpoints !! j with
            | None => 0%Q
            | Some prev =>
                match tp_distance cur, tp_distance prev with
                | Some d, Some d_prev =>
                    let dist_delta := (d - d_prev)%Q in
                    let time_delta := total_seconds (tp_time cur - tp_time prev) in
                    if Qltb 0 time_delta
                    then (dist_delta / time_delta)%Q
                    else default 0%Q (tp_speed prev)
                | _, _ => 0%Q
                end
            end
        end in
      <[i := set_speed v cur]> trackpoints
  end.

(** [for i in range(len(trackpoints))] *)
Definition compute_speeds (trackpoints : list trackpoint) : list trackpoint :=
  fold_left speed_body (seq 0 (length trackpoints)) trackpoints.

(** [dt.astimezone(None)] and [dt.astimezone(timezone.utc)] where they
    return; a naive [datetime] is taken to be local time. *)
Definition astimezone_local (dt : datetime) : datetime :=
  match dt with
  | Naive wall => Aware (wall - utcoffset_of_wall wall) (utcoffset_of_wall wall)
  | Aware utc _ => Aware utc (utcoffset_at utc)
  end.

Definition astimezone_utc (dt : datetime) : datetime :=
  match dt with
  | Naive wall => Aware (wall - utcoffset_of_wall wall) 0
  | Aware utc _ => Aware utc 0
  end.

Definition tzinfo_is_None (dt : datetime) : bool :=
  match dt with Naive _ => true | Aware _ _ => false end.

(** The instant of an aware [datetime], which is what comparisons look at. *)
Definition instant (dt : datetime) : Z :=
  match dt with Naive wall => wall | Aware utc _ => utc end.

(** The least and the greatest reading of a [datetime], 0001-01-01T00:00:00
    and 9999-12-31T23:59:59.999999, in microseconds since the epoch. *)
Definition datetime_min : Z := -62135596800000000.
Definition datetime_max : Z := 253402300799999999.

(** [dt.astimezone(None)] on an aware UTC [datetime], with its errors: the
    platform looks the local zone up, and the local reading must be one a
    [datetime] can hold. *)
Definition astimezone_None (utc : Z) : result datetime :=
  match localtime_error utc with
  | Some e => inl e
  | None =>
      let local := utc + utcoffset_at utc in
      if (datetime_min <=? local) && (local <=? datetime_max)
      then inr (astimezone_local (Aware utc 0))
      else inl (OverflowError "date value out of range")
  end.

Definition parse_tcx_file (tree : xml) : M tcx_data :=
  match tree with
  | XMLSyntaxError e =>
      raise (ValueError ("File is not a valid XML/TCX file. Details: " +:+ e))
  | Tree all_tp_nodes =>
      match all_tp_nodes with
      | [] => raise (ValueError "TCX file does not contain any Trackpoint data.")
      | _ =>
          let! trackpoints := collect all_tp_nodes [] in
          match trackpoints with
          | [] =>
              raise (ValueError "Successfully parsed TCX file, but no valid trackpoints with recognized timestamps were found.")
          | first :: _ =>
              let trackpoints := compute_speeds trackpoints in
              let! start_time :=
                lift (astimezone_None (tp_time (List.hd first trackpoints))) in
              let! end_time :=
                lift (astimezone_None (tp_time (List.last trackpoints first))) in
              ret (TcxData start_time end_time trackpoints)
          end
      end
  end.

(** *** slice_data_and_save_json *)

(** [tp.copy()] with [time] replaced by its ISO text. *)
Definition data_point_of (tp : trackpoint) : jpoint :=
  JPoint (tp_time tp) (Some (tp_power tp)) (Some (tp_hr tp)) (tp_cadence tp)
         (tp_distance tp) (tp_speed tp).

(** [with open(output_path, 'w') as f: json.dump(sliced_data, f)] *)
Definition write_json (output_path : string) (sliced_data : list jpoint)
  : M unit :=
  λ w, if can_create output_path
       then (World (<[output_path := JsonFile sliced_data]> (files w))
                   (open_writers w) (stdout w), inr tt)
       else (w, inl (IOError output_path)).

(** The window endpoints, converted to aware UTC. *)
Definition to_utc (t : datetime) : datetime :=
  if tzinfo_is_None t
  then astimezone_utc (astimezone_local t)
  else astimezone_utc t.

(** The filtering loop. *)
Definition slice_loop (start_time_utc end_time_utc : datetime)
    (trackpoints : list trackpoint) : list jpoint :=
  fold_left
    (λ sliced_data tp,
       if (instant start_time_utc <=? tp_time tp)
          && (tp_time tp <=? instant end_time_utc)
       then sliced_data ++ [data_point_of tp]
       else sliced_data)
    trackpoints [].

Definition slice_data_and_save_json (trackpoints : list trackpoint)
    (start_time end_time : datetime) (output_path : string) : M unit :=
  let start_time_utc := to_utc start_time in
  let end_time_utc := to_utc end_time in
  let sliced_data := slice_loop start_time_utc end_time_utc trackpoints in
  let! _ := write_json output_path sliced_data in
  print ("Sliced data saved to " +:+ output_path).

(** *** orchestrate_video_generation *)

(** [os.path.basename]: what follows the last slash. *)
Fixpoint basename_from (path acc : string) : string :=
  match path with
  | EmptyString => acc
  | String c rest =>
      if Ascii.eqb c "/"%char then basename_from rest EmptyString
      else basename_from rest (acc +:+ String c EmptyString)
  end.
Definition basename (path : string) : string := basename_from path EmptyString.

Definition temp_json_path_of (output_path : string) : string :=
  "temp_sliced_data_" +:+ basename output_path +:+ ".json".

(** The [finally] block: [if os.path.exists(p): os.remove(p)]. *)
Definition cleanup (temp_json_path : string) : M unit :=
  λ w, match files w !! temp_json_path with
       | Some _ =>
           (World (delete temp_json_path (files w)) (open_writers w) (stdout w),
            inr tt)
       | None => (w, inr tt)
       end.

Definition orchestrate_video_generation (tcx_data : list trackpoint)
    (start_time end_time : datetime) (output_path : string)
    (progress_callback : callback) : M string :=
  let temp_json_path := temp_json_path_of output_path in
  try_finally
    (let! _ := call progress_callback 10 "Slicing TCX data..." in
     let! _ := slice_data_and_save_json tcx_data start_time end_time
                 temp_json_path in
     let video_progress_adapter : callback :=
       λ p m,
         let scaled_progress :=
           20 + py_int (float_mul (int_truediv p 100) (float_of_int 75)) in
         progress_callback scaled_progress m in
     let! _ := call progress_callback 20 "Generating gauge video frames..." in
     let! _ := gauge_generator.create_gauge_video temp_json_path output_path
                 (Some video_progress_adapter) in
     let! _ := call progress_callback 100 "Video generation complete." in
     ret output_path)
    (cleanup temp_json_path).

End backend.
End backend_logic.

(** * Vocabulary of the properties *)

Import gauge_generator backend_logic.

(** ** Decimal numerals: [str(int)] *)

Definition is_digit (c : ascii) : bool :=
  match Ascii.is_nat c with Some _ => true | None => false end.

Fixpoint all_digits (s : string) : bool :=
  match s with
  | EmptyString => true
  | String c s' => is_digit c && all_digits s'
  end.

(** A numeral: a non-empty run of digits, possibly after a minus sign. *)
Definition numeral (s : string) : Prop :=
  ∃ d, all_digits d = true ∧ d ≠ EmptyString ∧ (s = d ∨ s = String "-" d).

(** ** Resampling *)

(** The first-to-last time span of a sliced series, in seconds. *)
Definition duration_of (trackpoints : list jpoint) : Q :=
  match trackpoints with
  | [] => 0%Q
  | first :: _ =>
      total_seconds (j_time (List.last trackpoints first) - j_time first)
  end.

(** What the specification states as the frame count. *)
Definition spec_frame_count `{Config} (duration : Q) : Z :=
  Z.max 1 (py_round (duration * inject_Z VIDEO_FPS)).

(** A sliced series of two points, 90 ms apart. *)
Definition series_90ms : list jpoint :=
  [ JPoint 0 (Some 100) (Some 120) 80 None (Some 0%Q);
    JPoint 90000 (Some 200) (Some 140) 80 None (Some 0%Q) ].

(** A sliced series of two points, 20 ms apart. *)
Definition series_20ms : list jpoint :=
  [ JPoint 0 (Some 100) (Some 120) 80 None (Some 0%Q);
    JPoint 20000 (Some 200) (Some 140) 80 None (Some 0%Q) ].

(** A sliced series of two points, 4.1 s apart. *)
Definition series_4100ms : list jpoint :=
  [ JPoint 0 (Some 100) (Some 120) 80 None (Some 0%Q);
    JPoint 4100000 (Some 200) (Some 140) 80 None (Some 0%Q) ].

(** ** Speed derivation *)

(** [(cur.time - prev.time).total_seconds()] *)
Definition time_delta (cur prev : trackpoint) : Q :=
  total_seconds (tp_time cur - tp_time prev).

(** Equality of two speed entries as numbers. *)
Definition same_speed (a b : option Q) : Prop :=
  match a, b with
  | Some x, Some y => (x == y)%Q
  | None, None => True
  | _, _ => False
  end.

(** The rule of the specification for a point [cur] that follows [prev]:
    the quotient when both distances are known and time advances, the
    previous point's speed otherwise. *)
Definition spec_speed_rule (prev cur : trackpoint) : Prop :=
  match tp_distance cur, tp_distance prev with
  | Some d, Some d_prev =>
      if Qltb 0 (time_delta cur prev)
      then same_speed (tp_speed cur) (Some ((d - d_prev) / time_delta cur prev)%Q)
      else same_speed (tp_speed cur) (tp_speed prev)
  | _, _ => same_speed (tp_speed cur) (tp_speed prev)
  end.

(** The rule the code follows: a missing distance gives speed 0. *)
Definition speed_rule (prev cur : trackpoint) : Prop :=
  match tp_distance cur, tp_distance prev with
  | Some d, Some d_prev =>
      if Qltb 0 (time_delta cur prev)
      then tp_speed cur = Some ((d - d_prev) / time_delta cur prev)%Q
      else tp_speed cur = tp_speed prev
  | _, _ => tp_speed cur = Some 0%Q
  end.

(** What the pass has established after the indices below [k]. *)
Definition speed_inv (tps out : list trackpoint) (k : nat) : Prop :=
  length out = length tps
  ∧ (∀ i, (k ≤ i)%nat → out !! i = tps !! i)
  ∧ (∀ i tp, (i < k)%nat → tps !! i = Some tp →
       ∃ v, out !! i = Some (set_speed v tp))
  ∧ (∀ first, (0 < k)%nat → out !! 0%nat = Some first →
       tp_speed first = Some 0%Q)
  ∧ (∀ i prev cur, (S i < k)%nat → out !! i = Some prev →
       out !! S i = Some cur → speed_rule prev cur).

(** Three samples one second apart: 0 m, 5 m, and no distance reading. *)
Definition three_points : list trackpoint :=
  [ Trackpoint 0 100 120 80 (Some 0%Q) None;
    Trackpoint 1000000 100 120 80 (Some 5%Q) None;
    Trackpoint 2000000 100 120 80 None None ].

(** ** Building and slicing the series *)

Section builder_vocabulary.
Context `{Python}.

(** A sample survives when it has a timestamp that one of the two formats
    accepts. *)
Definition survives (tp : tp_node) : bool :=
  match time_str_nodes tp with
  | [] => false
  | time_str :: _ =>
      match parse_time time_str with Some _ => true | None => false end
  end.

(** The warnings for the samples whose timestamp neither format accepts. *)
Fixpoint warnings_of (nodes : list tp_node) : list string :=
  match nodes with
  | [] => []
  | tp :: rest =>
      match time_str_nodes tp with
      | [] => warnings_of rest
      | time_str :: _ =>
          match parse_time time_str with
          | Some _ => warnings_of rest
          | None => warning time_str :: warnings_of rest
          end
      end
  end.

(** The UTC instant of a window endpoint, in the words of the specification:
    a naive endpoint is local time, an aware one is converted directly. *)
Definition utc_instant_of (t : datetime) : Z :=
  match t with
  | Naive wall => wall - utcoffset_of_wall wall
  | Aware utc _ => utc
  end.

(** The conversion of a window endpoint to UTC returns: the platform finds
    the local zone of a naive endpoint, and the UTC reading is one a
    [datetime] can hold. *)
Definition converts_to_utc (t : datetime) : Prop :=
  match t with
  | Naive wall =>
      localtime_error wall = None
      ∧ datetime_min ≤ wall - utcoffset_of_wall wall ≤ datetime_max
  | Aware utc _ => datetime_min ≤ utc ≤ datetime_max
  end.

(** The conversion of a UTC instant to the local zone returns. *)
Definition converts_to_local (utc : Z) : Prop :=
  localtime_error utc = None
  ∧ datetime_min ≤ utc + utcoffset_at utc ≤ datetime_max.

(** Membership in the window, both ends included. *)
Definition in_window (start_time end_time : datetime) (tp : trackpoint) : Prop :=
  utc_instant_of start_time ≤ tp_time tp ≤ utc_instant_of end_time.

#[global] Instance in_window_dec s e tp : Decision (in_window s e tp).
Proof. unfold in_window. apply _. Defined.

End builder_vocabulary.

(** ** A concrete platform, for running the program on examples *)

Definition demo_python : Python := {|
  strptime s fmt :=
    if decide (fmt = "%Y-%m-%dT%H:%M:%SZ") then
      if decide (s = "2024-01-01T10:00:00Z") then Some 1704103200000000
      else if decide (s = "2024-01-01T10:00:01Z") then Some 1704103201000000
      else None
    else if decide (fmt = "%Y-%m-%dT%H:%M:%S.%fZ") then
      if decide (s = "2024-01-01T10:00:00.500000Z") then Some 1704103200500000
      else None
    else None;
  int_of_text s :=
    if decide (s = "0") then Some 0
    else if decide (s = "150") then Some 150
    else None;
  float_of_text s :=
    if decide (s = "0.0") then Some 0%Q
    else if decide (s = "5.0") then Some 5%Q
    else None;
  format_1f x :=
    let tenths := py_round (x * 10) in
    pretty (tenths `div` 10) +:+ "." +:+ pretty (tenths `mod` 10);
  utcoffset_of_wall _ := 3600000000;
  utcoffset_at _ := 3600000000;
  localtime_error _ := None;
  can_create _ := true
|}.

Definition demo_pillow : Pillow := {|
  textbbox f s :=
    match f with
    | FONT_XL => (0, 0, 60 * Z.of_nat (String.length s), 120)
    | FONT_L => (0, 0, 45 * Z.of_nat (String.length s), 90)
    end;
  missing_asset := None;
  lightning_icon_orig_size := (64, 128);
  heart_icon_orig_size := (128, 128)
|}.

Definition demo_opencv : OpenCV := {| writer_opens _ := true |}.

(** A sliced series of two points two seconds apart, at rest: 60 frames. *)
Definition series_2s : list jpoint :=
  [ JPoint 0 (Some 0) (Some 0) 0 None (Some 0%Q);
    JPoint 2000000 (Some 0) (Some 0) 0 None (Some 0%Q) ].

(** A world holding that series as ["in.json"], and nothing else. *)
Definition demo_world : world :=
  World {[ "in.json" := JsonFile series_2s ]} ∅ [].

(** A progress callback that raises whenever it is called. *)
Definition failing_callback : callback := λ _ _, Some 1.

(** ** The render loop *)

Section loop_vocabulary.
Context `{Config, Python, Pillow, OpenCV}.

(** [f"{hr_val} bpm"] *)
Definition hr_text_str (hr_val : Z) : string := pretty hr_val +:+ " bpm".

(** The invariant of the render loop: a key in the base-frame cache has its
    heart-rate text in the text cache. *)
Definition cache_inv (c : caches) : Prop :=
  ∀ power_val hr_val,
    is_Some (base_frame_cache c !! key_of power_val hr_val) →
    is_Some (text_cache c !! hr_text_str hr_val).

(** The states, just before the heart is drawn, of the iterations over
    [indices] that start from the caches [c]. *)
Fixpoint prepared_frames (a : assets) (d : interpolated) (indices : list nat)
    (c : caches) : list prepared :=
  match indices with
  | [] => []
  | i :: rest =>
      match prepare a d c i with
      | inr pr => pr :: prepared_frames a d rest (pr_caches pr)
      | inl _ => []
      end
  end.

(** The frames the loop hands to the writer. *)
Definition written_frames (a : assets) (d : interpolated) (indices : list nat)
    (c : caches) : list raster :=
  zip_with (λ i pr, animate a (pr_base pr) (pr_hr_text pr) (pr_hr_val pr) i)
           indices (prepared_frames a d indices c).

(** The world after [out.write(frame)]. *)
Definition wrote (output_path : string) (frame : raster) (w : world) : world :=
  fst (writer_write output_path frame w).

(** An exception that comes out of the progress callback. *)
Definition from_callback (e : exn) : Prop :=
  match e with CallbackError _ => True | _ => False end.

(** The three interpolated arrays have one length. *)
Definition aligned (d : interpolated) : Prop :=
  length (hr d) = length (power d) ∧ length (w_per_kg d) = length (power d).

End loop_vocabulary.

(** The frames of the demo run at rest, before the heart is drawn. *)
Definition demo_assets : assets :=
  match @load_assets MASTER_CONFIGURATION demo_pillow with
  | inr a => a
  | inl _ => Assets (IconFile "" 0 0) (IconFile "" 0 0)
  end.

Definition demo_data : interpolated :=
  match @interpolate MASTER_CONFIGURATION series_2s with
  | inr d => d
  | inl _ => Interpolated [] [] []
  end.

Definition demo_frames : list prepared :=
  @prepared_frames MASTER_CONFIGURATION demo_python demo_pillow
    demo_assets demo_data (seq 0 2) empty_caches.

Definition demo_frame (i : nat) : prepared :=
  default (Prepared empty_caches 0 0 [] (IconFile "" 0 0)) (demo_frames !! i).

(** The demo run of the whole generator, with the failing callback. *)
Definition demo_run : world * result unit :=
  @create_gauge_video MASTER_CONFIGURATION demo_python demo_pillow demo_opencv
    "in.json" "out.mp4" (Some failing_callback) demo_world.

(** A built series of two points two seconds apart, and a callback that
    raises at 95 %, that is, at the end of the 60th frame. *)
Definition demo_trackpoints : list trackpoint :=
  [ Trackpoint 0 0 0 0 None (Some 0%Q);
    Trackpoint 2000000 0 0 0 None (Some 0%Q) ].

Definition callback_failing_at_95 : callback :=
  λ p _, if p =? 95 then Some 7 else None.

Definition demo_orchestration (cb : callback) : world * result string :=
  @orchestrate_video_generation MASTER_CONFIGURATION demo_python demo_pillow
    demo_opencv demo_trackpoints (Aware 0 0) (Naive 3602000000)
    "videos/out.mp4" cb (World ∅ ∅ []).

(** The end-to-end scenario of the specification: three samples one second
    apart with power 100, 150, 200 and heart rate 120, 130, 140. *)
Definition series_3_samples : list jpoint :=
  [ JPoint 0 (Some 100) (Some 120) 80 None (Some 0%Q);
    JPoint 1000000 (Some 150) (Some 130) 80 None (Some 0%Q);
    JPoint 2000000 (Some 200) (Some 140) 80 None (Some 0%Q) ].

(** Three raw samples: a good timestamp, an unparsable one, a good one. *)
Definition raw_samples : list tp_node :=
  [ TpNode ["2024-01-01T10:00:00Z"] ["150"] [] [] ["0.0"];
    TpNode ["yesterday"] ["150"] [] [] [];
    TpNode ["2024-01-01T10:00:01Z"] [] ["150"] [] ["5.0"] ].

(** * Vocabulary of further properties *)

(** ** The builder *)

Section builder_vocabulary_2.
Context `{Python}.

(** The parsed time of a sample, when it has a timestamp that parses. *)
Definition parsed_time (tp : tp_node) : option Z :=
  match time_str_nodes tp with
  | [] => None
  | time_str :: _ => parse_time time_str
  end.

(** The parsed times of the surviving samples, in input order. *)
Definition surviving_times (nodes : list tp_node) : list Z :=
  omap parsed_time nodes.

(** All four numeric fields of a sample convert. *)
Definition convertible (tp : tp_node) : Prop :=
  (∃ power, int_or_0 (first_or (power_nodes tp) "0") = inr power)
  ∧ (∃ hr, int_or_0 (first_or (hr_nodes tp) "0") = inr hr)
  ∧ (∃ cadence, int_or_0 (first_or (cad_nodes tp) "0") = inr cadence)
  ∧ (∃ distance, float_or_None (head (dist_nodes tp)) = inr distance).

End builder_vocabulary_2.

(** The demo parse of the three raw samples. *)
Definition demo_parse : world * result tcx_data :=
  @parse_tcx_file demo_python (Tree raw_samples) (World ∅ ∅ []).

Definition demo_tcx_data : tcx_data :=
  match snd demo_parse with
  | inr data => data
  | inl _ => TcxData (Naive 0) (Naive 0) []
  end.

(** ** Paths *)

(** The path has a slash in it. *)
Fixpoint has_slash (s : string) : bool :=
  match s with
  | EmptyString => false
  | String c s' => Ascii.eqb c "/"%char || has_slash s'
  end.

(** The resampling of the three-sample scenario. *)
Definition demo_data_3 : interpolated :=
  match @interpolate MASTER_CONFIGURATION series_3_samples with
  | inr d => d
  | inl _ => Interpolated [] [] []
  end.

(** ** Resampling *)

(** Resampling [fp], given at the abscissas [0 .. n-1], at [num] evenly spaced
    abscissas over the same range. *)
Definition resampled (n num : nat) (fp : list Q) : list Q :=
  let top := inject_Z (Z.of_nat n - 1) in
  map (interp1 (zip (linspace 0 top n) fp)) (linspace 0 top num).


(** ** The caches *)

Section cache_vocabulary.
Context `{Config, Python, Pillow, OpenCV}.

(** The cache key of a prepared frame. *)
Definition frame_key (pr : prepared) : string :=
  key_of (pr_power_val pr) (pr_hr_val pr).

(** The caches after the iterations over [indices] that start from [c]. *)
Fixpoint caches_after (a : assets) (d : interpolated) (indices : list nat)
    (c : caches) : caches :=
  match indices with
  | [] => c
  | i :: rest =>
      match prepare a d c i with
      | inr pr => caches_after a d rest (pr_caches pr)
      | inl _ => c
      end
  end.

End cache_vocabulary.

Section cache_vocabulary_2.
Context `{Config, Python, Pillow, OpenCV}.

(** The last character of a string. *)
Fixpoint last_char (s : string) : option ascii :=
  match s with
  | EmptyString => None
  | String c EmptyString => Some c
  | String _ s' => last_char s'
  end.

(** The font a text is drawn in: power texts end in "W", the others in
    "g" (W/kg) or "m" (bpm). *)
Definition font_of (s : string) : font :=
  match last_char s with
  | Some c => if Ascii.eqb c "W"%char then FONT_XL else FONT_L
  | None => FONT_L
  end.

(** Every cached text image is the drawing of its own string. *)
Definition honest (tc : gmap string image) : Prop :=
  ∀ s im, tc !! s = Some im →
          im = draw_text_with_outline_pil s (font_of s) TEXT_OUTLINE_WIDTH.

(** The cache key of frame [m] of the interpolated data. *)
Definition key_at (d : interpolated) (m : nat) : option string :=
  match power d !! m, hr d !! m with
  | Some p, Some h => Some (cache_key p h)
  | _, _ => None
  end.

(** [frame] and [txt] are what rendering frame [m] from scratch gives, and
    [m] is the first frame with the key of [(p, h)]. *)
Definition first_rendered_at (a : assets) (d : interpolated) (m : nat)
    (p h : Z) (frame : raster) (txt : image) : Prop :=
  ∃ wkg c0,
    w_per_kg d !! m = Some wkg
    ∧ key_at d m = Some (key_of p h)
    ∧ render_base a empty_caches p h wkg = inr (c0, frame, txt)
    ∧ ∀ m', (m' < m)%nat → key_at d m' ≠ Some (key_of p h).

(** The state of the caches before frame [s]. *)
Definition first_render_inv (a : assets) (d : interpolated) (s : nat)
    (c : caches) : Prop :=
  cache_inv c
  ∧ honest (text_cache c)
  ∧ (∀ p h frame,
       base_frame_cache c !! key_of p h = Some frame →
       ∃ m txt, (m < s)%nat ∧ first_rendered_at a d m p h frame txt)
  ∧ (∀ m key, (m < s)%nat → key_at d m = Some key →
              is_Some (base_frame_cache c !! key)).

End cache_vocabulary_2.

(** A sliced series that climbs from 3 W to 4 W in two seconds, at a steady
    heart rate; its frames, before the heart is drawn. *)
Definition series_3_to_4 : list jpoint :=
  [ JPoint 0 (Some 3) (Some 100) 80 None (Some 0%Q);
    JPoint 2000000 (Some 4) (Some 100) 80 None (Some 0%Q) ].

Definition climb_data : interpolated :=
  match @interpolate MASTER_CONFIGURATION series_3_to_4 with
  | inr d => d
  | inl _ => Interpolated [] [] []
  end.

Definition climb_frame (k : nat) : prepared :=
  default (Prepared empty_caches 0 0 [] (IconFile "" 0 0))
    (@prepared_frames MASTER_CONFIGURATION demo_python demo_pillow
       demo_assets climb_data (seq 0 60) empty_caches !! k).

(** Rendering frame [k] of the climb from scratch, with its own values. *)
Definition climb_fresh (k : nat) : raster :=
  match @render_base MASTER_CONFIGURATION demo_python demo_pillow demo_assets
          empty_caches (pr_power_val (climb_frame k)) (pr_hr_val (climb_frame k))
          (default 0%Q (w_per_kg climb_data !! k)) with
  | inr (_, frame, _) => frame
  | inl _ => []
  end.

Section demo_loop.
#[local] Existing Instance MASTER_CONFIGURATION.
#[local] Existing Instance demo_python.
#[local] Existing Instance demo_pillow.
#[local] Existing Instance demo_opencv.

(** The loop over the first two frames of the demo data, without callback. *)
Definition demo_loop : world * result caches :=
  for_range (frame_body demo_assets "out.mp4" None demo_data 60) (seq 0 2)
    empty_caches demo_world.

Definition demo_loop_caches : caches :=
  match snd demo_loop with inr c => c | inl _ => empty_caches end.

End demo_loop.

(** ** Progress *)

(** The callback accepts every percentage between [lo] and [hi]. *)
Definition accepts (cb : callback) (lo hi : Z) : Prop :=
  ∀ p m, lo ≤ p ≤ hi → cb p m = None.

(** The callback, if there is one, accepts every percentage from 0 to 100. *)
Definition never_raises (cb : option callback) : Prop :=
  ∀ f, cb = Some f → accepts f 0 100.

(** [video_progress_adapter] of [orchestrate_video_generation]. *)
Definition video_progress_adapter (progress_callback : callback) : callback :=
  λ p m,
    let scaled_progress :=
      20 + py_int (float_mul (int_truediv p 100) (float_of_int 75)) in
    progress_callback scaled_progress m.

(** The demo run of the whole generator, without a callback. *)
Definition demo_quiet_run : world * result unit :=
  @create_gauge_video MASTER_CONFIGURATION demo_python demo_pillow demo_opencv
    "in.json" "out.mp4" None demo_world.


(** * The helper functions of gauge_generator.py, pixel by pixel

    The generator above treats a raster as the list of what was drawn on it.
    The two drawing helpers are modelled here once more at the level of the
    arrays they index: the same source lines, with the slices written out. *)

Module pixel_level.

(** A [numpy] array of shape (rows, columns, channels): its first two
    dimensions and its contents.  The overlay has four channels, the fourth
    being its alpha. *)
Record array := Array {
  shape0 : Z;
  shape1 : Z;
  at_ : Z → Z → Z → Z
}.

(** The bounds of the two slices of [overlay_image_alpha]. *)
Record slices := Slices {
  y1 : Z; y2 : Z; x1 : Z; x2 : Z;
  overlay_y1 : Z; overlay_y2 : Z; overlay_x1 : Z; overlay_x2 : Z
}.

(** The bounds computed before the test
    [if y2 <= y1 or x2 <= x1: return]. *)
Definition slice_bounds (background_shape0 background_shape1
    h_overlay w_overlay x y : Z) : slices :=
  let y1 := Z.max 0 y in
  let y2 := Z.min background_shape0 (y + h_overlay) in
  let x1 := Z.max 0 x in
  let x2 := Z.min background_shape1 (x + w_overlay) in
  let overlay_y1 := Z.max 0 (- y) in
  let overlay_x1 := Z.max 0 (- x) in
  let overlay_y2 := overlay_y1 + (y2 - y1) in
  let overlay_x2 := overlay_x1 + (x2 - x1) in
  Slices y1 y2 x1 x2 overlay_y1 overlay_y2 overlay_x1 overlay_x2.

(** [overlay_image_alpha(background, overlay, x, y)]: the background after
    the call.  The assignment to [background[y1:y2, x1:x2, c]] for the
    channels 0, 1, 2 stores, at row [r] and column [c] of the slice, the
    blend of the overlay's element at the same place of its own slice. *)
Definition overlay_image_alpha (background overlay : array) (x y : Z) : array :=
  let h_overlay := shape0 overlay in
  let w_overlay := shape1 overlay in
  let s := slice_bounds (shape0 background) (shape1 background)
             h_overlay w_overlay x y in
  if (y2 s <=? y1 s) || (x2 s <=? x1 s) then background
  else
    Array (shape0 background) (shape1 background)
      (λ row col c,
         if (y1 s <=? row) && (row <? y2 s) && (x1 s <=? col) && (col <? x2 s)
            && (0 <=? c) && (c <? 3)
         then
           let o_row := overlay_y1 s + (row - y1 s) in
           let o_col := overlay_x1 s + (col - x1 s) in
           let alpha := (inject_Z (at_ overlay o_row o_col 3) / 255)%Q in
           let beta := (1 - alpha)%Q in
           py_int (alpha * inject_Z (at_ overlay o_row o_col c)
                   + beta * inject_Z (at_ background row col c))%Q
         else at_ background row col c).

(** [range(a, b)] *)
Definition range (a b : Z) : list Z := seqZ a (b - a).

Inductive colour := fill_color | outline_color.

(** One call [draw.text((x, y), text, font=font, fill=colour)]. *)
Record text_draw := TextDraw { at_x : Z; at_y : Z; fill : colour }.

(** The offsets at which the outline is drawn. *)
Definition outline_offsets (stroke_width : Z) : list (Z * Z) :=
  i ← range (- stroke_width) (stroke_width + 1);
  j ← range (- stroke_width) (stroke_width + 1);
  if i * i + j * j >=? stroke_width * stroke_width then []
  else [(i, j)].

(** [draw_text_with_outline_pil(text, font, fill, outline, stroke_width)]:
    the size of the image and the calls of [draw.text] made on it, in
    order. *)
Definition draw_text_with_outline_pil `{Pillow} (text : string) (f : font)
    (stroke_width : Z) : Z * Z * list text_draw :=
  let '(b0, b1, b2, b3) := textbbox f text in
  let text_w := b2 - b0 + stroke_width * 2 in
  let text_h := b3 - b1 + stroke_width * 2 in
  let x := stroke_width - b0 in
  let y := stroke_width - b1 in
  (text_w, text_h,
   ((λ '(i, j), TextDraw (x + i) (y + j) outline_color)
      <$> outline_offsets stroke_width)
   ++ [TextDraw x y fill_color]).

(** What [draw.text] at a position inks at most: the bounding box of the
    text, moved to that position. *)
Definition ink_box `{Pillow} (text : string) (f : font) (d : text_draw)
  : Z * Z * Z * Z :=
  let '(b0, b1, b2, b3) := textbbox f text in
  (at_x d + b0, at_y d + b1, at_x d + b2, at_y d + b3).

(** A box lies on an image of the given size. *)
Definition on_image (box : Z * Z * Z * Z) (w h : Z) : Prop :=
  let '(l, t, r, b) := box in 0 ≤ l ∧ 0 ≤ t ∧ r ≤ w ∧ b ≤ h.

End pixel_level.

(** * Double-precision rounding *)
Lemma py_round_comp (x y : Q) : (x == y)%Q → py_round x = py_round y.
Proof.
  intros Heq. unfold py_round.
  rewrite (Qfloor_comp _ _ Heq).
  assert ((x - inject_Z (Qfloor y) ?= 1 # 2) = (y - inject_Z (Qfloor y) ?= 1 # 2))%Q
    as ->; [|done].
  by rewrite Heq.
Qed.

Lemma py_round_Z (z : Z) : py_round (inject_Z z) = z.
Proof.
  unfold py_round. rewrite Qfloor_Z.
  assert ((inject_Z z - inject_Z z ?= 1 # 2)%Q = Lt) as ->; [|done].
  apply -> Qlt_alt. Lqa.lra.
Qed.

Lemma py_round_floor (x : Q) :
  py_round x = Qfloor x ∨ py_round x = Qfloor x + 1.
Proof. unfold py_round. destruct (_ ?= _)%Q; [destruct (Z.even _)|..]; auto. Qed.

Lemma py_round_mono (x y : Q) : (x <= y)%Q → py_round x ≤ py_round y.
Proof.
  intros Hle. pose proof (Qfloor_resp_le _ _ Hle) as Hfl.
  destruct (decide (Qfloor x = Qfloor y)) as [Heq|Hne].
  - unfold py_round. rewrite Heq.
    destruct (x - inject_Z (Qfloor y) ?= 1 # 2)%Q eqn:Hx;
      destruct (y - inject_Z (Qfloor y) ?= 1 # 2)%Q eqn:Hy;
      try destruct (Z.even (Qfloor y)); try lia; exfalso;
      first [apply Qeq_alt in Hx | apply Qlt_alt in Hx | apply Qgt_alt in Hx];
      first [apply Qeq_alt in Hy | apply Qlt_alt in Hy | apply Qgt_alt in Hy];
      Lqa.lra.
  - destruct (py_round_floor x) as [-> | ->], (py_round_floor y) as [-> | ->]; lia.
Qed.

Lemma pow2_pos (k : Z) : (0 < pow2 k)%Q.
Proof. by apply Qpower_0_lt. Qed.

Lemma pow2_add (a b : Z) : (pow2 (a + b) == pow2 a * pow2 b)%Q.
Proof. by apply Qpower_plus. Qed.

Lemma pow2_Z (k : Z) : 0 ≤ k → (pow2 k == inject_Z (2 ^ k))%Q.
Proof. intros Hk. unfold pow2. by rewrite Zpower_Qpower. Qed.

Lemma pow2_le (a b : Z) : a ≤ b → (pow2 a <= pow2 b)%Q.
Proof.
  intros Hab. replace b with (a + (b - a)) by lia. rewrite pow2_add.
  rewrite <- (Qmult_1_r (pow2 a)) at 1.
  apply Qmult_le_l; [apply pow2_pos|].
  rewrite pow2_Z by lia. change 1%Q with (inject_Z 1). rewrite <- Zle_Qle.
  pose proof (Z.pow_pos_nonneg 2 (b - a)). lia.
Qed.

Lemma pow2_lt_inv (a b : Z) : (pow2 a < pow2 b)%Q → a < b.
Proof.
  intros Hlt. destruct (decide (a < b)) as [|Hge]; [done|].
  exfalso. apply (Qlt_not_le _ _ Hlt). apply pow2_le. lia.
Qed.

Lemma Qlog2_spec (x : Q) :
  (0 < x)%Q → (pow2 (Qlog2 x) <= x)%Q ∧ (x < pow2 (Qlog2 x + 1))%Q.
Proof.
  destruct x as [n d]. intros Hpos.
  assert (0 < n) as Hn by (unfold Qlt in Hpos; simpl in Hpos; lia).
  unfold Qlog2. cbn [Qnum Qden].
  set (a := Z.log2 n). set (b := Z.log2 (Z.pos d)). set (e := a - b).
  destruct (Z.log2_spec n Hn) as [Ha1 Ha2]. fold a in Ha1, Ha2.
  destruct (Z.log2_spec (Z.pos d) (Pos2Z.is_pos d)) as [Hb1 Hb2].
  fold b in Hb1, Hb2.
  assert (0 ≤ a) as Ha0 by apply Z.log2_nonneg.
  assert (0 ≤ b) as Hb0 by apply Z.log2_nonneg.
  set (N := inject_Z n). set (D := inject_Z (Z.pos d)).
  assert (n # d == N / D)%Q as Hx by apply Qmake_Qdiv.
  assert (0 < D)%Q as HD.
  { subst D. change 0%Q with (inject_Z 0). by rewrite <- Zlt_Qlt. }
  assert (pow2 a <= N)%Q as HaN.
  { rewrite pow2_Z by done. subst N. by rewrite <- Zle_Qle. }
  assert (N < pow2 (a + 1))%Q as HNa.
  { rewrite pow2_Z by lia. subst N. rewrite <- Zlt_Qlt.
    by replace (a + 1) with (Z.succ a) by lia. }
  assert (pow2 b <= D)%Q as HbD.
  { rewrite pow2_Z by done. subst D. by rewrite <- Zle_Qle. }
  assert (D < pow2 (b + 1))%Q as HDb.
  { rewrite pow2_Z by lia. subst D. rewrite <- Zlt_Qlt.
    by replace (b + 1) with (Z.succ b) by lia. }
  assert ((n * 2 ^ Z.max 0 (- e) <? Z.pos d * 2 ^ Z.max 0 e) = true
          ↔ (N < D * pow2 e)%Q) as Htest.
  { rewrite Z.ltb_lt, Zlt_Qlt, !inject_Z_mult.
    rewrite <- !pow2_Z by lia. fold N D.
    assert (pow2 (Z.max 0 e) == pow2 e * pow2 (Z.max 0 (- e)))%Q as ->.
    { rewrite <- pow2_add. by replace (e + Z.max 0 (- e)) with (Z.max 0 e) by lia. }
    pose proof (pow2_pos (Z.max 0 (- e))) as HP.
    revert HP. generalize (pow2 (Z.max 0 (- e))), (pow2 e). intros P E HP.
    split; intros Hlt; Lqa.nra. }
  destruct (_ <? _) eqn:Ht.
  - apply proj1 in Htest. specialize (Htest eq_refl).
    replace (e - 1 + 1) with e by lia. rewrite Hx. split.
    + apply Qle_shift_div_l; [done|].
      assert (pow2 a == pow2 (e - 1) * pow2 (b + 1))%Q as Heq.
      { rewrite <- pow2_add. by replace (e - 1 + (b + 1)) with a by lia. }
      pose proof (pow2_pos (e - 1)) as HP.
      revert Heq HP HaN HDb.
      generalize (pow2 a), (pow2 (e - 1)), (pow2 (b + 1)). intros A P B ????.
      Lqa.nra.
    + apply Qlt_shift_div_r; [done|]. by rewrite Qmult_comm.
  - assert (¬ (N < D * pow2 e)%Q) as Hge.
    { intros Hlt. apply Htest in Hlt. congruence. }
    apply Qnot_lt_le in Hge. rewrite Hx. split.
    + apply Qle_shift_div_l; [done|]. by rewrite Qmult_comm.
    + apply Qlt_shift_div_r; [done|].
      assert (pow2 (a + 1) == pow2 (e + 1) * pow2 b)%Q as Heq.
      { rewrite <- pow2_add. by replace (e + 1 + b) with (a + 1) by lia. }
      pose proof (pow2_pos (e + 1)) as HP.
      revert Heq HP HNa HbD.
      generalize (pow2 (a + 1)), (pow2 (e + 1)), (pow2 b). intros A P B ????.
      Lqa.nra.
Qed.

Lemma Qlog2_mono (x y : Q) : (0 < x)%Q → (x <= y)%Q → Qlog2 x ≤ Qlog2 y.
Proof.
  intros Hx Hxy.
  destruct (Qlog2_spec x Hx) as [Hx1 _].
  destruct (Qlog2_spec y) as [_ Hy2]; [by apply Qlt_le_trans with x|].
  assert (Qlog2 x < Qlog2 y + 1); [|lia].
  apply pow2_lt_inv. apply Qle_lt_trans with x; [done|].
  by apply Qle_lt_trans with y.
Qed.

Lemma Qlog2_comp (x y : Q) : (0 < x)%Q → (x == y)%Q → Qlog2 x = Qlog2 y.
Proof.
  intros Hx Hxy.
  assert (0 < y)%Q as Hy by by rewrite <- Hxy.
  pose proof (Qlog2_mono x y Hx) as H1.
  pose proof (Qlog2_mono y x Hy) as H2.
  assert (Qlog2 x ≤ Qlog2 y) by (apply H1; by rewrite Hxy; apply Qle_refl).
  assert (Qlog2 y ≤ Qlog2 x) by (apply H2; by rewrite Hxy; apply Qle_refl).
  lia.
Qed.

Lemma Qeq_bool_false (x y : Q) : Qeq_bool x y = false → ¬ (x == y)%Q.
Proof. intros Hb Heq. apply Qeq_bool_iff in Heq. congruence. Qed.

Lemma Qabs_nonzero (x : Q) : ¬ (x == 0)%Q → (0 < Qabs x)%Q.
Proof.
  intros Hx. destruct (Qlt_le_dec x 0) as [Hneg|Hpos].
  - rewrite Qabs_neg by by apply Qlt_le_weak. Lqa.lra.
  - rewrite Qabs_pos by done.
    destruct (Qlt_le_dec 0 x) as [|Hle]; [done|]. destruct Hx. Lqa.lra.
Qed.

Lemma Qlog2_abs (x : Q) : (0 < x)%Q → Qlog2 (Qabs x) = Qlog2 x.
Proof.
  intros Hx. assert (Qabs x == x)%Q as Habs by (apply Qabs_pos; by apply Qlt_le_weak).
  apply Qlog2_comp; [by rewrite Habs|done].
Qed.

Lemma Qeq_bool_pos (x : Q) : (0 < x)%Q → Qeq_bool x 0 = false.
Proof.
  intros Hx. destruct (Qeq_bool x 0) eqn:Hb; [|done].
  apply Qeq_bool_iff in Hb. Lqa.lra.
Qed.

Lemma binary64_comp (x y : Q) : (x == y)%Q → binary64 x = binary64 y.
Proof.
  intros Heq. unfold binary64.
  destruct (Qeq_bool x 0) eqn:Hx, (Qeq_bool y 0) eqn:Hy; try done.
  - apply Qeq_bool_iff in Hx. apply Qeq_bool_false in Hy.
    destruct Hy. by rewrite <- Heq.
  - apply Qeq_bool_iff in Hy. apply Qeq_bool_false in Hx.
    destruct Hx. by rewrite Heq.
  - apply Qeq_bool_false in Hx.
    pose proof (Qabs_nonzero x Hx) as Hpos.
    rewrite (Qlog2_comp (Qabs x) (Qabs y)) by (done || by rewrite Heq).
    set (q := Z.max _ _). f_equal. f_equal.
    apply py_round_comp. by rewrite Heq.
Qed.

Lemma binary64_nonneg (x : Q) : (0 <= x)%Q → (0 <= binary64 x)%Q.
Proof.
  intros Hx. unfold binary64. destruct (Qeq_bool x 0); [done|].
  set (q := Z.max _ _). apply Qmult_le_0_compat; [|apply Qlt_le_weak, pow2_pos].
  change 0%Q with (inject_Z 0). rewrite <- Zle_Qle.
  rewrite <- (py_round_Z 0). apply py_round_mono.
  apply Qle_shift_div_l; [apply pow2_pos|]. by rewrite Qmult_0_l.
Qed.

Lemma binary64_nonpos (x : Q) : (x <= 0)%Q → (binary64 x <= 0)%Q.
Proof.
  intros Hx. unfold binary64. destruct (Qeq_bool x 0); [done|].
  set (q := Z.max _ _).
  assert (inject_Z (py_round (x / pow2 q)) <= 0)%Q as Hr.
  { change 0%Q with (inject_Z 0). rewrite <- Zle_Qle.
    rewrite <- (py_round_Z 0). apply py_round_mono.
    apply Qle_shift_div_r; [apply pow2_pos|]. by rewrite Qmult_0_l. }
  pose proof (pow2_pos q) as HP. revert Hr HP.
  generalize (inject_Z (py_round (x / pow2 q))), (pow2 q). intros r P ??.
  Lqa.nra.
Qed.

(** A positive number is rounded within its binade. *)
Lemma binary64_binade (x : Q) :
  (0 < x)%Q →
  (binary64 x <= pow2 (Qlog2 x + 1))%Q
  ∧ (- 1074 < Qlog2 x - 52 → (pow2 (Qlog2 x) <= binary64 x)%Q).
Proof.
  intros Hx. destruct (Qlog2_spec x Hx) as [Hlo Hhi].
  unfold binary64.
  rewrite Qeq_bool_pos, Qlog2_abs by done.
  set (e := Qlog2 x) in *. set (q := Z.max (e - 52) (- 1074)).
  pose proof (pow2_pos q) as HP.
  split.
  - destruct (decide (q ≤ e + 1)) as [Hq|Hq].
    + assert (pow2 (e + 1) == inject_Z (2 ^ (e + 1 - q)) * pow2 q)%Q as Heq.
      { rewrite <- pow2_Z by lia. rewrite <- pow2_add.
        by replace (e + 1 - q + q) with (e + 1) by lia. }
      rewrite Heq. apply Qmult_le_r; [done|]. rewrite <- Zle_Qle.
      rewrite <- (py_round_Z (2 ^ (e + 1 - q))). apply py_round_mono.
      apply Qle_shift_div_r; [done|]. rewrite <- Heq. by apply Qlt_le_weak.
    + assert (py_round (x / pow2 q) ≤ 0) as Hr.
      { change 0 with (py_round (1 # 2)). apply py_round_mono.
        apply Qle_shift_div_r; [done|].
        assert (pow2 q == 2 * pow2 (q - 1))%Q as ->.
        { change 2%Q with (pow2 1). rewrite <- pow2_add.
          by replace (1 + (q - 1)) with q by lia. }
        assert (x <= pow2 (q - 1))%Q; [|Lqa.lra].
        apply Qle_trans with (pow2 (e + 1)); [by apply Qlt_le_weak|].
        apply pow2_le. lia. }
      apply Qle_trans with 0%Q; [|apply Qlt_le_weak, pow2_pos].
      rewrite Zle_Qle in Hr. revert Hr HP.
      generalize (inject_Z (py_round (x / pow2 q))), (pow2 q). intros r P ??.
      change (inject_Z 0) with 0%Q in *. Lqa.nra.
  - intros Hnormal. assert (q = e - 52) as Hq by lia.
    assert (pow2 e == inject_Z (2 ^ 52) * pow2 q)%Q as Heq.
    { rewrite <- pow2_Z by lia. rewrite <- pow2_add.
      by replace (52 + q) with e by lia. }
    rewrite Heq. apply Qmult_le_r; [done|]. rewrite <- Zle_Qle.
    rewrite <- (py_round_Z (2 ^ 52)) at 1. apply py_round_mono.
    apply Qle_shift_div_l; [done|]. by rewrite <- Heq.
Qed.

(** Rounding is monotone on the numbers that are not negative. *)
Lemma binary64_mono (x y : Q) :
  (0 <= x)%Q → (x <= y)%Q → (binary64 x <= binary64 y)%Q.
Proof.
  intros Hx Hxy.
  destruct (Qeq_bool x 0) eqn:Hx0.
  { apply Qeq_bool_iff in Hx0. rewrite (binary64_comp x 0 Hx0).
    apply binary64_nonneg. by apply Qle_trans with x. }
  apply Qeq_bool_false in Hx0.
  assert (0 < x)%Q as Hxpos.
  { destruct (Qlt_le_dec 0 x) as [|Hle]; [done|]. destruct Hx0. Lqa.lra. }
  assert (0 < y)%Q as Hypos by by apply Qlt_le_trans with x.
  pose proof (Qlog2_mono x y Hxpos Hxy) as He.
  destruct (decide (Z.max (Qlog2 x - 52) (- 1074) = Z.max (Qlog2 y - 52) (- 1074)))
    as [Hq|Hq].
  - unfold binary64.
    rewrite !Qeq_bool_pos, !Qlog2_abs by done.
    rewrite Hq. set (q := Z.max _ _).
    apply Qmult_le_r; [apply pow2_pos|]. rewrite <- Zle_Qle.
    apply py_round_mono. apply Qmult_le_r; [apply Qinv_lt_0_compat, pow2_pos|done].
  - destruct (binary64_binade x Hxpos) as [Hxhi _].
    destruct (binary64_binade y Hypos) as [_ Hylo].
    apply Qle_trans with (pow2 (Qlog2 x + 1)); [done|].
    apply Qle_trans with (pow2 (Qlog2 y)); [apply pow2_le; lia|].
    apply Hylo. lia.
Qed.

(** * Properties *)

(** ** Decimal numerals: [str(int)] *)

Lemma pretty_N_char_digit x : is_digit (pretty_N_char x) = true.
Proof. unfold pretty_N_char. by repeat case_match. Qed.

Lemma app_cons c (s t : string) : String c s +:+ t = String c (s +:+ t).
Proof. reflexivity. Qed.

Lemma app_empty_l (t : string) : EmptyString +:+ t = t.
Proof. reflexivity. Qed.

Lemma app_empty_r (s : string) : s +:+ EmptyString = s.
Proof. induction s as [|c s IH]; [done|]. by rewrite app_cons, IH. Qed.

Lemma all_digits_app s t :
  all_digits (s +:+ t) = all_digits s && all_digits t.
Proof.
  induction s as [|c s IH]; [done|].
  rewrite app_cons. simpl. by rewrite IH, andb_assoc.
Qed.

Lemma string_app_assoc (s t u : string) : (s +:+ t) +:+ u = s +:+ t +:+ u.
Proof. induction s as [|c s IH]; [done|]. by rewrite !app_cons, IH. Qed.

Lemma pretty_N_go_digits x s :
  ∃ d, all_digits d = true ∧ pretty_N_go x s = d +:+ s
       ∧ ((0 < x)%N → d ≠ EmptyString).
Proof.
  revert s. induction (N.lt_wf_0 x) as [x _ IH]; intros s.
  destruct (decide (x = 0%N)) as [->|Hx].
  - exists EmptyString. rewrite pretty_N_go_0. split; [done|]. split; [done|lia].
  - assert (0 < x)%N as Hpos by lia.
    rewrite pretty_N_go_step by done.
    destruct (IH (x `div` 10)%N (N.div_lt x 10 Hpos eq_refl)
                (String (pretty_N_char (x `mod` 10)) s)) as (d & Hd & -> & _).
    exists (d +:+ String (pretty_N_char (x `mod` 10)) EmptyString).
    split; [|split].
    + rewrite all_digits_app, Hd. simpl. by rewrite pretty_N_char_digit.
    + by rewrite string_app_assoc, app_cons, app_empty_l.
    + intros _. by destruct d.
Qed.

Lemma pretty_N_digits (x : N) :
  all_digits (pretty x) = true ∧ pretty x ≠ EmptyString.
Proof.
  unfold pretty, pretty_N. case_decide as Hx; [done|].
  destruct (pretty_N_go_digits x EmptyString) as (d & Hd & -> & Hne).
  rewrite app_empty_r.
  split; [done|]. apply Hne. lia.
Qed.

Lemma pretty_Z_numeral (z : Z) : numeral (pretty z).
Proof.
  destruct z as [|p|p]; unfold pretty, pretty_Z; simpl.
  - exists "0". by repeat split; [|left].
  - destruct (pretty_N_digits (N.pos p)) as [Hd Hne].
    exists (pretty (N.pos p)). by repeat split; [..|left].
  - destruct (pretty_N_digits (N.pos p)) as [Hd Hne].
    exists (pretty (N.pos p)). by repeat split; [..|right].
Qed.

Lemma digits_dash_split d1 d2 r1 r2 :
  all_digits d1 = true → all_digits d2 = true →
  d1 +:+ String "-" r1 = d2 +:+ String "-" r2 → d1 = d2 ∧ r1 = r2.
Proof.
  revert d2. induction d1 as [|c d1 IH]; intros [|c' d2];
    rewrite ?app_cons, ?app_empty_l; simpl.
  - intros _ _ [= ->]. done.
  - intros _ Hd [= <- _]. done.
  - intros Hd _ [= -> _]. done.
  - intros [_ H1]%andb_prop [_ H2]%andb_prop [= -> Heq].
    destruct (IH _ H1 H2 Heq) as [-> ->]. done.
Qed.

Lemma numeral_dash_split a b r1 r2 :
  numeral a → numeral b →
  a +:+ String "-" r1 = b +:+ String "-" r2 → a = b ∧ r1 = r2.
Proof.
  intros (d1 & H1 & Hn1 & [->| ->]) (d2 & H2 & Hn2 & [->| ->]);
    rewrite ?app_cons.
  - by apply digits_dash_split.
  - destruct d1 as [|c d1]; [done|]. rewrite app_cons. simpl in *.
    intros [= -> _]. done.
  - destruct d2 as [|c d2]; [done|]. rewrite app_cons. simpl in *.
    intros [= <- _]. done.
  - intros [= Heq]. by destruct (digits_dash_split _ _ _ _ H1 H2 Heq) as [-> ->].
Qed.

Lemma key_of_inj p1 h1 p2 h2 :
  key_of p1 h1 = key_of p2 h2 → p1 = p2 ∧ h1 = h2.
Proof.
  unfold key_of. intros Heq.
  destruct (numeral_dash_split _ _ _ _ (pretty_Z_numeral p1)
              (pretty_Z_numeral p2) Heq) as [Hp Hh].
  split; by apply (inj pretty).
Qed.

(** ** Numbers *)

Lemma Qltb_true a b : Qltb a b = true ↔ (a < b)%Q.
Proof.
  unfold Qltb. rewrite negb_true_iff, <- not_true_iff_false, Qle_bool_iff.
  split; [apply Qnot_le_lt | apply Qlt_not_le].
Qed.

Lemma Qltb_false a b : Qltb a b = false ↔ (b <= a)%Q.
Proof. unfold Qltb. by rewrite negb_false_iff, Qle_bool_iff. Qed.

(** On non-negative values truncation is the floor. *)
Lemma py_int_nonneg (x : Q) : (0 <= x)%Q → py_int x = Qfloor x.
Proof.
  destruct x as [n d]. unfold Qle, py_int, Qfloor. simpl. intros Hn.
  apply Z.quot_div_nonneg; lia.
Qed.

(** ** Resampling *)

Section resampling.
Context `{Config}.

Lemma length_linspace start stop num : length (linspace start stop num) = num.
Proof.
  unfold linspace. destruct num as [|[|n]]; [done..|].
  by rewrite length_map, length_seq.
Qed.

Lemma np_interp_total x xp fp :
  xp ≠ [] → np_interp x xp fp = inr (map (interp1 (zip xp fp)) x).
Proof. by destruct xp. Qed.

(** The resampler succeeds on every non-empty series, and the three
    interpolated arrays have [num_interpolated] entries each. *)
Lemma interpolate_length (trackpoints : list jpoint) :
  trackpoints ≠ [] →
  ∃ d, interpolate trackpoints = inr d
       ∧ length (power d) = Z.to_nat (num_interpolated_of (duration_of trackpoints))
       ∧ length (hr d) = length (power d)
       ∧ length (w_per_kg d) = length (power d).
Proof.
  destruct trackpoints as [|first rest]; [done|]. intros _.
  unfold interpolate, duration_of.
  set (tps := first :: rest).
  set (n := num_interpolated_of _).
  set (top := inject_Z _).
  assert (linspace 0 top (length tps) ≠ []) as Hne.
  { intros Heq. apply (f_equal length) in Heq.
    by rewrite length_linspace in Heq. }
  rewrite !np_interp_total by done. simpl.
  eexists. split; [done|]. simpl.
  by rewrite !length_map, length_linspace.
Qed.

End resampling.

Section frame_count.
Context `{Config}.

(** C1 (as amended). For every non-empty sliced series the resampler
    succeeds.  With [duration] the first-to-last span in seconds, a double,
    and [product] the double product [duration * fps], it produces exactly
    one frame when [duration <= 0] and exactly [floor product] frames, which
    is at least one, when [product >= 1]: the count is the truncation of the
    double product, not its rounding to nearest. *)
Theorem frame_count_truncates (trackpoints : list jpoint) :
  trackpoints ≠ [] →
  let duration := duration_of trackpoints in
  let product := float_mul duration (float_of_int VIDEO_FPS) in
  (duration <= 0 ∨ 1 <= product)%Q →
  ∃ d, interpolate trackpoints = inr d
       ∧ Z.of_nat (length (power d)) =
           (if Qle_bool duration 0 then 1 else Qfloor product)
       ∧ (1 ≤ length (power d))%nat
       ∧ length (hr d) = length (power d)
       ∧ length (w_per_kg d) = length (power d).
Proof.
  intros Hne duration product Hcase.
  destruct (interpolate_length trackpoints Hne) as (d & Hd & Hlen & Hhr & Hw).
  exists d. split; [done|]. fold duration in Hlen.
  assert (Z.of_nat (length (power d)) =
            (if Qle_bool duration 0 then 1 else Qfloor product)
          ∧ 1 ≤ Z.of_nat (length (power d))) as [Hcount Hpos].
  { rewrite Hlen. unfold num_interpolated_of. fold product.
    destruct (Qle_bool duration 0) eqn:Hle.
    - apply Qle_bool_iff, Qltb_false in Hle as Hlt. rewrite Hlt. lia.
    - assert (0 < duration)%Q as Hlt.
      { apply Qnot_le_lt. intros Hc. apply Qle_bool_iff in Hc. congruence. }
      apply Qltb_true in Hlt as Hb. rewrite Hb.
      destruct Hcase as [Hc|Hc].
      { apply Qle_bool_iff in Hc. congruence. }
      rewrite py_int_nonneg by (apply Qle_trans with 1%Q; [done|exact Hc]).
      assert (1 ≤ Qfloor product) as Hfl.
      { change 1 with (Qfloor 1). by apply Qfloor_resp_le. }
      lia. }
  repeat split; [done|lia|done|done].
Qed.

End frame_count.

Lemma frame_count_truncates_witness :
  ∃ d, @interpolate MASTER_CONFIGURATION series_90ms = inr d
       ∧ Z.of_nat (length (power d)) = 2
       ∧ (1 ≤ length (power d))%nat
       ∧ length (hr d) = length (power d)
       ∧ length (w_per_kg d) = length (power d).
Proof.
  apply (@frame_count_truncates MASTER_CONFIGURATION series_90ms).
  - discriminate.
  - right. vm_compute. discriminate.
Defined.

(** C1, counterexample.  On two points 90 ms apart at 30 fps the span is
    2.7 frames (2.6999999999999997 as the double product): the resampler
    yields 2 frames, the stated [max(1, round(duration * fps))] is 3,
    whether the product is taken exactly or in double precision. *)
Lemma frame_count_not_rounded :
  ∃ d, @interpolate MASTER_CONFIGURATION series_90ms = inr d
       ∧ Z.of_nat (length (power d)) = 2
       ∧ @spec_frame_count MASTER_CONFIGURATION (9 # 100) = 3
       ∧ @spec_frame_count MASTER_CONFIGURATION (duration_of series_90ms) = 3
       ∧ Z.max 1 (py_round (float_mul (duration_of series_90ms) (float_of_int 30)))
         = 3
       ∧ Z.of_nat (length (power d))
         ≠ @spec_frame_count MASTER_CONFIGURATION (duration_of series_90ms).
Proof.
  eexists. split; [vm_compute; reflexivity|].
  repeat split; try (vm_compute; reflexivity). vm_compute. discriminate.
Qed.

(** A span of 20 ms (0.6 frame) yields no frame at all. *)
Example frame_count_zero :
  @interpolate MASTER_CONFIGURATION series_20ms = inr (Interpolated [] [] []).
Proof. vm_compute. reflexivity. Qed.

(** A span of 4.1 s yields 122 frames: the double nearest to 4.1, times 30,
    is 122.99999999999999, below the exact product 123. *)
Example frame_count_4100ms :
  @num_interpolated_of MASTER_CONFIGURATION (duration_of series_4100ms) = 122
  ∧ Qfloor ((4100000 # 1000000) * 30) = 123.
Proof. split; vm_compute; reflexivity. Qed.

(** ** The cache key *)

(** C2 (as amended). The cache key of a frame is formed from the truncations
    toward zero of its power and heart-rate values: two frames share a key
    if and only if both truncations agree. *)
Theorem cache_key_truncates (p1 h1 p2 h2 : Q) :
  cache_key p1 h1 = cache_key p2 h2 ↔
  py_int p1 = py_int p2 ∧ py_int h1 = py_int h2.
Proof.
  unfold cache_key. split.
  - apply key_of_inj.
  - by intros [-> ->].
Qed.

(** C2, counterexample.  Powers 1.6 and 1.0 round to 2 and 1, yet the two
    frames share the key "1-0". *)
Lemma cache_key_not_rounded :
  ¬ (cache_key (8 # 5) 0 = cache_key 1 0 ↔
     py_round (8 # 5) = py_round 1 ∧ py_round 0 = py_round 0).
Proof.
  intros [Hkey _]. assert (py_round (8 # 5) = py_round 1) as Hr.
  { apply Hkey. reflexivity. }
  vm_compute in Hr. discriminate.
Qed.

(** ** Speed derivation *)

Section speed.

Lemma speed_inv_0 tps : speed_inv tps tps 0.
Proof. repeat split; intros; (done || lia). Qed.

Lemma speed_rule_set_speed prev cur v :
  (match tp_distance cur, tp_distance prev with
   | Some d, Some d_prev =>
       if Qltb 0 (time_delta cur prev)
       then v = ((d - d_prev) / time_delta cur prev)%Q
       else Some v = tp_speed prev
   | _, _ => v = 0%Q
   end) →
  speed_rule prev (set_speed v cur).
Proof.
  unfold speed_rule, time_delta. simpl.
  destruct (tp_distance cur), (tp_distance prev); try by intros ->.
  destruct (Qltb _ _); by intros ->.
Qed.

Lemma speed_inv_step tps out k :
  (k < length tps)%nat →
  speed_inv tps out k → speed_inv tps (speed_body out k) (S k).
Proof.
  intros Hk (Hlen & Hrest & Hdone & Hfirst & Hrule).
  destruct (lookup_lt_is_Some_2 tps k Hk) as [cur Hcur].
  assert (out !! k = Some cur) as Hout by (rewrite Hrest; [done|lia]).
  unfold speed_body. rewrite Hout.
  set (v := match k with O => _ | S j => _ end).
  assert (k < length out)%nat as Hk' by lia.
  split; [by rewrite length_insert|].
  split; [intros i Hi; rewrite list_lookup_insert_ne by lia; apply Hrest; lia|].
  split; [|split].
  - intros i tp Hi Htp. destruct (decide (i = k)) as [->|Hne].
    + rewrite list_lookup_insert_eq by done. exists v. congruence.
    + rewrite list_lookup_insert_ne by done. apply Hdone; [lia|done].
  - intros first _. destruct k as [|k].
    + rewrite list_lookup_insert_eq by done. by intros [= <-].
    + rewrite list_lookup_insert_ne by done. apply Hfirst. lia.
  - intros i prev cur' Hi. destruct (decide (S i = k)) as [<-|Hne].
    + rewrite list_lookup_insert_ne by lia.
      rewrite list_lookup_insert_eq by done.
      intros Hprev [= <-]. apply speed_rule_set_speed.
      subst v. simpl. rewrite Hprev.
      assert (∃ tp v', prev = set_speed v' tp) as (tp & v' & ->).
      { destruct (lookup_lt_is_Some_2 tps i) as [tp Htp]; [lia|].
        destruct (Hdone i tp) as [v' Hv']; [lia|done|].
        exists tp, v'. congruence. }
      unfold time_delta. simpl.
      destruct (tp_distance cur), (tp_distance tp); try done.
      by destruct (Qltb _ _).
    + rewrite !list_lookup_insert_ne by lia. apply Hrule. lia.
Qed.

Lemma speed_inv_fold tps k :
  (k ≤ length tps)%nat →
  speed_inv tps (fold_left speed_body (seq 0 k) tps) k.
Proof.
  induction k as [|k IH]; intros Hk.
  - apply speed_inv_0.
  - rewrite seq_S, fold_left_app. simpl.
    apply speed_inv_step; [lia|]. apply IH. lia.
Qed.

Lemma compute_speeds_length tps : length (compute_speeds tps) = length tps.
Proof. apply (speed_inv_fold tps (length tps) (le_n _)). Qed.

(** C3 (as amended). In every built series the first point's speed is 0; a
    later point whose own and whose predecessor's distance are known gets
    the quotient of the distance and time differences when time advances,
    and the predecessor's speed when it does not; a point with a distance
    missing on either side gets speed 0.  No other field changes. *)
Theorem speed_derivation (tps : list trackpoint) :
  let out := compute_speeds tps in
  length out = length tps
  ∧ (∀ i tp, tps !! i = Some tp → ∃ v, out !! i = Some (set_speed v tp))
  ∧ (∀ first, out !! 0%nat = Some first → tp_speed first = Some 0%Q)
  ∧ (∀ i prev cur, out !! i = Some prev → out !! S i = Some cur →
       match tp_distance cur, tp_distance prev with
       | Some d, Some d_prev =>
           if Qltb 0 (time_delta cur prev)
           then tp_speed cur = Some ((d - d_prev) / time_delta cur prev)%Q
           else tp_speed cur = tp_speed prev
       | _, _ => tp_speed cur = Some 0%Q
       end).
Proof.
  intros out. subst out. unfold compute_speeds.
  destruct (speed_inv_fold tps (length tps) (le_n _))
    as (Hlen & _ & Hdone & Hfirst & Hrule).
  set (out := fold_left _ _ _) in *.
  split; [done|]. split; [|split].
  - intros i tp Htp. apply Hdone; [|done]. by eapply lookup_lt_Some.
  - intros first Hf. apply Hfirst; [|done].
    apply lookup_lt_Some in Hf. lia.
  - intros i prev cur Hp Hc. apply (Hrule i prev cur); [|done..].
    apply lookup_lt_Some in Hc. lia.
Qed.

End speed.

(** C3, counterexample.  The third of three samples has no distance
    reading: its speed is 0, not the 5 m/s of the sample before it. *)
Lemma speed_not_inherited :
  ¬ (∀ i prev cur,
       compute_speeds three_points !! i = Some prev →
       compute_speeds three_points !! S i = Some cur →
       spec_speed_rule prev cur).
Proof.
  intros Hspec.
  specialize (Hspec 1%nat _ _ eq_refl eq_refl).
  vm_compute in Hspec. discriminate.
Qed.

(** ** Slicing *)

Section slicing.
Context `{Python}.

Lemma to_utc_instant (t : datetime) : to_utc t = Aware (utc_instant_of t) 0.
Proof. by destruct t. Qed.

Lemma slice_loop_acc (s e : datetime) (tps : list trackpoint) (acc : list jpoint) :
  fold_left
    (λ sliced_data tp,
       if (instant s <=? tp_time tp) && (tp_time tp <=? instant e)
       then sliced_data ++ [data_point_of tp]
       else sliced_data) tps acc
  = acc ++ (data_point_of <$>
              filter (λ tp, instant s ≤ tp_time tp ≤ instant e) tps).
Proof.
  revert acc. induction tps as [|tp tps IH]; intros acc; simpl.
  { by rewrite app_nil_r. }
  rewrite IH, filter_cons.
  destruct (decide (instant s ≤ tp_time tp ≤ instant e)) as [Hin|Hout].
  - rewrite (proj2 (Z.leb_le _ _)), (proj2 (Z.leb_le _ _)) by lia. simpl.
    by rewrite <- app_assoc.
  - destruct (instant s <=? tp_time tp) eqn:H1,
             (tp_time tp <=? instant e) eqn:H2; simpl; try done.
    apply Z.leb_le in H1, H2. lia.
Qed.


End slicing.



(** ** Building the series *)

Section builder.
Context `{Python}.



Lemma collect_ok (nodes : list tp_node) (acc out : list trackpoint)
    (w w' : world) :
  collect nodes acc w = (w', inr out) →
  length out = (length acc + length (filter (λ tp, survives tp = true) nodes))%nat
  ∧ files w' = files w
  ∧ open_writers w' = open_writers w
  ∧ stdout w' = stdout w ++ warnings_of nodes.
Proof.
  revert acc w. induction nodes as [|tp nodes IH]; intros acc w; simpl.
  { intros [= <- <-]. rewrite app_nil_r. repeat split; lia. }
  rewrite filter_cons.
  destruct (time_str_nodes tp) as [|time_str ?] eqn:Hts.
  { rewrite decide_False by (unfold survives; by rewrite Hts). apply IH. }
  destruct (parse_time time_str) eqn:Hparse.
  - rewrite decide_True by (unfold survives; by rewrite Hts, Hparse).
    unfold bind, lift.
    destruct (int_or_0 _); [done|]. destruct (int_or_0 _); [done|].
    destruct (int_or_0 _); [done|]. destruct (float_or_None _); [done|].
    intros Hc. apply IH in Hc as (Hlen & ? & ? & ?).
    rewrite length_app in Hlen. simpl in *. repeat split; [lia|done..].
  - rewrite decide_False by (unfold survives; by rewrite Hts, Hparse).
    unfold bind, print, modify.
    intros Hc. apply IH in Hc as (Hlen & ? & ? & Hout). simpl in *.
    repeat split; [done..|]. by rewrite Hout, <- app_assoc.
Qed.



Lemma parsed_time_survives (tp : tp_node) :
  survives tp = true ↔ is_Some (parsed_time tp).
Proof.
  unfold survives, parsed_time. destruct (time_str_nodes tp) as [|s ?].
  - split; [done|]. by intros [? ?].
  - destruct (parse_time s); split; try done; try by eexists.
Qed.

Lemma collect_times (nodes : list tp_node) (acc out : list trackpoint)
    (w w' : world) :
  collect nodes acc w = (w', inr out) →
  tp_time <$> out = (tp_time <$> acc) ++ surviving_times nodes.
Proof.
  revert acc w. induction nodes as [|tp nodes IH]; intros acc w; simpl.
  { intros [= <- <-]. by rewrite app_nil_r. }
  unfold surviving_times. simpl. unfold parsed_time at 1.
  destruct (time_str_nodes tp) as [|time_str ?]; [apply IH|].
  destruct (parse_time time_str) as [t|]; simpl.
  - unfold bind, lift.
    destruct (int_or_0 _); [done|]. destruct (int_or_0 _); [done|].
    destruct (int_or_0 _); [done|]. destruct (float_or_None _); [done|].
    intros Hc. apply IH in Hc. rewrite Hc, fmap_app. simpl.
    by rewrite <- app_assoc.
  - unfold bind, print, modify. apply IH.
Qed.

Lemma compute_speeds_times (tps : list trackpoint) :
  tp_time <$> compute_speeds tps = tp_time <$> tps.
Proof.
  destruct (speed_inv_fold tps (length tps) (le_n _)) as (Hlen & _ & Hdone & _).
  fold (compute_speeds tps) in *.
  apply list_eq. intros i. rewrite !list_lookup_fmap.
  destruct (tps !! i) as [tp|] eqn:Htp.
  - destruct (Hdone i tp (lookup_lt_Some _ _ _ Htp) Htp) as [v ->]. done.
  - rewrite (lookup_ge_None_2 (compute_speeds tps)); [done|].
    rewrite Hlen. by apply lookup_ge_None.
Qed.

Lemma hd_head {A} (d : A) (l : list A) : l ≠ [] → head l = Some (List.hd d l).
Proof. by destruct l. Qed.

Lemma last_last {A} (d : A) (l : list A) : l ≠ [] → last l = Some (List.last l d).
Proof.
  induction l as [|x l IH]; [done|]. intros _.
  destruct l as [|y l]; [done|].
  change (last (x :: y :: l)) with (last (y :: l)).
  change (List.last (x :: y :: l) d) with (List.last (y :: l) d).
  by apply IH.
Qed.

Lemma collect_succeeds_iff (nodes : list tp_node) (acc : list trackpoint)
    (w : world) :
  (∃ w' out, collect nodes acc w = (w', inr out))
  ↔ ∀ tp, tp ∈ nodes → survives tp = true → convertible tp.
Proof.
  revert acc w. induction nodes as [|tp nodes IH]; intros acc w; simpl.
  { split; [intros _ tp Hin; by apply elem_of_nil in Hin|by eexists _, _]. }
  assert ((∀ tp', tp' ∈ tp :: nodes → survives tp' = true → convertible tp')
          ↔ (survives tp = true → convertible tp)
            ∧ (∀ tp', tp' ∈ nodes → survives tp' = true → convertible tp'))
    as ->.
  { split.
    - intros Hall. split; [apply Hall; left|]. intros tp' Hin. apply Hall. by right.
    - intros [Ht Hall] tp' [->|Hin]%elem_of_cons; [done|by apply Hall]. }
  assert (∀ (P Q : Prop), Q ↔ (false = true → P) ∧ Q) as Hskip.
  { intros P Q. split; [by split|by intros [_ ?]]. }
  unfold survives at 1, convertible at 1.
  destruct (time_str_nodes tp) as [|time_str ?].
  { rewrite IH. apply Hskip. }
  destruct (parse_time time_str) as [t|].
  - unfold bind, lift.
    destruct (int_or_0 (first_or (power_nodes tp) "0")) as [e|p];
      [split; [by intros (? & ? & ?)|];
       intros [Hc _]; by destruct (Hc eq_refl) as ((? & ?) & _)|].
    destruct (int_or_0 (first_or (hr_nodes tp) "0")) as [e|h];
      [split; [by intros (? & ? & ?)|];
       intros [Hc _]; by destruct (Hc eq_refl) as (_ & (? & ?) & _)|].
    destruct (int_or_0 (first_or (cad_nodes tp) "0")) as [e|c];
      [split; [by intros (? & ? & ?)|];
       intros [Hc _]; by destruct (Hc eq_refl) as (_ & _ & (? & ?) & _)|].
    destruct (float_or_None (head (dist_nodes tp))) as [e|dist];
      [split; [by intros (? & ? & ?)|];
       intros [Hc _]; by destruct (Hc eq_refl) as (_ & _ & _ & (? & ?))|].
    rewrite IH. split; [|by intros [_ ?]].
    intros Hrest. split; [|done]. intros _. repeat split; by eexists.
  - unfold bind, print, modify. rewrite IH. apply Hskip.
Qed.

Lemma astimezone_None_returns (t : Z) :
  (astimezone_None t = inr (Aware t (utcoffset_at t)) ∧ converts_to_local t)
  ∨ ((∃ e, astimezone_None t = inl e) ∧ ¬ converts_to_local t).
Proof.
  unfold astimezone_None, converts_to_local.
  destruct (localtime_error t) as [e|].
  { right. split; [by eexists|]. by intros [? _]. }
  destruct ((datetime_min <=? t + utcoffset_at t)
            && (t + utcoffset_at t <=? datetime_max)) eqn:Hr.
  - apply andb_true_iff in Hr as [Hlo Hhi]. apply Z.leb_le in Hlo, Hhi.
    left. by repeat split.
  - right. split; [by eexists|]. intros [_ [Hlo Hhi]].
    apply Z.leb_le in Hlo, Hhi. by rewrite Hlo, Hhi in Hr.
Qed.

(** What a successful parse is made of. *)
Lemma parse_tcx_file_ok (nodes : list tp_node) (w w' : world) (data : tcx_data) :
  parse_tcx_file (Tree nodes) w = (w', inr data) →
  ∃ first tps,
    collect nodes [] w = (w', inr (first :: tps))
    ∧ trackpoints data = compute_speeds (first :: tps)
    ∧ tp_time <$> trackpoints data = surviving_times nodes
    ∧ trackpoints data ≠ []
    ∧ start_time data
      = astimezone_local (Aware (tp_time (List.hd first (trackpoints data))) 0)
    ∧ end_time data
      = astimezone_local (Aware (tp_time (List.last (trackpoints data) first)) 0).
Proof.
  unfold parse_tcx_file.
  destruct nodes as [|tp0 nodes0] eqn:Hnodes; [done|]. rewrite <- Hnodes.
  unfold bind at 1.
  destruct (collect nodes [] w) as [w1 [e|tps]] eqn:Hc; [done|].
  destruct tps as [|first tps]; [done|].
  unfold bind, lift.
  destruct (astimezone_None_returns
              (tp_time (List.hd first (compute_speeds (first :: tps)))))
    as [[-> _]|[[e ->] _]]; [|done].
  destruct (astimezone_None_returns
              (tp_time (List.last (compute_speeds (first :: tps)) first)))
    as [[-> _]|[[e ->] _]]; [|done].
  intros [= <- <-]. cbn [trackpoints start_time end_time].
  exists first, tps. split; [done|]. split; [done|].
  apply collect_times in Hc. rewrite app_nil_l in Hc.
  pose proof (compute_speeds_length (first :: tps)) as Hl.
  split; [by rewrite compute_speeds_times|]. split; [|done].
  intros E. by rewrite E in Hl.
Qed.

(** When the builder returns a series. *)
Lemma parse_tcx_file_returns (nodes : list tp_node) (w : world) :
  (∃ w' data, parse_tcx_file (Tree nodes) w = (w', inr data))
  ↔ (∃ tp, tp ∈ nodes ∧ survives tp = true)
    ∧ (∀ tp, tp ∈ nodes → survives tp = true → convertible tp)
    ∧ (∀ t, head (surviving_times nodes) = Some t → converts_to_local t)
    ∧ (∀ t, last (surviving_times nodes) = Some t → converts_to_local t).
Proof.
  unfold parse_tcx_file.
  destruct nodes as [|tp0 nodes0] eqn:Hnodes.
  { split; [by intros (? & ? & ?)|]. intros [(tp & Hin & _) _].
    by apply elem_of_nil in Hin. }
  rewrite <- Hnodes. clear Hnodes tp0 nodes0.
  rewrite <- (collect_succeeds_iff nodes [] w). unfold bind at 1.
  destruct (collect nodes [] w) as [w1 [e|tps]] eqn:Hc.
  { split; [by intros (? & ? & ?)|]. by intros (_ & (? & ? & ?) & _). }
  pose proof (collect_ok _ _ _ _ _ Hc) as (Hlen & _). simpl in Hlen.
  destruct tps as [|first tps].
  { split; [by intros (? & ? & ?)|]. intros [(tp & Hin & Hs) _]. exfalso.
    assert (tp ∈ filter (λ tp, survives tp = true) nodes) as Hf
      by by apply list_elem_of_filter.
    destruct (filter _ nodes); [by apply elem_of_nil in Hf|done]. }
  assert (∃ tp, tp ∈ nodes ∧ survives tp = true) as Hsome.
  { destruct (filter (λ tp, survives tp = true) nodes) as [|tp l] eqn:Hf;
      [done|].
    assert (tp ∈ filter (λ tp, survives tp = true) nodes) as Hin
      by (rewrite Hf; left).
    apply list_elem_of_filter in Hin as [Hs Hin]. by exists tp. }
  apply collect_times in Hc as Ht. rewrite app_nil_l in Ht.
  rewrite <- (compute_speeds_times (first :: tps)) in Ht.
  pose proof (compute_speeds_length (first :: tps)) as Hl.
  set (out := compute_speeds (first :: tps)) in *.
  assert (out ≠ []) as Hne by (intros E; by rewrite E in Hl).
  assert (head (surviving_times nodes) = Some (tp_time (List.hd first out)))
    as Hhead.
  { rewrite <- Ht. by destruct out. }
  assert (last (surviving_times nodes) = Some (tp_time (List.last out first)))
    as Hlast.
  { rewrite <- Ht. by rewrite fmap_last, (last_last first). }
  rewrite Hhead, Hlast. unfold bind, lift.
  destruct (astimezone_None_returns (tp_time (List.hd first out)))
    as [[-> Hs]|[[e ->] Hs]].
  - destruct (astimezone_None_returns (tp_time (List.last out first)))
      as [[-> He]|[[e ->] He]].
    + split; [|by eexists _, _]. intros _. split; [done|].
      split; [by eexists _, _|]. split; by intros t [= <-].
    + split; [by intros (? & ? & ?)|]. intros (_ & _ & _ & Hc').
      destruct He. by apply Hc'.
  - split; [by intros (? & ? & ?)|]. intros (_ & _ & Hc' & _).
    destruct Hs. by apply Hc'.
Qed.


End builder.

(** ** The render loop and its caches *)

Section render_loop.
Context `{Config, Python, Pillow, OpenCV}.

Lemma text_cached_spec (tc tc' : gmap string image) s f im :
  text_cached tc s f = (tc', im) → tc ⊆ tc' ∧ tc' !! s = Some im.
Proof.
  unfold text_cached. destruct (tc !! s) as [im0|] eqn:Hs.
  - by intros [= <- <-].
  - intros [= <- <-]. split; [by apply insert_subseteq|].
    by rewrite lookup_insert_eq.
Qed.

Lemma cache_inv_empty : cache_inv empty_caches.
Proof.
  intros p h [x Hx]. unfold empty_caches in Hx. simpl in Hx.
  by rewrite lookup_empty in Hx.
Qed.

(** One pass through the cached part of an iteration: it cannot fail, it
    only adds to the caches, and what it returns is what the caches hold
    from then on. *)
Lemma render_base_spec (a : assets) (c : caches) (p h : Z) (wkg : Q) :
  cache_inv c →
  ∃ c' frame txt,
    render_base a c p h wkg = inr (c', frame, txt)
    ∧ text_cache c ⊆ text_cache c'
    ∧ base_frame_cache c ⊆ base_frame_cache c'
    ∧ base_frame_cache c' !! key_of p h = Some frame
    ∧ text_cache c' !! hr_text_str h = Some txt
    ∧ cache_inv c'.
Proof.
  intros Hinv. unfold render_base.
  destruct (base_frame_cache c !! key_of p h) as [cached|] eqn:Hkey.
  - destruct (Hinv p h) as [txt Htxt]; [by eexists|].
    unfold hr_text_str in Htxt. rewrite Htxt.
    by exists c, cached, txt.
  - destruct (text_cached (text_cache c) _ FONT_XL) as [tc1 im1] eqn:Ht1.
    destruct (text_cached tc1 _ FONT_L) as [tc2 im2] eqn:Ht2.
    destruct (text_cached tc2 _ FONT_L) as [tc3 im3] eqn:Ht3.
    apply text_cached_spec in Ht1 as [Hs1 _], Ht2 as [Hs2 _], Ht3 as [Hs3 Hl3].
    assert (text_cache c ⊆ tc3) as Hsub by (etrans; [|etrans]; done).
    eexists _, _, _. split; [done|]. simpl.
    split; [done|]. split; [by apply insert_subseteq|].
    split; [by rewrite lookup_insert_eq|]. split; [done|].
    intros p' h' Hsome. simpl in *.
    destruct (decide (key_of p h = key_of p' h')) as [Heq|Hne].
    + apply key_of_inj in Heq as [_ <-]. by eexists.
    + rewrite lookup_insert_ne in Hsome by done.
      eapply lookup_weaken_is_Some; [|exact Hsub]. by apply (Hinv p' h').
Qed.

Lemma index_lt {A} (l : list A) (i : nat) :
  (i < length l)%nat → ∃ x, l !! i = Some x ∧ index l i = inr x.
Proof.
  intros Hi. destruct (lookup_lt_is_Some_2 l i Hi) as [x Hx].
  exists x. unfold index. by rewrite Hx.
Qed.

Lemma prepare_spec (a : assets) (d : interpolated) (c : caches) (i : nat) :
  cache_inv c → aligned d → (i < length (power d))%nat →
  ∃ pr p h,
    prepare a d c i = inr pr
    ∧ power d !! i = Some p ∧ hr d !! i = Some h
    ∧ pr_power_val pr = py_int p ∧ pr_hr_val pr = py_int h
    ∧ text_cache c ⊆ text_cache (pr_caches pr)
    ∧ base_frame_cache c ⊆ base_frame_cache (pr_caches pr)
    ∧ base_frame_cache (pr_caches pr) !! key_of (py_int p) (py_int h)
      = Some (pr_base pr)
    ∧ text_cache (pr_caches pr) !! hr_text_str (py_int h) = Some (pr_hr_text pr)
    ∧ cache_inv (pr_caches pr).
Proof.
  intros Hinv [Hhr Hw] Hi. unfold prepare.
  destruct (index_lt (power d) i Hi) as (p & Hp & ->).
  destruct (index_lt (hr d) i) as (h & Hh & ->); [lia|].
  destruct (index_lt (w_per_kg d) i) as (wkg & _ & ->); [lia|].
  simpl.
  destruct (render_base_spec a c (py_int p) (py_int h) wkg Hinv)
    as (c' & frame & txt & -> & ? & ? & ? & ? & ?).
  simpl. by eexists _, p, h.
Qed.

(** The progress report either returns or raises what the callback raised;
    it leaves the world as it was. *)
Lemma report_progress_spec (cb : option callback) (i total : nat) (w : world) :
  report_progress cb i total w = (w, inr tt)
  ∨ ∃ code, report_progress cb i total w = (w, inl (CallbackError code)).
Proof.
  unfold report_progress. destruct cb as [cb|]; [|by left].
  destruct (_ =? 0); [|by left].
  unfold call. destruct (cb _ _) as [code|]; [right; by exists code|by left].
Qed.

Lemma frame_body_spec (a : assets) (output_path : string)
    (cb : option callback) (d : interpolated) (total : nat) (c : caches)
    (i : nat) (w : world) :
  cache_inv c → aligned d → (i < length (power d))%nat →
  ∃ pr, prepare a d c i = inr pr
        ∧ cache_inv (pr_caches pr)
        ∧ let w1 := wrote output_path
                      (animate a (pr_base pr) (pr_hr_text pr) (pr_hr_val pr) i) w in
          (frame_body a output_path cb d total c i w = (w1, inr (pr_caches pr))
           ∨ ∃ code, frame_body a output_path cb d total c i w
                     = (w1, inl (CallbackError code))).
Proof.
  intros Hinv Hal Hi.
  destruct (prepare_spec a d c i Hinv Hal Hi)
    as (pr & p & h & Hpr & _ & _ & _ & _ & _ & _ & _ & _ & Hinv').
  exists pr. split; [done|]. split; [done|]. intros w1.
  unfold frame_body, bind, lift. rewrite Hpr.
  unfold writer_write, modify. fold w1.
  change (World _ _ _) with w1.
  destruct (report_progress_spec cb i total w1) as [->|[code ->]];
    [by left|right; by exists code].
Qed.

End render_loop.

Section render_loop_runs.
Context `{Config, Python, Pillow, OpenCV}.

Lemma prepare_ok (a : assets) (d : interpolated) (c : caches) (i : nat)
    (pr : prepared) :
  cache_inv c → prepare a d c i = inr pr →
  text_cache c ⊆ text_cache (pr_caches pr)
  ∧ base_frame_cache c ⊆ base_frame_cache (pr_caches pr)
  ∧ base_frame_cache (pr_caches pr) !! key_of (pr_power_val pr) (pr_hr_val pr)
    = Some (pr_base pr)
  ∧ text_cache (pr_caches pr) !! hr_text_str (pr_hr_val pr) = Some (pr_hr_text pr)
  ∧ cache_inv (pr_caches pr).
Proof.
  intros Hinv. unfold prepare.
  destruct (index (power d) i) as [|p]; [done|].
  destruct (index (hr d) i) as [|h]; [done|].
  destruct (index (w_per_kg d) i) as [|wkg]; [done|]. simpl.
  destruct (render_base_spec a c (py_int p) (py_int h) wkg Hinv)
    as (c' & frame & txt & -> & ? & ? & ? & ? & ?).
  simpl. by intros [= <-].
Qed.

(** The loop over any in-range indices, from caches that satisfy the
    invariant: it hands the writer the frames of [written_frames] one by
    one, and stops early only when the progress callback raises. *)
Lemma for_range_spec (a : assets) (out : string) (cb : option callback)
    (d : interpolated) (total : nat) (indices : list nat) (c : caches)
    (w : world) :
  cache_inv c → aligned d →
  Forall (λ i, (i < length (power d))%nat) indices →
  ∃ w' r,
    for_range (frame_body a out cb d total) indices c w = (w', r)
    ∧ open_writers w' = open_writers w
    ∧ length (prepared_frames a d indices c) = length indices
    ∧ match r with
      | inr c' =>
          cache_inv c'
          ∧ w' = fold_left (λ w f, wrote out f w) (written_frames a d indices c) w
      | inl e => from_callback e
      end.
Proof.
  intros Hinv Hal Hidx. revert c w Hinv.
  induction Hidx as [|i indices Hi Hidx IH]; intros c w Hinv.
  { exists w, (inr c). by repeat split. }
  destruct (frame_body_spec a out cb d total c i w Hinv Hal Hi)
    as (pr & Hpr & Hinv' & Hbody).
  simpl in Hbody. unfold written_frames. simpl. rewrite Hpr. simpl.
  unfold bind at 1.
  destruct Hbody as [->|[code ->]].
  - destruct (IH (pr_caches pr)
                (wrote out (animate a (pr_base pr) (pr_hr_text pr) (pr_hr_val pr) i) w)
                Hinv') as (w' & r & -> & How & Hlen & Hr).
    exists w', r. split; [done|]. split; [by rewrite How|].
    split; [by rewrite Hlen|]. done.
  - eexists _, _. split; [done|]. split; [done|]. split; [|done].
    f_equal.
    destruct (IH (pr_caches pr) w Hinv') as (_ & _ & _ & _ & Hlen & _). done.
Qed.

(** What [create_gauge_video] does to the sink, on every path.  The outcome
    is a normal return with the sink released, an exception of the progress
    callback with the sink still open, or an exception raised before the
    sink was opened, which leaves the world untouched. *)
Lemma create_gauge_video_paths (json_path output_path : string)
    (cb : option callback) (w : world) :
  ∃ w' r,
    create_gauge_video json_path output_path cb w = (w', r)
    ∧ match r with
      | inr _ => output_path ∉ open_writers w'
      | inl (CallbackError _) => output_path ∈ open_writers w'
      | inl (KeyError _) | inl IndexError => False
      | inl _ => w' = w
      end.
Proof.
  unfold create_gauge_video, bind, lift.
  destruct load_assets as [e|a] eqn:Ha.
  { unfold load_assets in Ha. destruct missing_asset as [[?|?]|]; [..|done];
      injection Ha as <-; by eexists _, _. }
  unfold read_json at 1.
  destruct (files w !! json_path) as [[tps| |]|]; try by eexists _, _.
  destruct (interpolate tps) as [e|d] eqn:Hd.
  { destruct tps as [|first rest].
    - injection Hd as <-. by eexists _, _.
    - destruct (interpolate_length (first :: rest)) as (d & Hd' & _); [done|].
      congruence. }
  assert (aligned d ∧ tps ≠ []) as [Hal Hne].
  { destruct tps as [|first rest]; [done|].
    destruct (interpolate_length (first :: rest)) as (d' & Hd' & _ & Hh & Hw);
      [done|].
    assert (d' = d) as -> by congruence. by split. }
  unfold open_writer at 1.
  destruct (writer_opens output_path); [|by eexists _, _].
  set (w1 := World _ _ _).
  destruct (for_range_spec a output_path cb d (length (power d))
              (seq 0 (length (power d))) empty_caches w1
              cache_inv_empty Hal) as (w' & r & -> & How & _ & Hr).
  { apply Forall_forall. intros i Hi%elem_of_seq. lia. }
  destruct r as [e|c'].
  - eexists _, _. split; [done|]. destruct e; try done.
    rewrite How. subst w1. simpl.
    apply elem_of_union_l. by apply elem_of_singleton.
  - eexists _, _. split; [done|]. simpl.
    rewrite elem_of_difference, elem_of_singleton. tauto.
Qed.

End render_loop_runs.

(** ** What ends up in the video file *)

Section output.
Context `{Config, Python, Pillow, OpenCV}.

Lemma fold_wrote_files (out : string) (frames fs0 : list raster) (w : world) :
  files w !! out = Some (VideoFile fs0) →
  files (fold_left (λ w f, wrote out f w) frames w) !! out
  = Some (VideoFile (fs0 ++ frames)).
Proof.
  revert fs0 w. induction frames as [|f frames IH]; intros fs0 w Hw; simpl.
  { by rewrite app_nil_r. }
  rewrite (IH (fs0 ++ [f])).
  - by rewrite <- app_assoc.
  - unfold wrote, writer_write, modify. simpl.
    by rewrite lookup_alter_eq, Hw.
Qed.

Lemma length_written_frames (a : assets) (d : interpolated)
    (indices : list nat) (c : caches) :
  length (prepared_frames a d indices c) = length indices →
  length (written_frames a d indices c) = length indices.
Proof. intros Hlen. unfold written_frames. rewrite length_zip_with. lia. Qed.

(** A run that returns has written to the output file exactly the frames of
    the loop, one per interpolated sample, each being the prepared base
    raster with the heart drawn on it. *)
Lemma create_gauge_video_output (json_path output_path : string)
    (cb : option callback) (w w' : world) :
  create_gauge_video json_path output_path cb w = (w', inr tt) →
  ∃ a trackpoints d,
    load_assets = inr a
    ∧ files w !! json_path = Some (JsonFile trackpoints)
    ∧ interpolate trackpoints = inr d
    ∧ files w' !! output_path
      = Some (VideoFile
                (written_frames a d (seq 0 (length (power d))) empty_caches))
    ∧ length (written_frames a d (seq 0 (length (power d))) empty_caches)
      = Z.to_nat (num_interpolated_of (duration_of trackpoints)).
Proof.
  unfold create_gauge_video, bind, lift.
  destruct load_assets as [e|a] eqn:Ha; [done|].
  unfold read_json at 1.
  destruct (files w !! json_path) as [[tps| |]|] eqn:Hjson; try done.
  destruct (interpolate tps) as [e|d] eqn:Hd; [done|].
  assert (aligned d ∧
          length (power d) = Z.to_nat (num_interpolated_of (duration_of tps)))
    as [Hal Hcount].
  { destruct tps as [|first rest]; [done|].
    destruct (interpolate_length (first :: rest)) as (d' & Hd' & Hn & Hh & Hw);
      [done|].
    assert (d' = d) as -> by congruence. by split. }
  unfold open_writer at 1.
  destruct (writer_opens output_path); [|done].
  set (w1 := World _ _ _).
  destruct (for_range_spec a output_path cb d (length (power d))
              (seq 0 (length (power d))) empty_caches w1
              cache_inv_empty Hal) as (w2 & r & -> & _ & Hlen & Hr).
  { apply Forall_forall. intros i Hi%elem_of_seq. lia. }
  destruct r as [e|c']; [done|]. destruct Hr as [_ ->].
  unfold writer_release, modify. intros [= <-].
  exists a, tps, d. repeat split; try done.
  - simpl. rewrite (fold_wrote_files _ _ []); [done|].
    subst w1. simpl. by rewrite lookup_insert_eq.
  - rewrite length_written_frames by done. by rewrite length_seq.
Qed.

End output.

(** ** The sink *)

Section sink.
Context `{Config, Python, Pillow, OpenCV}.

(** C4 (as amended). When [create_gauge_video] returns normally the sink has
    been released.  An exception raised inside the frame loop propagates
    with the sink still open: the loop runs under no handler, and the only
    release is the statement after the loop.  Any other exception was raised
    before the sink was opened and leaves the world as it was. *)
Theorem sink_released_on_return_only (json_path output_path : string)
    (cb : option callback) (w : world) :
  ∃ w' r,
    create_gauge_video json_path output_path cb w = (w', r)
    ∧ match r with
      | inr _ => output_path ∉ open_writers w'
      | inl e =>
          (from_callback e ∧ output_path ∈ open_writers w')
          ∨ (¬ from_callback e ∧ w' = w)
      end.
Proof.
  destruct (create_gauge_video_paths json_path output_path cb w)
    as (w' & r & Hrun & Hr).
  exists w', r. split; [done|].
  destruct r as [e|]; [|done].
  destruct e; simpl in *; try done;
    first [ left; by split | right; split; [tauto|done] ].
Qed.

End sink.

(** C4, counterexample.  Two points two seconds apart give 60 frames; the
    progress callback is called after the 60th and raises: the exception
    leaves [create_gauge_video] and the writer of "out.mp4" is still open. *)
Lemma sink_left_open :
  snd demo_run = inl (CallbackError 1)
  ∧ "out.mp4" ∈ open_writers (fst demo_run).
Proof.
  split; [vm_compute; reflexivity|].
  apply (bool_decide_unpack _). vm_compute. exact I.
Qed.

(** ** The cache invariant *)

Section cache_invariant.
Context `{Config, Python, Pillow, OpenCV}.

(** C10. Whenever a key is in the base-frame cache, the text of its heart
    rate is in the text cache: this holds of the empty caches and every
    iteration keeps it, so the lookup on the cache-hit path succeeds, and
    video generation never raises [KeyError], whatever the frames are. *)
Theorem heart_text_lookup_never_fails :
  cache_inv empty_caches
  ∧ (∀ a c power_val hr_val w_per_kg_val,
       cache_inv c →
       ∃ c' frame_cv hr_text_pil,
         render_base a c power_val hr_val w_per_kg_val
         = inr (c', frame_cv, hr_text_pil)
         ∧ text_cache c' !! hr_text_str hr_val = Some hr_text_pil
         ∧ cache_inv c')
  ∧ (∀ json_path output_path cb w key,
       snd (create_gauge_video json_path output_path cb w) ≠ inl (KeyError key)).
Proof.
  split; [apply cache_inv_empty|]. split.
  - intros a c p h wkg Hinv.
    destruct (render_base_spec a c p h wkg Hinv)
      as (c' & frame & txt & Hr & _ & _ & _ & Htxt & Hinv').
    by exists c', frame, txt.
  - intros json_path output_path cb w key.
    destruct (create_gauge_video_paths json_path output_path cb w)
      as (w' & r & -> & Hr).
    simpl. intros ->. done.
Qed.

End cache_invariant.


(** ** The heart animation *)

Section heart.
Context `{Config, Python, Pillow, OpenCV}.

(** At 0 bpm the scale factor is the same for all frames. *)
Lemma scale_factor_at_rest (i j : nat) : scale_factor 0 i = scale_factor 0 j.
Proof.
  unfold scale_factor.
  replace (2 * PI * (0 / 60) * (INR i / IZR VIDEO_FPS))%R with 0%R
    by (unfold Rdiv; ring).
  replace (2 * PI * (0 / 60) * (INR j / IZR VIDEO_FPS))%R with 0%R
    by (unfold Rdiv; ring).
  done.
Qed.

(** The heart overlay depends on the frame index through the scale factor
    only. *)
Lemma heart_overlay_scale (a : assets) (txt : image) (hr_val hr_val' : Z)
    (i j : nat) :
  scale_factor hr_val i = scale_factor hr_val' j →
  heart_overlay a txt hr_val i = heart_overlay a txt hr_val' j.
Proof.
  intros Hs. unfold heart_overlay, beating_heart. by rewrite Hs.
Qed.

End heart.

(** ** Frames that share a cache key *)

Section shared_base.
Context `{Config, Python, Pillow, OpenCV}.

(** Once a key is cached, every later iteration with that key gets the
    cached base raster and the cached heart-rate text. *)
Lemma later_hits (a : assets) (d : interpolated) (indices : list nat)
    (c : caches) (p h : Z) (frame : raster) (txt : image) (k : nat)
    (pr : prepared) :
  cache_inv c →
  base_frame_cache c !! key_of p h = Some frame →
  text_cache c !! hr_text_str h = Some txt →
  prepared_frames a d indices c !! k = Some pr →
  pr_power_val pr = p → pr_hr_val pr = h →
  pr_base pr = frame ∧ pr_hr_text pr = txt.
Proof.
  revert c k. induction indices as [|i indices IH]; intros c k Hinv Hb Ht;
    simpl; [done|].
  destruct (prepare a d c i) as [|pr0] eqn:Hpr0; [done|].
  destruct (prepare_ok a d c i pr0 Hinv Hpr0) as (Hst & Hsb & Hb0 & Ht0 & Hinv0).
  destruct k as [|k]; simpl.
  - intros [= ->] Hp Hh. rewrite Hp, Hh in *.
    rewrite (lookup_weaken _ _ _ _ Hb Hsb) in Hb0.
    rewrite (lookup_weaken _ _ _ _ Ht Hst) in Ht0.
    split; congruence.
  - apply IH; [done|..].
    + by apply (lookup_weaken _ _ _ _ Hb Hsb).
    + by apply (lookup_weaken _ _ _ _ Ht Hst).
Qed.

Lemma same_key_ordered (a : assets) (d : interpolated) (indices : list nat)
    (c : caches) (k1 k2 : nat) (p1 p2 : prepared) :
  cache_inv c → (k1 ≤ k2)%nat →
  prepared_frames a d indices c !! k1 = Some p1 →
  prepared_frames a d indices c !! k2 = Some p2 →
  pr_power_val p1 = pr_power_val p2 → pr_hr_val p1 = pr_hr_val p2 →
  pr_base p1 = pr_base p2 ∧ pr_hr_text p1 = pr_hr_text p2.
Proof.
  revert c k1 k2. induction indices as [|i indices IH]; intros c k1 k2 Hinv Hle;
    simpl; [done|].
  destruct (prepare a d c i) as [|pr0] eqn:Hpr0; [done|].
  destruct (prepare_ok a d c i pr0 Hinv Hpr0) as (Hst & Hsb & Hb0 & Ht0 & Hinv0).
  destruct k1 as [|k1]; simpl.
  - intros [= ->]. destruct k2 as [|k2]; simpl.
    + by intros [= ->].
    + intros Hp2 Hp Hh.
      assert (pr_base p2 = pr_base p1 ∧ pr_hr_text p2 = pr_hr_text p1) as [-> ->];
        [|done].
      by eapply (later_hits a d indices (pr_caches p1)).
  - destruct k2 as [|k2]; [lia|]. simpl. apply IH; [done|lia].
Qed.

(** C5 (as amended). Two frames of one run whose cache keys are equal have
    identical base rasters before the heart is drawn, and the same
    heart-rate text image.  The heart overlay depends on the frame index
    through the scale factor only: it is the same for both frames whenever
    their scale factors are equal, which for a heart rate of 0 is the case
    for all pairs of frames. *)
Theorem equal_keys_share_base (a : assets) (d : interpolated) (n i j : nat)
    (pi pj : prepared) :
  let frames := prepared_frames a d (seq 0 n) empty_caches in
  frames !! i = Some pi → frames !! j = Some pj →
  key_of (pr_power_val pi) (pr_hr_val pi)
  = key_of (pr_power_val pj) (pr_hr_val pj) →
  pr_base pi = pr_base pj
  ∧ pr_hr_text pi = pr_hr_text pj
  ∧ (scale_factor (pr_hr_val pi) i = scale_factor (pr_hr_val pj) j →
     heart_overlay a (pr_hr_text pi) (pr_hr_val pi) i
     = heart_overlay a (pr_hr_text pj) (pr_hr_val pj) j
     ∧ animate a (pr_base pi) (pr_hr_text pi) (pr_hr_val pi) i
       = animate a (pr_base pj) (pr_hr_text pj) (pr_hr_val pj) j)
  ∧ (pr_hr_val pi = 0 →
     heart_overlay a (pr_hr_text pi) (pr_hr_val pi) i
     = heart_overlay a (pr_hr_text pj) (pr_hr_val pj) j).
Proof.
  intros frames Hi Hj [Hp Hh]%key_of_inj.
  assert (pr_base pi = pr_base pj ∧ pr_hr_text pi = pr_hr_text pj) as [Hb Ht].
  { destruct (Nat.le_ge_cases i j) as [Hle|Hle].
    - by eapply (same_key_ordered a d (seq 0 n) empty_caches i j);
        [apply cache_inv_empty|..].
    - assert (pr_base pj = pr_base pi ∧ pr_hr_text pj = pr_hr_text pi)
        as [-> ->]; [|done].
      by eapply (same_key_ordered a d (seq 0 n) empty_caches j i);
        [apply cache_inv_empty|..]. }
  split; [done|]. split; [done|]. rewrite Ht. split.
  - intros Hs.
    pose proof (heart_overlay_scale a (pr_hr_text pj) _ _ i j Hs) as Ho.
    split; [done|]. unfold animate. by rewrite Hb, Ho.
  - intros Hrest. apply heart_overlay_scale. rewrite <- Hh, Hrest.
    apply scale_factor_at_rest.
Qed.

End shared_base.

Lemma equal_keys_share_base_witness :
  pr_base (demo_frame 0) = pr_base (demo_frame 1)
  ∧ pr_hr_text (demo_frame 0) = pr_hr_text (demo_frame 1).
Proof.
  pose proof (@equal_keys_share_base MASTER_CONFIGURATION demo_python
                demo_pillow demo_assets demo_data 2 0 1
                (demo_frame 0) (demo_frame 1)) as Hshare.
  destruct Hshare as (Hb & Ht & _); [vm_compute; reflexivity..|].
  by split.
Defined.

(** C5, counterexample.  The first two frames of a run at rest (power 0,
    heart rate 0) have different indices and the same key, and their heart
    overlays are identical. *)
Lemma heart_overlay_repeats :
  (0 ≠ 1)%nat
  ∧ key_of (pr_power_val (demo_frame 0)) (pr_hr_val (demo_frame 0))
    = key_of (pr_power_val (demo_frame 1)) (pr_hr_val (demo_frame 1))
  ∧ @heart_overlay MASTER_CONFIGURATION demo_assets
      (pr_hr_text (demo_frame 0)) (pr_hr_val (demo_frame 0)) 0
    = @heart_overlay MASTER_CONFIGURATION demo_assets
        (pr_hr_text (demo_frame 1)) (pr_hr_val (demo_frame 1)) 1.
Proof.
  split; [done|]. split; [vm_compute; reflexivity|].
  assert (pr_hr_text (demo_frame 1) = pr_hr_text (demo_frame 0)) as ->
    by (vm_compute; reflexivity).
  assert (pr_hr_val (demo_frame 1) = 0) as -> by (vm_compute; reflexivity).
  assert (pr_hr_val (demo_frame 0) = 0) as -> by (vm_compute; reflexivity).
  apply heart_overlay_scale, scale_factor_at_rest.
Qed.

(** ** The transient artifact *)

Section orchestration.
Context `{Config, Python, Pillow, OpenCV}.

Lemma cleanup_spec (temp_json_path : string) (w : world) :
  ∃ w', cleanup temp_json_path w = (w', inr tt)
        ∧ files w' = delete temp_json_path (files w).
Proof.
  unfold cleanup. destruct (files w !! temp_json_path) eqn:Hf.
  - by eexists.
  - exists w. split; [done|]. by rewrite delete_id.
Qed.

Lemma try_finally_cleanup {A} (body : M A) (temp_json_path : string) (w : world) :
  ∃ w', try_finally body (cleanup temp_json_path) w = (w', snd (body w))
        ∧ files w' = delete temp_json_path (files (fst (body w))).
Proof.
  unfold try_finally. destruct (body w) as [w1 r]. simpl.
  destruct (cleanup_spec temp_json_path w1) as (w2 & -> & Hf). by exists w2.
Qed.

(** C9. On every exit of the orchestrated generation, normal or by an
    exception of the slicing, of the generator or of the callback, the
    sliced-data file does not exist when control returns to the caller. *)
Theorem temp_json_removed (tcx_data : list trackpoint)
    (start_time end_time : datetime) (output_path : string)
    (progress_callback : callback) (w : world) :
  ∃ w' r,
    orchestrate_video_generation tcx_data start_time end_time output_path
      progress_callback w = (w', r)
    ∧ files w' !! temp_json_path_of output_path = None.
Proof.
  unfold orchestrate_video_generation.
  match goal with |- context [try_finally ?b _ _] => set (body := b) end.
  destruct (try_finally_cleanup body (temp_json_path_of output_path) w)
    as (w' & -> & Hf).
  exists w', (snd (body w)). split; [done|].
  rewrite Hf. apply lookup_delete_eq.
Qed.

End orchestration.

(** The generation succeeds: the video exists and the sliced data is gone. *)
Example orchestration_succeeds :
  snd (demo_orchestration (λ _ _, None)) = inr "videos/out.mp4"
  ∧ files (fst (demo_orchestration (λ _ _, None)))
      !! "temp_sliced_data_out.mp4.json" = None
  ∧ is_Some (files (fst (demo_orchestration (λ _ _, None))) !! "videos/out.mp4").
Proof.
  split; [vm_compute; reflexivity|]. split; [vm_compute; reflexivity|].
  apply (bool_decide_unpack _). vm_compute. exact I.
Qed.

(** The callback raises in the frame loop, after the sliced data was
    written: the exception reaches the caller and the sliced data is gone. *)
Example orchestration_fails_in_loop :
  snd (demo_orchestration callback_failing_at_95) = inl (CallbackError 7)
  ∧ files (fst (demo_orchestration callback_failing_at_95))
      !! "temp_sliced_data_out.mp4.json" = None.
Proof. split; vm_compute; reflexivity. Qed.

(** * Further properties *)

(** ** The builder: order, times and failure *)

Section builder_more.
Context `{Python}.

(** X1. A series that is returned holds the surviving samples in input
    order, each with its parsed time; its start and end times are the times
    of its first and last point, shown in the local zone. *)
Theorem builder_keeps_order (nodes : list tp_node) (w w' : world)
    (data : tcx_data) :
  parse_tcx_file (Tree nodes) w = (w', inr data) →
  tp_time <$> trackpoints data = surviving_times nodes
  ∧ (∃ t, head (surviving_times nodes) = Some t
          ∧ start_time data = Aware t (utcoffset_at t))
  ∧ (∃ t, last (surviving_times nodes) = Some t
          ∧ end_time data = Aware t (utcoffset_at t)).
Proof.
  intros (first & tps & _ & _ & Ht & Hne & -> & ->)%parse_tcx_file_ok.
  rewrite <- Ht. split; [done|]. split.
  - exists (tp_time (List.hd first (trackpoints data))). split; [|done].
    by destruct (trackpoints data).
  - exists (tp_time (List.last (trackpoints data) first)). split; [|done].
    by rewrite fmap_last, (last_last first).
Qed.

(** X2. The builder returns a series exactly when at least one sample
    survives, every surviving sample has numeric fields that convert, and
    the times of the first and of the last surviving sample can be shown in
    the local zone; the fields of a skipped sample are never looked at. *)
Theorem builder_succeeds_iff (nodes : list tp_node) (w : world) :
  (∃ w' data, parse_tcx_file (Tree nodes) w = (w', inr data))
  ↔ (∃ tp, tp ∈ nodes ∧ survives tp = true)
    ∧ (∀ tp, tp ∈ nodes → survives tp = true → convertible tp)
    ∧ (∃ first last,
         head (surviving_times nodes) = Some first
         ∧ List.last (surviving_times nodes) first = last
         ∧ localtime_error first = None
         ∧ datetime_min ≤ first + utcoffset_at first ≤ datetime_max
         ∧ localtime_error last = None
         ∧ datetime_min ≤ last + utcoffset_at last ≤ datetime_max).
Proof.
  rewrite parse_tcx_file_returns. split.
  - intros (Hsome & Hconv & Hfirst & Hlast). do 2 (split; [done|]).
    destruct Hsome as (tp & Hin & Hs).
    assert (surviving_times nodes ≠ []) as Hne.
    { apply parsed_time_survives in Hs as [t Ht]. intros Hnil.
      assert (t ∈ surviving_times nodes) as Hel.
      { unfold surviving_times. apply list_elem_of_omap. by exists tp. }
      rewrite Hnil in Hel. by apply elem_of_nil in Hel. }
    destruct (surviving_times nodes) as [|first rest] eqn:Hst; [done|].
    exists first, (List.last (first :: rest) first).
    destruct (Hfirst first eq_refl) as [? ?].
    destruct (Hlast (List.last (first :: rest) first)) as [? ?].
    { by apply last_last. }
    repeat split; first [done|tauto].
  - intros (Hsome & Hconv & first & last & Hhead & Hl & ? & ? & ? & ?).
    do 2 (split; [done|]). split.
    + intros t Ht. rewrite Hhead in Ht. injection Ht as <-. by split.
    + intros t Ht.
      assert (surviving_times nodes ≠ []) as Hne
        by (intros E; by rewrite E in Hhead).
      rewrite (last_last first) in Ht by done. injection Ht as <-.
      rewrite Hl. by split.
Qed.

End builder_more.

Lemma builder_keeps_order_witness :
  tp_time <$> trackpoints demo_tcx_data = [1704103200000000; 1704103201000000].
Proof.
  destruct (@builder_keeps_order demo_python raw_samples (World ∅ ∅ [])
              (fst demo_parse) demo_tcx_data) as [Ht _];
    [vm_compute; reflexivity|].
  exact Ht.
Defined.

(** ** Speeds and windows *)

Section speeds_more.

Lemma set_speed_distance v tp : tp_distance (set_speed v tp) = tp_distance tp.
Proof. done. Qed.

(** X3. When the distance readings never decrease from one point to the
    next, no derived speed is negative. *)
Theorem speeds_nonnegative (tps : list trackpoint) :
  (∀ i prev cur d_prev d,
     tps !! i = Some prev → tps !! S i = Some cur →
     tp_distance prev = Some d_prev → tp_distance cur = Some d →
     (d_prev <= d)%Q) →
  ∀ i tp v,
    compute_speeds tps !! i = Some tp → tp_speed tp = Some v → (0 <= v)%Q.
Proof.
  intros Hmono.
  destruct (speed_inv_fold tps (length tps) (le_n _))
    as (Hlen & _ & Hdone & Hfirst & Hrule).
  fold (compute_speeds tps) in *. set (out := compute_speeds tps) in *.
  assert (∀ i tp, out !! i = Some tp →
            ∃ tp0, tps !! i = Some tp0 ∧ tp_distance tp0 = tp_distance tp)
    as Horig.
  { intros i tp Htp.
    destruct (lookup_lt_is_Some_2 tps i) as [tp0 Htp0].
    { rewrite <- Hlen. by eapply lookup_lt_Some. }
    destruct (Hdone i tp0 (lookup_lt_Some _ _ _ Htp0) Htp0) as [v Hv].
    exists tp0. split; [done|]. rewrite Htp in Hv. by injection Hv as ->. }
  induction i as [|i IH]; intros tp v Htp Hv.
  - rewrite (Hfirst tp) in Hv; [|apply lookup_lt_Some in Htp; lia|done].
    by injection Hv as <-.
  - destruct (lookup_lt_is_Some_2 out i) as [prev Hprev].
    { apply lookup_lt_Some in Htp. lia. }
    pose proof (Hrule i prev tp) as Hr. unfold speed_rule in Hr.
    destruct (Horig _ _ Hprev) as (prev0 & Hprev0 & Hdp).
    destruct (Horig _ _ Htp) as (tp0 & Htp0 & Hd).
    specialize (Hr ltac:(apply lookup_lt_Some in Htp; lia) Hprev Htp).
    destruct (tp_distance tp) as [d|] eqn:Hdist;
      [destruct (tp_distance prev) as [d_prev|] eqn:Hdistp|].
    + destruct (Qltb 0 (time_delta tp prev)) eqn:Hpos.
      * rewrite Hr in Hv. injection Hv as <-.
        apply Qltb_true in Hpos.
        pose proof (Hmono i prev0 tp0 d_prev d Hprev0 Htp0 Hdp Hd) as Hle.
        apply Qle_shift_div_l; [done|]. rewrite Qmult_0_l.
        unfold Qminus. rewrite <- Qle_minus_iff. done.
      * rewrite Hr in Hv. destruct (tp_speed prev) as [vp|] eqn:Hvp; [|done].
        injection Hv as <-. by eapply IH.
    + rewrite Hr in Hv. by injection Hv as <-.
    + rewrite Hr in Hv. by injection Hv as <-.
Qed.

End speeds_more.

Lemma speeds_nonnegative_witness : (0 <= 5 / total_seconds 1000000)%Q.
Proof.
  apply (speeds_nonnegative three_points) with (i := 1%nat)
    (tp := Trackpoint 1000000 100 120 80 (Some 5%Q)
             (Some (5 / total_seconds 1000000)%Q)).
  - intros [|[|[|i]]] prev cur d_prev d Hp Hc Hdp Hd;
      vm_compute in Hp, Hc; try discriminate;
      injection Hp as <-; injection Hc as <-;
      vm_compute in Hdp, Hd; try discriminate;
      injection Hdp as <-; injection Hd as <-; vm_compute; discriminate.
  - reflexivity.
  - reflexivity.
Defined.

Section windows_more.
Context `{gauge_generator.Config, Python}.

Lemma slice_loop_filter (start_time end_time : datetime)
    (tps : list trackpoint) :
  slice_loop (to_utc start_time) (to_utc end_time) tps
  = data_point_of <$> filter (in_window start_time end_time) tps.
Proof. unfold slice_loop. by rewrite slice_loop_acc, !to_utc_instant. Qed.

Lemma filter_all {A} (P : A → Prop) `{!∀ x, Decision (P x)} (l : list A) :
  (∀ x, x ∈ l → P x) → filter P l = l.
Proof.
  induction l as [|x l IH]; [done|]. intros Hall.
  rewrite filter_cons, decide_True by (apply Hall; left).
  rewrite IH; [done|]. intros y Hy. apply Hall. by right.
Qed.

Lemma filter_none {A} (P : A → Prop) `{!∀ x, Decision (P x)} (l : list A) :
  (∀ x, x ∈ l → ¬ P x) → filter P l = [].
Proof.
  induction l as [|x l IH]; [done|]. intros Hall.
  rewrite filter_cons, decide_False by (apply Hall; left).
  apply IH. intros y Hy. apply Hall. by right.
Qed.

Lemma filter_sublist_impl {A} (P Q : A → Prop) `{!∀ x, Decision (P x)}
    `{!∀ x, Decision (Q x)} (l : list A) :
  (∀ x, P x → Q x) → filter P l `sublist_of` filter Q l.
Proof.
  intros Himpl. induction l as [|x l IH]; [done|].
  rewrite !filter_cons. destruct (decide (P x)) as [HP|HP].
  - rewrite decide_True by auto. by apply sublist_skip.
  - destruct (decide (Q x)); [by apply sublist_cons|done].
Qed.

Lemma sorted_head_le (x : Z) (l : list Z) (y : Z) :
  StronglySorted Z.le (x :: l) → y ∈ x :: l → x ≤ y.
Proof.
  intros Hs [->|Hin]%elem_of_cons; [lia|].
  apply StronglySorted_inv in Hs as [_ Hall].
  by apply (proj1 (Forall_forall _ _) Hall).
Qed.

Lemma sorted_le_last (l : list Z) (y z : Z) :
  StronglySorted Z.le l → y ∈ l → last l = Some z → y ≤ z.
Proof.
  induction l as [|x l IH]; [by intros _ ?%elem_of_nil|].
  intros Hs Hin Hlast. destruct l as [|x' l].
  - apply list_elem_of_singleton in Hin as ->. injection Hlast as ->. lia.
  - change (last (x :: x' :: l)) with (last (x' :: l)) in Hlast.
    pose proof Hs as [Hs' Hall]%StronglySorted_inv.
    apply elem_of_cons in Hin as [->|Hin]; [|by apply IH].
    assert (z ∈ x' :: l) as Hz by by apply last_Some_elem_of.
    by apply (proj1 (Forall_forall _ _) Hall).
Qed.

(** X4. When the timestamps of the surviving samples are in non-decreasing
    order, slicing a parsed series with the start and end times that the
    parser returned selects every point of it. *)
Theorem default_window_selects_all (nodes : list tp_node) (w w' : world)
    (data : tcx_data) :
  parse_tcx_file (Tree nodes) w = (w', inr data) →
  StronglySorted Z.le (surviving_times nodes) →
  slice_loop (to_utc (start_time data)) (to_utc (end_time data))
    (trackpoints data)
  = data_point_of <$> trackpoints data.
Proof.
  intros (first & tps & _ & _ & Ht & Hne & Hstart & Hend)%parse_tcx_file_ok Hs.
  rewrite slice_loop_filter. f_equal. apply filter_all.
  intros tp Hin. unfold in_window. rewrite Hstart, Hend. simpl.
  rewrite <- Ht in Hs.
  assert (tp_time tp ∈ tp_time <$> trackpoints data) as Hin'
    by by apply list_elem_of_fmap_2.
  split.
  - destruct (trackpoints data) as [|tp0 l]; [done|]. simpl in *.
    by apply (sorted_head_le _ (tp_time <$> l)).
  - apply (sorted_le_last (tp_time <$> trackpoints data)); [done..|].
    by rewrite fmap_last, (last_last first).
Qed.

(** X5. A window whose end lies before its start selects nothing, whatever
    the series; and a window contained in another selects a sub-sequence of
    what the other selects. *)
Theorem slicing_by_windows (tps : list trackpoint) :
  (∀ start_time end_time,
     utc_instant_of end_time < utc_instant_of start_time →
     slice_loop (to_utc start_time) (to_utc end_time) tps = [])
  ∧ (∀ start_outer end_outer start_inner end_inner,
       utc_instant_of start_outer ≤ utc_instant_of start_inner →
       utc_instant_of end_inner ≤ utc_instant_of end_outer →
       slice_loop (to_utc start_inner) (to_utc end_inner) tps
       `sublist_of` slice_loop (to_utc start_outer) (to_utc end_outer) tps).
Proof.
  split.
  - intros s e Hlt. rewrite slice_loop_filter, filter_none; [done|].
    intros tp _. unfold in_window. lia.
  - intros so eo si ei Hs He. rewrite !slice_loop_filter.
    apply fmap_sublist, filter_sublist_impl.
    intros tp. unfold in_window. lia.
Qed.

Lemma py_int_mono (x y : Q) : (0 <= x)%Q → (x <= y)%Q → py_int x ≤ py_int y.
Proof.
  intros Hx Hxy. rewrite !py_int_nonneg; [by apply Qfloor_resp_le|..]; [|done].
  by apply Qle_trans with x.
Qed.

(** The frame count does not decrease with the span, at a frame rate that
    is not negative. *)
Lemma num_interpolated_mono (us1 us2 : Z) :
  0 ≤ VIDEO_FPS → us1 ≤ us2 →
  num_interpolated_of (total_seconds us1)
  ≤ Z.max 1 (num_interpolated_of (total_seconds us2)).
Proof.
  intros Hfps Hus. unfold num_interpolated_of.
  destruct (Qltb 0 (total_seconds us1)) eqn:Hpos1; [|lia].
  apply Qltb_true in Hpos1.
  assert (0 < inject_Z us1 / inject_Z 1000000)%Q as Hq1.
  { destruct (Qlt_le_dec 0 (inject_Z us1 / inject_Z 1000000)) as [|Hle]; [done|].
    apply binary64_nonpos in Hle. unfold total_seconds, int_truediv in Hpos1.
    exfalso. apply (Qlt_not_le _ _ Hpos1 Hle). }
  assert (inject_Z us1 / inject_Z 1000000 <= inject_Z us2 / inject_Z 1000000)%Q
    as Hq.
  { apply Qmult_le_compat_r; [by rewrite <- Zle_Qle|done]. }
  assert (total_seconds us1 <= total_seconds us2)%Q as Hts.
  { apply binary64_mono; [by apply Qlt_le_weak|done]. }
  assert (Qltb 0 (total_seconds us2) = true) as ->.
  { apply Qltb_true. by apply Qlt_le_trans with (total_seconds us1). }
  assert (0 <= float_of_int VIDEO_FPS)%Q as Hf.
  { apply binary64_nonneg. change 0%Q with (inject_Z 0). by rewrite <- Zle_Qle. }
  etrans; [|apply Z.le_max_r]. apply py_int_mono.
  - apply binary64_nonneg.
    apply Qmult_le_0_compat; [by apply Qlt_le_weak|done].
  - apply binary64_mono.
    + apply Qmult_le_0_compat; [by apply Qlt_le_weak|done].
    + by apply Qmult_le_compat_r.
Qed.

(** X6. The video is never longer than the requested window: the number of
    frames resampled from a slice is at most the number of frames the
    generator computes for a span as long as the window, or one. *)
Theorem frames_bounded_by_window (tps : list trackpoint)
    (start_time end_time : datetime) (d : interpolated) :
  0 ≤ VIDEO_FPS →
  interpolate (slice_loop (to_utc start_time) (to_utc end_time) tps) = inr d →
  Z.of_nat (length (power d))
  ≤ Z.max 1 (num_interpolated_of
               (total_seconds
                  (utc_instant_of end_time - utc_instant_of start_time))).
Proof.
  intros Hfps Hd.
  set (sliced := slice_loop _ _ tps) in *.
  destruct sliced as [|first rest] eqn:Hsl; [done|].
  destruct (interpolate_length (first :: rest)) as (d' & Hd' & Hlen & _);
    [done|].
  assert (d' = d) as -> by congruence. rewrite Hlen.
  assert (∀ p, p ∈ first :: rest →
            utc_instant_of start_time ≤ j_time p ≤ utc_instant_of end_time)
    as Hwin.
  { intros p Hp. rewrite <- Hsl in Hp. subst sliced.
    rewrite slice_loop_filter in Hp.
    apply list_elem_of_fmap in Hp as (tp & -> & Htp).
    by apply list_elem_of_filter in Htp as [Htp _]. }
  assert (j_time (List.last (first :: rest) first) - j_time first
          ≤ utc_instant_of end_time - utc_instant_of start_time) as Hspan.
  { pose proof (Hwin first ltac:(left)) as Hf.
    assert (List.last (first :: rest) first ∈ first :: rest) as Hl.
    { apply last_Some_elem_of. by apply last_last. }
    apply Hwin in Hl. lia. }
  unfold duration_of.
  pose proof (num_interpolated_mono _ _ Hfps Hspan). lia.
Qed.

End windows_more.

Lemma default_window_selects_all_witness :
  slice_loop (@to_utc demo_python (start_time demo_tcx_data))
    (@to_utc demo_python (end_time demo_tcx_data)) (trackpoints demo_tcx_data)
  = data_point_of <$> trackpoints demo_tcx_data.
Proof.
  apply (@default_window_selects_all demo_python raw_samples (World ∅ ∅ [])
           (fst demo_parse) demo_tcx_data).
  - vm_compute. reflexivity.
  - assert (@surviving_times demo_python raw_samples
            = [1704103200000000; 1704103201000000]) as ->
      by (vm_compute; reflexivity).
    repeat constructor. lia.
Defined.

Lemma frames_bounded_by_window_witness :
  Z.of_nat (length (power demo_data))
  ≤ Z.max 1 (@num_interpolated_of MASTER_CONFIGURATION
               (total_seconds
                  (@utc_instant_of demo_python (Naive 3602000000)
                   - @utc_instant_of demo_python (Aware 0 0)))).
Proof.
  apply (@frames_bounded_by_window MASTER_CONFIGURATION demo_python
           demo_trackpoints (Aware 0 0) (Naive 3602000000) demo_data).
  - vm_compute. discriminate.
  - vm_compute. reflexivity.
Defined.

(** The bound is the generator's own count and not the whole number of
    frames in the window: over 60311874548.333333 s the double product
    rounds up to 1809356236450, one more than the 1809356236449 whole frames
    that fit. *)
Example frame_count_above_exact_floor :
  @num_interpolated_of MASTER_CONFIGURATION (total_seconds 60311874548333333)
  = 1809356236450
  ∧ Qfloor ((60311874548333333 # 1000000) * 30) = 1809356236449.
Proof. split; vm_compute; reflexivity. Qed.

(** ** The name of the transient file *)

Section paths.

Lemma length_app (s t : string) :
  String.length (s +:+ t) = (String.length s + String.length t)%nat.
Proof.
  induction s as [|c s IH]; [done|]. rewrite app_cons. simpl. by rewrite IH.
Qed.

Lemma app_inv_tail (a b s : string) : a +:+ s = b +:+ s → a = b.
Proof.
  revert b. induction a as [|c a IH]; intros [|c' b];
    rewrite ?app_cons, ?app_empty_l.
  - done.
  - intros Heq. apply (f_equal String.length) in Heq.
    simpl in Heq. rewrite length_app in Heq. lia.
  - intros Heq. apply (f_equal String.length) in Heq.
    simpl in Heq. rewrite length_app in Heq. lia.
  - intros [= -> Heq]. by rewrite (IH b).
Qed.

Lemma has_slash_app (s t : string) :
  has_slash (s +:+ t) = has_slash s || has_slash t.
Proof.
  induction s as [|c s IH]; [done|].
  rewrite app_cons. simpl. by rewrite IH, orb_assoc.
Qed.

Lemma basename_from_app (p1 p2 acc : string) :
  basename_from (p1 +:+ p2) acc = basename_from p2 (basename_from p1 acc).
Proof.
  revert acc. induction p1 as [|c p1 IH]; intros acc; [done|].
  rewrite app_cons. simpl. destruct (Ascii.eqb c "/"); apply IH.
Qed.

Lemma basename_from_no_slash (path acc : string) :
  has_slash path = false → basename_from path acc = acc +:+ path.
Proof.
  revert acc. induction path as [|c path IH]; intros acc; simpl.
  { by rewrite app_empty_r. }
  intros [Hc Hp]%orb_false_elim. rewrite Hc, IH by done.
  by rewrite string_app_assoc, app_cons, app_empty_l.
Qed.

Lemma basename_from_has_no_slash (path acc : string) :
  has_slash acc = false → has_slash (basename_from path acc) = false.
Proof.
  revert acc. induction path as [|c path IH]; intros acc Hacc; simpl; [done|].
  destruct (Ascii.eqb c "/") eqn:Hc; [by apply IH|].
  apply IH. rewrite has_slash_app, Hacc. simpl. by rewrite Hc.
Qed.

Lemma basename_has_no_slash (path : string) : has_slash (basename path) = false.
Proof. by apply basename_from_has_no_slash. Qed.

Lemma temp_json_path_has_no_slash (output_path : string) :
  has_slash (temp_json_path_of output_path) = false.
Proof.
  unfold temp_json_path_of.
  by rewrite !has_slash_app, basename_has_no_slash.
Qed.

Lemma temp_json_path_differs (output_path : string) :
  temp_json_path_of output_path ≠ output_path.
Proof.
  intros Heq.
  assert (basename (temp_json_path_of output_path) = temp_json_path_of output_path)
    as Hb.
  { unfold basename. rewrite basename_from_no_slash, app_empty_l; [done|].
    apply temp_json_path_has_no_slash. }
  rewrite Heq in Hb at 1. unfold temp_json_path_of in Hb.
  apply (f_equal String.length) in Hb. rewrite !length_app in Hb.
  simpl in Hb. lia.
Qed.

(** X7. The transient file is named after the output file's base name only:
    it sits in the working directory, it is never the output file itself,
    and two output paths get the same transient file exactly when they have
    the same base name, whatever their directories. *)
Theorem temp_json_path_naming (output_path : string) :
  has_slash (temp_json_path_of output_path) = false
  ∧ temp_json_path_of output_path ≠ output_path
  ∧ (∀ other,
       temp_json_path_of output_path = temp_json_path_of other
       ↔ basename output_path = basename other)
  ∧ (∀ dir name,
       has_slash name = false →
       temp_json_path_of (dir +:+ "/" +:+ name)
       = "temp_sliced_data_" +:+ name +:+ ".json").
Proof.
  split; [apply temp_json_path_has_no_slash|].
  split; [apply temp_json_path_differs|]. split.
  - intros other. unfold temp_json_path_of. split.
    + intros Heq%(inj (String.app _)).
      by apply app_inv_tail in Heq.
    + by intros ->.
  - intros dir name Hname. unfold temp_json_path_of. do 2 f_equal.
    unfold basename. rewrite basename_from_app.
    change ("/" +:+ name) with (String "/" name). simpl.
    by rewrite basename_from_no_slash, app_empty_l.
Qed.

End paths.

(** ** The size of the beating heart *)

Section heart_more.
Context `{Config, Python, Pillow, OpenCV}.

Lemma py_int_R_floor (x : R) :
  (0 <= x)%R → (IZR (py_int_R x) <= x < IZR (py_int_R x) + 1)%R.
Proof.
  intros Hx. unfold py_int_R. destruct (Rle_dec 0 x); [|done].
  destruct (base_Int_part x). lra.
Qed.

Lemma scale_factor_bounds (hr_val : Z) (i : nat) :
  (0 <= HEART_ANIMATION_STRENGTH)%Q →
  (1 <= scale_factor hr_val i <= 1 + Q2R HEART_ANIMATION_STRENGTH)%R.
Proof.
  intros Hs%Qle_Rle. rewrite RMicromega.Q2R_0 in Hs. unfold scale_factor.
  set (x := (2 * PI * _ * _)%R). destruct (SIN_bound x). nra.
Qed.

Lemma scaled_size_bounds (w hr_val : Z) (i : nat) :
  (0 <= HEART_ANIMATION_STRENGTH)%Q → 0 ≤ w →
  w ≤ py_int_R (IZR w * scale_factor hr_val i)
  ∧ (IZR (py_int_R (IZR w * scale_factor hr_val i))
     <= IZR w * (1 + Q2R HEART_ANIMATION_STRENGTH))%R.
Proof.
  intros Hs Hw. destruct (scale_factor_bounds hr_val i Hs) as [Hlo Hhi].
  apply IZR_le in Hw.
  destruct (py_int_R_floor (IZR w * scale_factor hr_val i)) as [Hfl Hce];
    [nra|].
  split; [|nra].
  apply Z.lt_succ_r, lt_IZR. rewrite succ_IZR. nra.
Qed.

(** X8. With a non-negative animation strength the scale factor stays
    between 1 and 1 + strength, so the beating heart is never smaller than
    the heart icon and never larger than the icon enlarged by the strength,
    in width and in height, for every heart rate and frame. *)
Theorem beating_heart_size (a : assets) (hr_val : Z) (i : nat) :
  (0 <= HEART_ANIMATION_STRENGTH)%Q →
  0 ≤ width (HEART_ICON a) → 0 ≤ height (HEART_ICON a) →
  (1 <= scale_factor hr_val i <= 1 + Q2R HEART_ANIMATION_STRENGTH)%R
  ∧ width (HEART_ICON a) ≤ width (beating_heart a hr_val i)
  ∧ height (HEART_ICON a) ≤ height (beating_heart a hr_val i)
  ∧ (IZR (width (beating_heart a hr_val i))
     <= IZR (width (HEART_ICON a)) * (1 + Q2R HEART_ANIMATION_STRENGTH))%R
  ∧ (IZR (height (beating_heart a hr_val i))
     <= IZR (height (HEART_ICON a)) * (1 + Q2R HEART_ANIMATION_STRENGTH))%R.
Proof.
  intros Hs Hw Hh.
  destruct (scaled_size_bounds _ hr_val i Hs Hw) as [? ?].
  destruct (scaled_size_bounds _ hr_val i Hs Hh) as [? ?].
  split; [by apply scale_factor_bounds|]. by repeat split.
Qed.

End heart_more.

Lemma beating_heart_size_witness :
  width (HEART_ICON demo_assets)
  ≤ width (@beating_heart MASTER_CONFIGURATION demo_assets 72 11).
Proof.
  apply (@beating_heart_size MASTER_CONFIGURATION demo_assets 72 11).
  - vm_compute. discriminate.
  - vm_compute. discriminate.
  - vm_compute. discriminate.
Defined.

(** ** Interpolated values *)

Section interpolation_more.
Context `{Config}.

Lemma Qleb_true (a b : Q) : Qleb a b = true ↔ (a <= b)%Q.
Proof. apply Qle_bool_iff. Qed.

Lemma Qleb_false (a b : Q) : Qleb a b = false ↔ (b < a)%Q.
Proof.
  unfold Qleb. rewrite <- not_true_iff_false, Qle_bool_iff.
  split; [apply Qnot_le_lt|apply Qlt_not_le].
Qed.

(** Between two sample points the interpolated value lies between the two
    sample values. *)
Lemma segment_bounds (x x0 x1 y0 y1 lo hi : Q) :
  (x0 <= x)%Q → (x < x1)%Q → (lo <= y0 <= hi)%Q → (lo <= y1 <= hi)%Q →
  (lo <= y0 + (x - x0) * ((y1 - y0) / (x1 - x0)) <= hi)%Q.
Proof.
  intros Hx0 Hx1 Hy0 Hy1.
  assert (~ x1 - x0 == 0)%Q as Hd.
  { intros E. Lqa.lra. }
  pose proof (Qmult_div_r (y1 - y0) (x1 - x0) Hd) as Hq. revert Hq.
  generalize ((y1 - y0) / (x1 - x0))%Q. intros q Hq. Lqa.nra.
Qed.

Lemma interp_from_bounds (x x0 y0 lo hi : Q) (rest : list (Q * Q)) :
  (x0 <= x)%Q → (lo <= y0 <= hi)%Q →
  Forall (λ p, (lo <= p.2 <= hi)%Q) rest →
  (lo <= interp_from x x0 y0 rest <= hi)%Q.
Proof.
  revert x0 y0. induction rest as [|[x1 y1] rest IH]; intros x0 y0 Hx Hy Hall;
    simpl; [done|].
  apply Forall_cons in Hall as [Hy1 Hall]. simpl in Hy1.
  destruct (Qleb x1 x) eqn:Hle.
  - apply IH; [by apply Qleb_true|done..].
  - apply segment_bounds; [done|by apply Qleb_false|done..].
Qed.

Lemma interp1_bounds (x lo hi : Q) (xp fp : list Q) :
  fp ≠ [] → xp ≠ [] →
  Forall (λ y, (lo <= y <= hi)%Q) fp →
  (lo <= interp1 (zip xp fp) x <= hi)%Q.
Proof.
  intros Hfp Hxp Hall.
  assert (Forall (λ p : Q * Q, (lo <= p.2 <= hi)%Q) (zip xp fp)) as Hz.
  { apply Forall_forall. intros [a b] Hin. simpl.
    apply elem_of_zip_r in Hin.
    by apply (proj1 (Forall_forall _ _) Hall). }
  unfold interp1. destruct xp as [|x0 xp]; [done|].
  destruct fp as [|y0 fp]; [done|]. simpl in *.
  apply Forall_cons in Hz as [Hy0 Hz]. simpl in Hy0.
  destruct (Qleb x x0) eqn:Hle; [done|].
  apply interp_from_bounds; [|done..].
  apply Qlt_le_weak. by apply Qleb_false.
Qed.

Lemma linspace_nonempty (start stop : Q) (num : nat) :
  num ≠ 0%nat → linspace start stop num ≠ [].
Proof.
  intros Hn Heq. apply (f_equal length) in Heq.
  rewrite length_linspace in Heq. simpl in Heq. lia.
Qed.

(** What the resampler returns, spelled out. *)
Lemma interpolate_unfold (first : jpoint) (rest : list jpoint) (d : interpolated) :
  interpolate (first :: rest) = inr d →
  let tps := first :: rest in
  let top := inject_Z (Z.of_nat (length tps) - 1) in
  let xp := linspace 0 top (length tps) in
  let xs := linspace 0 top
              (Z.to_nat (num_interpolated_of (duration_of tps))) in
  power d = map (interp1 (zip xp (map (λ tp, inject_Z (default 0 (j_power tp))) tps))) xs
  ∧ hr d = map (interp1 (zip xp (map (λ tp, inject_Z (default 0 (j_hr tp))) tps))) xs
  ∧ w_per_kg d = map (λ p, if Qltb 0 BODY_WEIGHT_KG
                            then (p / BODY_WEIGHT_KG)%Q else 0%Q) (power d).
Proof.
  intros Hd tps top xp xs. unfold interpolate in Hd.
  fold tps top xp in Hd. unfold duration_of in xs. fold tps in xs.
  fold xs in Hd.
  rewrite !np_interp_total in Hd by (by apply linspace_nonempty).
  simpl in Hd. by injection Hd as <-.
Qed.

(** X9. Interpolation never leaves the range of the data: when the power
    (the heart rate) of every sample lies between two bounds, so does the
    interpolated power (heart rate) of every frame. *)
Theorem interpolated_within_range (trackpoints : list jpoint)
    (d : interpolated) (lo hi : Z) :
  interpolate trackpoints = inr d →
  ((∀ tp, tp ∈ trackpoints → lo ≤ default 0 (j_power tp) ≤ hi) →
   ∀ p, p ∈ power d → (inject_Z lo <= p <= inject_Z hi)%Q)
  ∧ ((∀ tp, tp ∈ trackpoints → lo ≤ default 0 (j_hr tp) ≤ hi) →
     ∀ h, h ∈ hr d → (inject_Z lo <= h <= inject_Z hi)%Q).
Proof.
  destruct trackpoints as [|first rest]; [done|].
  intros (Hp & Hh & _)%interpolate_unfold.
  assert (∀ f : jpoint → Z,
            (∀ tp, tp ∈ first :: rest → lo ≤ f tp ≤ hi) →
            Forall (λ y, (inject_Z lo <= y <= inject_Z hi)%Q)
                   (map (λ tp, inject_Z (f tp)) (first :: rest))) as Hall.
  { intros f Hf. apply Forall_forall. intros y Hy.
    apply list_elem_of_fmap in Hy as (tp & -> & Htp).
    rewrite <- !Zle_Qle. by apply Hf. }
  split; intros Hb v Hv.
  - rewrite Hp in Hv. apply list_elem_of_fmap in Hv as (x & -> & _).
    apply interp1_bounds; [done|by apply linspace_nonempty|].
    by apply (Hall (λ tp, default 0 (j_power tp))).
  - rewrite Hh in Hv. apply list_elem_of_fmap in Hv as (x & -> & _).
    apply interp1_bounds; [done|by apply linspace_nonempty|].
    by apply (Hall (λ tp, default 0 (j_hr tp))).
Qed.

End interpolation_more.

Lemma interpolated_within_range_witness :
  (inject_Z 100 <= default 0%Q (power demo_data_3 !! 17%nat) <= inject_Z 200)%Q.
Proof.
  destruct (@interpolated_within_range MASTER_CONFIGURATION series_3_samples
              demo_data_3 100 200) as [Hpower _]; [vm_compute; reflexivity|].
  apply Hpower.
  - intros tp Hin. repeat apply elem_of_cons in Hin as [->|Hin];
      [simpl; lia..|by apply elem_of_nil in Hin].
  - apply (list_elem_of_lookup_2 _ 17%nat). vm_compute. reflexivity.
Defined.

Section interpolation_ends.
Context `{Config}.

Lemma linspace_lookup (start stop : Q) (div k : nat) :
  (k ≤ div)%nat → (1 ≤ div)%nat →
  linspace start stop (S div) !! k
  = Some (start + inject_Z (Z.of_nat k)
                  * ((stop - start) / inject_Z (Z.of_nat div)))%Q.
Proof.
  intros Hk Hdiv. unfold linspace. destruct div as [|div]; [lia|].
  rewrite list_lookup_fmap, lookup_seq_lt by lia. done.
Qed.

Lemma linspace_one (start stop : Q) : linspace start stop 1 = [start].
Proof. done. Qed.

(** The abscissas of the samples are the integers [0 .. n-1], up to the
    equality of rationals. *)
Lemma sample_abscissa (div k : nat) :
  (1 ≤ div)%nat →
  (0 + inject_Z (Z.of_nat k)
       * ((inject_Z (Z.of_nat (S div) - 1) - 0) / inject_Z (Z.of_nat div))
   == inject_Z (Z.of_nat k))%Q.
Proof.
  intros Hdiv.
  replace (Z.of_nat (S div) - 1) with (Z.of_nat div) by lia.
  assert (~ inject_Z (Z.of_nat div) == 0)%Q as Hne.
  { change 0%Q with (inject_Z 0). rewrite inject_Z_injective. lia. }
  field. done.
Qed.

(** The last target abscissa is the last sample abscissa. *)
Lemma target_last (top : Q) (div : nat) :
  (1 ≤ div)%nat →
  (0 + inject_Z (Z.of_nat div) * ((top - 0) / inject_Z (Z.of_nat div)) == top)%Q.
Proof.
  intros Hdiv.
  assert (~ inject_Z (Z.of_nat div) == 0)%Q as Hne.
  { change 0%Q with (inject_Z 0). rewrite inject_Z_injective. lia. }
  field. done.
Qed.

Lemma interp_from_last (x x0 y0 : Q) (rest : list (Q * Q)) (p : Q * Q) :
  Forall (λ q, (q.1 <= x)%Q) rest →
  last ((x0, y0) :: rest) = Some p →
  interp_from x x0 y0 rest = p.2.
Proof.
  revert x0 y0. induction rest as [|[x1 y1] rest IH]; intros x0 y0 Hall Hlast.
  { by injection Hlast as <-. }
  apply Forall_cons in Hall as [Hx1 Hall]. simpl in *.
  rewrite (proj2 (Qleb_true x1 x)) by done. by apply IH.
Qed.

Lemma linspace_head (top : Q) (num : nat) :
  num ≠ 0%nat →
  ∃ x xs, linspace 0 top num = x :: xs ∧ (x == 0)%Q.
Proof.
  intros Hnum. destruct num as [|[|div]]; [done|by exists 0%Q, []|].
  unfold linspace. simpl. eexists _, _. split; [done|]. ring.
Qed.

Lemma resampled_head (n num : nat) (fp : list Q) (y0 : Q) :
  num ≠ 0%nat → length fp = n → head fp = Some y0 →
  head (resampled n num fp) = Some y0.
Proof.
  intros Hnum Hlen Hhead. unfold resampled.
  destruct fp as [|y fp]; [done|]. injection Hhead as ->.
  destruct (linspace_head (inject_Z (Z.of_nat n - 1)) num Hnum)
    as (x & xs & -> & Hx).
  destruct (linspace_head (inject_Z (Z.of_nat n - 1)) n) as (x0 & xp & -> & Hx0).
  { simpl in Hlen. lia. }
  simpl. rewrite (proj2 (Qleb_true x x0)); [done|]. rewrite Hx, Hx0. Lqa.lra.
Qed.

Lemma resampled_last (n num : nat) (fp : list Q) (yl : Q) :
  (2 ≤ num)%nat → length fp = n → last fp = Some yl →
  last (resampled n num fp) = Some yl.
Proof.
  intros Hnum Hlen Hlast. unfold resampled.
  set (top := inject_Z (Z.of_nat n - 1)).
  destruct num as [|divx]; [lia|].
  rewrite fmap_last, last_lookup, length_linspace. cbn [Nat.pred].
  rewrite linspace_lookup by lia. cbn [fmap option_fmap option_map].
  set (x := (0 + inject_Z (Z.of_nat divx) * _)%Q).
  assert (x == top)%Q as Hx by (apply target_last; lia).
  f_equal.
  destruct n as [|[|div]].
  - by destruct fp.
  - destruct fp as [|y [|? ?]]; try done. injection Hlast as ->.
    simpl. by destruct (Qleb x 0).
  - assert (∀ k, (k ≤ S div)%nat →
              ∃ xk, linspace 0 top (S (S div)) !! k = Some xk
                    ∧ (xk == inject_Z (Z.of_nat k))%Q) as Hxp.
    { intros k Hk. eexists. split; [apply linspace_lookup; lia|].
      apply sample_abscissa. lia. }
    assert (top == inject_Z (Z.of_nat (S div)))%Q as Htop.
    { subst top. replace (Z.of_nat (S (S div)) - 1) with (Z.of_nat (S div))
        by lia. done. }
    destruct (Hxp 0%nat) as (x0 & Hx0 & Hx0v); [lia|].
    destruct (linspace 0 top (S (S div))) as [|x0' xp] eqn:Hlin; [done|].
    injection Hx0 as ->.
    destruct fp as [|y0 fp]; [done|]. simpl.
    assert (0 < inject_Z (Z.of_nat (S div)))%Q as Hpos.
    { change 0%Q with (inject_Z 0). rewrite <- Zlt_Qlt. lia. }
    rewrite (proj2 (Qleb_false x x0)) by (rewrite Hx, Htop, Hx0v; done).
    assert (length (x0 :: xp) = S (S div)) as Hlxp
      by (rewrite <- Hlin; apply length_linspace).
    change ((x0, y0) :: zip xp fp) with (zip (x0 :: xp) (y0 :: fp)) in *.
    set (pts := zip (x0 :: xp) (y0 :: fp)).
    assert (∃ xl, last pts = Some (xl, yl)) as [xl Hl].
    { subst pts. rewrite last_lookup, length_zip_with, Hlen, Hlxp.
      rewrite Nat.min_id. simpl Nat.pred.
      rewrite lookup_zip_with.
      destruct (Hxp (S div)) as (xl & -> & _); [lia|].
      rewrite last_lookup, Hlen in Hlast. simpl Nat.pred in Hlast.
      rewrite Hlast. by exists xl. }
    change pts with ((x0, y0) :: zip xp fp) in Hl.
    rewrite (interp_from_last x x0 y0 (zip xp fp) (xl, yl)); [done| |done].
    apply Forall_lookup. intros k [xk yk] Hk. simpl.
    assert (pts !! S k = Some (xk, yk)) as Hk' by done.
    subst pts. rewrite lookup_zip_with in Hk'.
    apply bind_Some in Hk' as (xk' & Hxk & Hk').
    apply bind_Some in Hk' as (yk' & Hyk & [= -> ->]).
    assert (S k ≤ S div)%nat as Hle.
    { apply lookup_lt_Some in Hxk. rewrite Hlxp in Hxk. lia. }
    destruct (Hxp (S k) Hle) as (xk' & Hxk' & Hv).
    rewrite Hxk in Hxk'. injection Hxk' as <-.
    rewrite Hv, Hx, Htop, <- Zle_Qle. lia.
Qed.

End interpolation_ends.

Section interpolation_ends_theorem.
Context `{Config}.

(** X10. No extrapolation at the ends: the first frame carries exactly the
    power and heart rate of the first sample, and when there are at least
    two frames the last frame carries exactly those of the last sample. *)
Theorem interpolated_endpoints (first : jpoint) (rest : list jpoint)
    (d : interpolated) :
  interpolate (first :: rest) = inr d →
  let final := List.last (first :: rest) first in
  ((1 ≤ length (power d))%nat →
   head (power d) = Some (inject_Z (default 0 (j_power first)))
   ∧ head (hr d) = Some (inject_Z (default 0 (j_hr first))))
  ∧ ((2 ≤ length (power d))%nat →
     last (power d) = Some (inject_Z (default 0 (j_power final)))
     ∧ last (hr d) = Some (inject_Z (default 0 (j_hr final)))).
Proof.
  intros Hd final.
  destruct (interpolate_length (first :: rest)) as (d' & Hd' & Hlen & _);
    [done|].
  assert (d' = d) as -> by congruence.
  apply interpolate_unfold in Hd as (Hp & Hh & _).
  set (n := length (first :: rest)) in *.
  set (num := Z.to_nat (num_interpolated_of (duration_of (first :: rest)))) in *.
  set (fp := map (λ tp, inject_Z (default 0 (j_power tp))) (first :: rest)) in *.
  set (fh := map (λ tp, inject_Z (default 0 (j_hr tp))) (first :: rest)) in *.
  change (power d = resampled n num fp) in Hp.
  change (hr d = resampled n num fh) in Hh.
  assert (final ∈ first :: rest ∧ last (first :: rest) = Some final)
    as [_ Hfinal].
  { assert (last (first :: rest) = Some final) as Hl by by apply last_last.
    split; [by apply last_Some_elem_of|done]. }
  rewrite Hlen, Hp, Hh. split; intros Hnum.
  - split; apply resampled_head; try done; try lia;
      subst fp fh; by rewrite length_map.
  - split; apply resampled_last; try done;
      subst fp fh; try (by rewrite length_map);
      by rewrite fmap_last, Hfinal.
Qed.

End interpolation_ends_theorem.

Lemma interpolated_endpoints_witness :
  last (power demo_data_3) = Some (inject_Z 200)
  ∧ last (hr demo_data_3) = Some (inject_Z 140).
Proof.
  destruct (@interpolated_endpoints MASTER_CONFIGURATION
              (JPoint 0 (Some 100) (Some 120) 80 None (Some 0%Q))
              [ JPoint 1000000 (Some 150) (Some 130) 80 None (Some 0%Q);
                JPoint 2000000 (Some 200) (Some 140) 80 None (Some 0%Q) ]
              demo_data_3) as [_ Hlast]; [vm_compute; reflexivity|].
  apply Hlast. vm_compute. lia.
Defined.

(** ** What the base-frame cache holds *)

Section cache_contents.
Context `{Config, Python, Pillow, OpenCV}.

Lemma render_base_dom (a : assets) (c c' : caches) (p h : Z) (wkg : Q)
    (frame : raster) (txt : image) :
  render_base a c p h wkg = inr (c', frame, txt) →
  dom (base_frame_cache c') = {[key_of p h]} ∪ dom (base_frame_cache c).
Proof.
  unfold render_base.
  destruct (base_frame_cache c !! key_of p h) as [cached|] eqn:Hkey.
  - destruct (text_cache c !! _); [|done]. intros [= <- _ _].
    apply elem_of_dom_2 in Hkey. symmetry.
    by apply subseteq_union_1_L, singleton_subseteq_l.
  - destruct (text_cached (text_cache c) _ FONT_XL) as [tc1 im1].
    destruct (text_cached tc1 _ FONT_L) as [tc2 im2].
    destruct (text_cached tc2 _ FONT_L) as [tc3 im3].
    intros [= <- _ _]. simpl. by rewrite dom_insert_L.
Qed.

Lemma prepare_dom (a : assets) (d : interpolated) (c : caches) (i : nat)
    (pr : prepared) :
  prepare a d c i = inr pr →
  dom (base_frame_cache (pr_caches pr))
  = {[frame_key pr]} ∪ dom (base_frame_cache c)
  ∧ ∃ p h, power d !! i = Some p ∧ hr d !! i = Some h
           ∧ pr_power_val pr = py_int p ∧ pr_hr_val pr = py_int h.
Proof.
  unfold prepare, index.
  destruct (power d !! i) as [p|]; [|done].
  destruct (hr d !! i) as [h|]; [|done].
  destruct (w_per_kg d !! i) as [wkg|]; [|done]. simpl.
  destruct (render_base a c (py_int p) (py_int h) wkg)
    as [|[[c' frame] txt]] eqn:Hr; [done|].
  simpl. intros [= <-]. simpl. split; [by eapply render_base_dom|].
  by exists p, h.
Qed.

Lemma for_range_caches (a : assets) (out : string) (cb : option callback)
    (d : interpolated) (total : nat) (indices : list nat) (c c' : caches)
    (w w' : world) :
  for_range (frame_body a out cb d total) indices c w = (w', inr c') →
  c' = caches_after a d indices c
  ∧ length (prepared_frames a d indices c) = length indices.
Proof.
  revert c w. induction indices as [|i indices IH]; intros c w; simpl.
  { by intros [= _ <-]. }
  unfold bind at 1. unfold frame_body at 1. unfold bind at 1, lift at 1.
  destruct (prepare a d c i) as [e|pr]; [done|].
  unfold bind at 1, writer_write at 1, modify at 1.
  unfold bind at 1.
  destruct (report_progress _ _ _ _) as [w1 [e|[]]]; [done|].
  unfold ret at 1. intros Hrun. apply IH in Hrun as [-> Hlen].
  simpl. by rewrite Hlen.
Qed.

Lemma caches_after_dom (a : assets) (d : interpolated) (indices : list nat)
    (c : caches) :
  length (prepared_frames a d indices c) = length indices →
  dom (base_frame_cache (caches_after a d indices c))
  = dom (base_frame_cache c)
    ∪ list_to_set (frame_key <$> prepared_frames a d indices c).
Proof.
  revert c. induction indices as [|i indices IH]; intros c; simpl.
  { intros _. by rewrite (right_id_L ∅ (∪)). }
  destruct (prepare a d c i) as [e|pr] eqn:Hpr; [done|]. simpl.
  intros [= Hlen]. rewrite (IH _ Hlen).
  destruct (prepare_dom a d c i pr Hpr) as [-> _].
  by rewrite (comm_L (∪) {[frame_key pr]}), <- (assoc_L (∪)).
Qed.

Lemma prepared_frames_lookup (a : assets) (d : interpolated) (s n k : nat)
    (c : caches) (pr : prepared) :
  prepared_frames a d (seq s n) c !! k = Some pr →
  ∃ p h, power d !! (s + k)%nat = Some p ∧ hr d !! (s + k)%nat = Some h
         ∧ frame_key pr = cache_key p h.
Proof.
  revert s k c. induction n as [|n IH]; intros s k c; simpl; [done|].
  destruct (prepare a d c s) as [e|pr0] eqn:Hpr; [done|].
  destruct k as [|k]; simpl.
  - intros [= ->]. destruct (prepare_dom a d c s pr Hpr)
      as (_ & p & h & Hp & Hh & Hpv & Hhv).
    exists p, h. rewrite Nat.add_0_r. unfold frame_key, cache_key.
    by rewrite Hpv, Hhv.
  - intros Hk. apply IH in Hk as (p & h & Hp & Hh & Hkey).
    exists p, h. by rewrite <- Nat.add_succ_comm.
Qed.

Lemma size_list_to_set_le (l : list string) :
  (size (list_to_set l : gset string) ≤ length l)%nat.
Proof.
  induction l as [|x l IH].
  { change (list_to_set []) with (∅ : gset string). by rewrite size_empty. }
  change (list_to_set (x :: l)) with ({[x]} ∪ list_to_set l : gset string).
  rewrite size_union_alt, size_singleton. simpl.
  pose proof (subseteq_size (list_to_set l ∖ {[x]}) (list_to_set l : gset string))
    as Hle.
  assert (list_to_set l ∖ {[x]} ⊆ (list_to_set l : gset string)) as Hsub
    by apply subseteq_difference_l, reflexivity.
  specialize (Hle Hsub). lia.
Qed.

(** X11. When the loop has run over the first [n] frames, the base-frame
    cache holds one entry for each distinct key among those frames and
    nothing else: a key is in the cache exactly when it is the key of one of
    the frames, so the cache never has more entries than frames. *)
Theorem base_cache_holds_the_keys (a : assets) (out : string)
    (cb : option callback) (d : interpolated) (total n : nat) (c' : caches)
    (w w' : world) :
  for_range (frame_body a out cb d total) (seq 0 n) empty_caches w
  = (w', inr c') →
  (∀ key, key ∈ dom (base_frame_cache c') ↔
          ∃ i p h, (i < n)%nat ∧ power d !! i = Some p ∧ hr d !! i = Some h
                   ∧ key = cache_key p h)
  ∧ (size (base_frame_cache c') ≤ n)%nat.
Proof.
  intros [-> Hlen]%for_range_caches. rewrite length_seq in Hlen.
  pose proof (caches_after_dom a d (seq 0 n) empty_caches) as Hdom.
  rewrite length_seq in Hdom. specialize (Hdom Hlen).
  set (frames := prepared_frames a d (seq 0 n) empty_caches) in *.
  unfold empty_caches in Hdom at 2. simpl in Hdom.
  rewrite dom_empty_L, (left_id_L ∅ (∪)) in Hdom.
  split.
  - intros key. rewrite Hdom, elem_of_list_to_set, list_elem_of_fmap. split.
    + intros (pr & -> & Hin). apply list_elem_of_lookup in Hin as [k Hk].
      pose proof (lookup_lt_Some _ _ _ Hk) as Hlt. rewrite Hlen in Hlt.
      apply prepared_frames_lookup in Hk as (p & h & Hp & Hh & Hkey).
      by exists k, p, h.
    + intros (i & p & h & Hi & Hp & Hh & ->).
      destruct (lookup_lt_is_Some_2 frames i) as [pr Hpr]; [lia|].
      exists pr. split; [|by eapply list_elem_of_lookup_2].
      apply prepared_frames_lookup in Hpr as (p' & h' & Hp' & Hh' & ->).
      simpl in *. congruence.
  - rewrite <- size_dom, Hdom.
    etrans; [apply size_list_to_set_le|]. by rewrite length_fmap, Hlen.
Qed.

End cache_contents.

Lemma base_cache_holds_the_keys_witness :
  (size (base_frame_cache demo_loop_caches) ≤ 2)%nat.
Proof.
  assert (snd demo_loop = inr demo_loop_caches) as Hs
    by (vm_compute; reflexivity).
  apply (@base_cache_holds_the_keys MASTER_CONFIGURATION demo_python
           demo_pillow demo_assets "out.mp4" None demo_data 60 2
           demo_loop_caches demo_world (fst demo_loop)).
  rewrite <- Hs. apply surjective_pairing.
Defined.

(** ** What a cached frame shows *)

Section first_render.
Context `{Config, Python, Pillow, OpenCV}.

Lemma last_char_app (s : string) (c : ascii) (t : string) :
  last_char (s +:+ String c t) = last_char (String c t).
Proof.
  induction s as [|c' s IH]; [done|]. rewrite app_cons.
  change (last_char (String c' (s +:+ String c t)))
    with (match s +:+ String c t with
          | EmptyString => Some c'
          | _ => last_char (s +:+ String c t)
          end).
  destruct (s +:+ String c t) eqn:Heq; [|by rewrite <- IH].
  by destruct s.
Qed.

Lemma font_of_power (p : Z) : font_of (pretty p +:+ "W") = FONT_XL.
Proof. unfold font_of. by rewrite last_char_app. Qed.

Lemma font_of_wkg (x : string) : font_of (x +:+ " W/kg") = FONT_L.
Proof. unfold font_of. by rewrite last_char_app. Qed.

Lemma font_of_hr (h : Z) : font_of (pretty h +:+ " bpm") = FONT_L.
Proof. unfold font_of. by rewrite last_char_app. Qed.

Lemma honest_empty : honest ∅.
Proof. intros s im Hs. by rewrite lookup_empty in Hs. Qed.

Lemma text_cached_honest (tc tc' : gmap string image) (s : string) (f : font)
    (im : image) :
  honest tc → font_of s = f →
  text_cached tc s f = (tc', im) →
  im = draw_text_with_outline_pil s f TEXT_OUTLINE_WIDTH ∧ honest tc'.
Proof.
  intros Hh <-. unfold text_cached. destruct (tc !! s) as [im0|] eqn:Hs.
  - intros [= <- <-]. split; [by apply Hh|done].
  - intros [= <- <-]. split; [done|]. intros s' im'.
    destruct (decide (s = s')) as [<-|Hne].
    + rewrite lookup_insert_eq. by intros [= <-].
    + rewrite lookup_insert_ne by done. apply Hh.
Qed.

(** A cache miss renders what the empty caches would render. *)
Lemma render_base_miss (a : assets) (c : caches) (p h : Z) (wkg : Q) :
  honest (text_cache c) →
  base_frame_cache c !! key_of p h = None →
  ∃ tc' c0 frame,
    render_base a c p h wkg
    = inr (Caches tc' (<[key_of p h := frame]> (base_frame_cache c)), frame,
           draw_text_with_outline_pil (hr_text_str h) FONT_L TEXT_OUTLINE_WIDTH)
    ∧ render_base a empty_caches p h wkg
      = inr (c0, frame,
             draw_text_with_outline_pil (hr_text_str h) FONT_L TEXT_OUTLINE_WIDTH)
    ∧ honest tc'.
Proof.
  intros Hh Hkey. unfold render_base. rewrite Hkey.
  unfold empty_caches. cbn [base_frame_cache text_cache].
  rewrite lookup_empty.
  destruct (text_cached (text_cache c) (pretty p +:+ "W") _)
    as [tc1 im1] eqn:E1.
  apply (text_cached_honest _ _ _ _ _ Hh (font_of_power p)) in E1 as [-> Hh1].
  destruct (text_cached tc1 (format_1f wkg +:+ " W/kg") _) as [tc2 im2] eqn:E2.
  apply (text_cached_honest _ _ _ _ _ Hh1 (font_of_wkg _)) in E2 as [-> Hh2].
  destruct (text_cached tc2 (pretty h +:+ " bpm") _) as [tc3 im3] eqn:E3.
  apply (text_cached_honest _ _ _ _ _ Hh2 (font_of_hr h)) in E3 as [-> Hh3].
  destruct (text_cached ∅ (pretty p +:+ "W") _) as [te1 ie1] eqn:F1.
  apply (text_cached_honest _ _ _ _ _ honest_empty (font_of_power p)) in F1
    as [-> He1].
  destruct (text_cached te1 (format_1f wkg +:+ " W/kg") _) as [te2 ie2] eqn:F2.
  apply (text_cached_honest _ _ _ _ _ He1 (font_of_wkg _)) in F2 as [-> He2].
  destruct (text_cached te2 (pretty h +:+ " bpm") _) as [te3 ie3] eqn:F3.
  apply (text_cached_honest _ _ _ _ _ He2 (font_of_hr h)) in F3 as [-> He3].
  by eexists _, _, _.
Qed.

Lemma first_render_inv_empty (a : assets) (d : interpolated) :
  first_render_inv a d 0 empty_caches.
Proof.
  split; [apply cache_inv_empty|]. split; [apply honest_empty|]. split.
  - intros p h frame Hf. unfold empty_caches in Hf. simpl in Hf.
    by rewrite lookup_empty in Hf.
  - intros m key Hm. lia.
Qed.

(** One iteration: the frame gets the first rendering of its key, and the
    caches are ready for the next frame. *)
Lemma first_render_step (a : assets) (d : interpolated) (s : nat) (c : caches)
    (pr : prepared) :
  first_render_inv a d s c →
  prepare a d c s = inr pr →
  first_render_inv a d (S s) (pr_caches pr)
  ∧ ∃ m, (m ≤ s)%nat
         ∧ first_rendered_at a d m (pr_power_val pr) (pr_hr_val pr)
             (pr_base pr) (pr_hr_text pr).
Proof.
  intros (Hinv & Hh & Hbase & Hseen) Hpr.
  pose proof Hpr as Hpr'. unfold prepare, index in Hpr'.
  destruct (power d !! s) as [p|] eqn:Hp; [|done].
  destruct (hr d !! s) as [h|] eqn:Hhr; [|done].
  destruct (w_per_kg d !! s) as [wkg|] eqn:Hw; [|done]. simpl in Hpr'.
  assert (key_at d s = Some (key_of (py_int p) (py_int h))) as Hks
    by (unfold key_at; by rewrite Hp, Hhr).
  destruct (base_frame_cache c !! key_of (py_int p) (py_int h))
    as [cached|] eqn:Hkey.
  - (* hit *)
    assert (render_base a c (py_int p) (py_int h) wkg
            = inr (c, cached,
                   draw_text_with_outline_pil (hr_text_str (py_int h)) FONT_L
                     TEXT_OUTLINE_WIDTH)) as Hr.
    { unfold render_base. rewrite Hkey.
      destruct (Hinv (py_int p) (py_int h)) as [txt Htxt]; [by eexists|].
      unfold hr_text_str in *. rewrite Htxt.
      by rewrite (Hh _ _ Htxt), font_of_hr. }
    rewrite Hr in Hpr'. simpl in Hpr'. injection Hpr' as <-. simpl.
    destruct (Hbase _ _ _ Hkey) as (m & txt & Hm & Hfirst).
    assert (txt = draw_text_with_outline_pil (hr_text_str (py_int h)) FONT_L
                    TEXT_OUTLINE_WIDTH) as ->.
    { destruct Hfirst as (wkg0 & c0 & _ & _ & Hr0 & _).
      destruct (render_base_miss a empty_caches (py_int p) (py_int h) wkg0
                  honest_empty) as (? & ? & ? & _ & Hr1 & _).
      { unfold empty_caches. simpl. apply lookup_empty. }
      rewrite Hr0 in Hr1. by injection Hr1 as _ _ ->. }
    split; [|exists m; split; [lia|done]].
    split; [done|]. split; [done|]. split.
    + intros p' h' frame Hf. destruct (Hbase _ _ _ Hf) as (m' & txt' & ? & ?).
      exists m', txt'. split; [lia|done].
    + intros m' key Hm' Hk. destruct (decide (m' = s)) as [->|Hne].
      * rewrite Hks in Hk. injection Hk as <-. by eexists.
      * apply (Hseen m'); [lia|done].
  - (* miss *)
    destruct (render_base_miss a c (py_int p) (py_int h) wkg Hh Hkey)
      as (tc' & c0 & frame & Hr & Hr0 & Hh').
    destruct (render_base_spec a c (py_int p) (py_int h) wkg Hinv)
      as (c' & frame' & txt' & Hr' & _ & _ & _ & _ & Hinv').
    rewrite Hr in Hr'. injection Hr' as <- <- <-.
    rewrite Hr in Hpr'. simpl in Hpr'. injection Hpr' as <-. simpl.
    assert (first_rendered_at a d s (py_int p) (py_int h) frame
              (draw_text_with_outline_pil (hr_text_str (py_int h)) FONT_L
                 TEXT_OUTLINE_WIDTH)) as Hfirst.
    { exists wkg, c0. repeat split; try done.
      intros m' Hm' Hk. destruct (Hseen m' _ Hm' Hk) as [x Hx]. congruence. }
    split; [|exists s; split; [lia|done]].
    split; [done|]. split; [done|]. split.
    + intros p' h' frame'. simpl.
      destruct (decide (key_of (py_int p) (py_int h) = key_of p' h'))
        as [Heq|Hne].
      * rewrite Heq, lookup_insert_eq. intros [= <-].
        apply key_of_inj in Heq as [<- <-]. exists s. eexists. split; [lia|done].
      * rewrite lookup_insert_ne by done. intros Hf.
        destruct (Hbase _ _ _ Hf) as (m' & txt'' & ? & ?).
        exists m', txt''. split; [lia|done].
    + intros m' key Hm' Hk. simpl.
      destruct (decide (key_of (py_int p) (py_int h) = key)) as [<-|Hne].
      * rewrite lookup_insert_eq. by eexists.
      * rewrite lookup_insert_ne by done.
        destruct (decide (m' = s)) as [->|Hne'].
        -- rewrite Hks in Hk. by injection Hk.
        -- apply (Hseen m'); [lia|done].
Qed.

Lemma first_render_frames (a : assets) (d : interpolated) (s n k : nat)
    (c : caches) (pr : prepared) :
  first_render_inv a d s c →
  prepared_frames a d (seq s n) c !! k = Some pr →
  ∃ m, (m ≤ s + k)%nat
       ∧ first_rendered_at a d m (pr_power_val pr) (pr_hr_val pr)
           (pr_base pr) (pr_hr_text pr).
Proof.
  revert s k c. induction n as [|n IH]; intros s k c Hinv; simpl; [done|].
  destruct (prepare a d c s) as [e|pr0] eqn:Hpr; [done|].
  destruct (first_render_step a d s c pr0 Hinv Hpr) as (Hinv' & m & Hm & Hf).
  destruct k as [|k]; simpl.
  - intros [= <-]. exists m. split; [lia|done].
  - intros Hk. destruct (IH _ _ _ Hinv' Hk) as (m' & Hm' & Hf').
    exists m'. split; [lia|done].
Qed.

(** X12. In a run, the base raster and the heart-rate text of frame [k]
    are exactly what rendering from scratch gives for the first frame [m]
    of the run that has the same cache key: the same truncated power and
    heart rate, but the watts-per-kilogram value of frame [m]. *)
Theorem frame_shows_first_render (a : assets) (d : interpolated) (n k : nat)
    (pr : prepared) :
  prepared_frames a d (seq 0 n) empty_caches !! k = Some pr →
  ∃ m wkg c0,
    (m ≤ k)%nat
    ∧ key_at d m = Some (frame_key pr)
    ∧ (∀ m', (m' < m)%nat → key_at d m' ≠ Some (frame_key pr))
    ∧ w_per_kg d !! m = Some wkg
    ∧ render_base a empty_caches (pr_power_val pr) (pr_hr_val pr) wkg
      = inr (c0, pr_base pr, pr_hr_text pr).
Proof.
  intros Hk.
  destruct (first_render_frames a d 0 n k empty_caches pr
              (first_render_inv_empty a d) Hk)
    as (m & Hm & wkg & c0 & Hw & Hkey & Hr & Hfirst).
  by exists m, wkg, c0.
Qed.

End first_render.

Lemma frame_shows_first_render_witness :
  ∃ m wkg c0,
    (m ≤ 18)%nat
    ∧ key_at climb_data m = Some (frame_key (climb_frame 18))
    ∧ (∀ m', (m' < m)%nat →
             key_at climb_data m' ≠ Some (frame_key (climb_frame 18)))
    ∧ w_per_kg climb_data !! m = Some wkg
    ∧ @render_base MASTER_CONFIGURATION demo_python demo_pillow demo_assets
        empty_caches (pr_power_val (climb_frame 18))
        (pr_hr_val (climb_frame 18)) wkg
      = inr (c0, pr_base (climb_frame 18), pr_hr_text (climb_frame 18)).
Proof.
  apply (@frame_shows_first_render MASTER_CONFIGURATION demo_python demo_pillow
           demo_assets climb_data 60 18 (climb_frame 18)).
  vm_compute. reflexivity.
Defined.

(** The cache is not transparent.  In the climb from 3 W to 4 W, frame 18
    has power 3.3 W, which formats to "0.1 W/kg"; it shares the key "3-100"
    with frame 0 and shows the "0.0 W/kg" rendered for that frame. *)
Example cached_frame_shows_stale_wkg :
  frame_key (climb_frame 18) = frame_key (climb_frame 0)
  ∧ pr_base (climb_frame 18) = pr_base (climb_frame 0)
  ∧ pr_base (climb_frame 18) ≠ climb_fresh 18.
Proof.
  split; [vm_compute; reflexivity|]. split; [vm_compute; reflexivity|].
  vm_compute. intros Heq. discriminate.
Qed.

(** ** Runs of the generator *)

Section generator_runs.
Context `{Config, Python, Pillow, OpenCV}.

Lemma py_int_range (x : Q) (hi : Z) :
  (0 <= x)%Q → (x <= inject_Z hi)%Q → 0 ≤ py_int x ≤ hi.
Proof.
  intros Hlo Hhi. rewrite py_int_nonneg by done. split.
  - change 0 with (Qfloor 0). by apply Qfloor_resp_le.
  - rewrite <- (Qfloor_Z hi). by apply Qfloor_resp_le.
Qed.

(** Rounding keeps a number that is not negative below an integer that is
    itself a double. *)
Lemma binary64_le_Z (x : Q) (k : Z) :
  (binary64 (inject_Z k) == inject_Z k)%Q →
  (0 <= x)%Q → (x <= inject_Z k)%Q → (binary64 x <= inject_Z k)%Q.
Proof. intros Hk Hx Hxk. rewrite <- Hk. by apply binary64_mono. Qed.

(** [int(a / b * n)] in double precision, for [0 <= a <= b], [0 < b] and a
    small [n], lies between 0 and [n]. *)
Lemma scaled_ratio_range (a b n : Z) :
  0 ≤ a ≤ b → 0 < b → 0 ≤ n →
  (binary64 (inject_Z n) == inject_Z n)%Q →
  0 ≤ py_int (float_mul (int_truediv a b) (float_of_int n)) ≤ n.
Proof.
  intros [Ha Hab] Hb Hn Hexact.
  assert (0 < inject_Z b)%Q as Hpos.
  { change 0%Q with (inject_Z 0). by rewrite <- Zlt_Qlt. }
  assert (0 <= inject_Z a)%Q as Hnum.
  { change 0%Q with (inject_Z 0). by rewrite <- Zle_Qle. }
  assert (inject_Z a <= inject_Z b)%Q as Hle by by rewrite <- Zle_Qle.
  assert (0 <= inject_Z n)%Q as Hn0.
  { change 0%Q with (inject_Z 0). by rewrite <- Zle_Qle. }
  assert (0 <= inject_Z a / inject_Z b)%Q as Hq0.
  { apply Qle_shift_div_l; [done|]. by rewrite Qmult_0_l. }
  assert (inject_Z a / inject_Z b <= inject_Z 1)%Q as Hq1.
  { apply Qle_shift_div_r; [done|]. by rewrite Qmult_1_l. }
  assert (0 <= int_truediv a b)%Q as Hr0 by by apply binary64_nonneg.
  assert (int_truediv a b <= 1)%Q as Hr1.
  { apply (binary64_le_Z _ 1); [|done..]. vm_compute. reflexivity. }
  unfold float_mul, float_of_int. apply py_int_range.
  - apply binary64_nonneg. apply Qmult_le_0_compat; [done|].
    by apply binary64_nonneg.
  - apply binary64_le_Z; [done|..].
    + apply Qmult_le_0_compat; [done|]. by apply binary64_nonneg.
    + rewrite Hexact. revert Hr0 Hr1 Hn0.
      generalize (int_truediv a b), (inject_Z n). intros r m ???. Lqa.nra.
Qed.

(** The percentage reported after frame [i] of [total]. *)
Lemma percentage_range (i total : nat) :
  (i < total)%nat →
  0 ≤ py_int (float_mul (int_truediv (Z.of_nat i + 1) (Z.of_nat total))
                        (float_of_int 100))
    ≤ 100.
Proof.
  intros Hi. apply scaled_ratio_range; [lia..|]. vm_compute. reflexivity.
Qed.

Lemma report_progress_accepted (cb : option callback) (i total : nat)
    (w : world) :
  never_raises cb → (i < total)%nat →
  report_progress cb i total w = (w, inr tt).
Proof.
  intros Hcb Hi. unfold report_progress.
  destruct cb as [f|]; [|done].
  destruct (_ =? 0); [|done].
  unfold call. by rewrite (Hcb f) by (done || by apply percentage_range).
Qed.

(** The adapter maps the percentages of the generator into 20..95. *)
Lemma adapter_range (p : Z) :
  0 ≤ p ≤ 100 →
  20 ≤ 20 + py_int (float_mul (int_truediv p 100) (float_of_int 75)) ≤ 95.
Proof.
  intros Hp.
  assert (0 ≤ py_int (float_mul (int_truediv p 100) (float_of_int 75)) ≤ 75);
    [|lia].
  apply scaled_ratio_range; [lia..|]. vm_compute. reflexivity.
Qed.

Lemma adapter_accepts (cb : callback) :
  accepts cb 20 95 → accepts (video_progress_adapter cb) 0 100.
Proof.
  intros Hcb p m Hp. unfold video_progress_adapter. apply Hcb.
  by apply adapter_range.
Qed.

Lemma for_range_accepted (a : assets) (out : string) (cb : option callback)
    (d : interpolated) (indices : list nat) (c : caches) (w : world) :
  never_raises cb → cache_inv c → aligned d →
  Forall (λ i, (i < length (power d))%nat) indices →
  ∃ c',
    for_range (frame_body a out cb d (length (power d))) indices c w
    = (fold_left (λ w f, wrote out f w) (written_frames a d indices c) w,
       inr c')
    ∧ length (written_frames a d indices c) = length indices.
Proof.
  intros Hcb Hinv Hal Hidx. revert c w Hinv.
  induction Hidx as [|i indices Hi Hidx IH]; intros c w Hinv.
  { by exists c. }
  destruct (prepare_spec a d c i Hinv Hal Hi)
    as (pr & p & h & Hpr & _ & _ & _ & _ & _ & _ & _ & _ & Hinv').
  unfold written_frames. simpl. rewrite Hpr. simpl.
  unfold bind at 1. unfold frame_body at 1. unfold bind at 1, lift at 1.
  rewrite Hpr. unfold bind at 1, writer_write at 1, modify at 1.
  unfold bind at 1. rewrite report_progress_accepted by done.
  unfold ret at 1.
  destruct (IH (pr_caches pr)
              (wrote out (animate a (pr_base pr) (pr_hr_text pr) (pr_hr_val pr) i) w)
              Hinv') as (c' & Hrun & Hlen).
  exists c'. split; [exact Hrun|]. unfold written_frames in Hlen.
  by rewrite Hlen.
Qed.

Lemma fold_wrote_other (out path : string) (frames : list raster) (w : world) :
  path ≠ out →
  files (fold_left (λ w f, wrote out f w) frames w) !! path = files w !! path.
Proof.
  intros Hne. revert w. induction frames as [|f frames IH]; intros w; [done|].
  simpl. rewrite IH. unfold wrote, writer_write, modify. simpl.
  by rewrite lookup_alter_ne.
Qed.

Lemma fold_wrote_rest (out : string) (frames : list raster) (w : world) :
  open_writers (fold_left (λ w f, wrote out f w) frames w) = open_writers w
  ∧ stdout (fold_left (λ w f, wrote out f w) frames w) = stdout w.
Proof.
  revert w. induction frames as [|f frames IH]; intros w; [done|].
  simpl. by destruct (IH (wrote out f w)) as [-> ->].
Qed.

(** What a run that returns has done to the world. *)
Lemma create_gauge_video_effect (json_path output_path : string)
    (cb : option callback) (w w' : world) :
  create_gauge_video json_path output_path cb w = (w', inr tt) →
  ∃ trackpoints frames,
    missing_asset = None
    ∧ files w !! json_path = Some (JsonFile trackpoints)
    ∧ trackpoints ≠ []
    ∧ writer_opens output_path = true
    ∧ files w' !! output_path = Some (VideoFile frames)
    ∧ length frames = Z.to_nat (num_interpolated_of (duration_of trackpoints))
    ∧ (∀ path, path ≠ output_path → files w' !! path = files w !! path)
    ∧ open_writers w' = open_writers w ∖ {[output_path]}
    ∧ stdout w' = stdout w.
Proof.
  intros Hrun.
  destruct (create_gauge_video_output _ _ _ _ _ Hrun)
    as (a & tps & d & Ha & Hjson & Hd & Hout & Hlen).
  exists tps, (written_frames a d (seq 0 (length (power d))) empty_caches).
  assert (missing_asset = None) as Hassets.
  { unfold load_assets in Ha. by destruct missing_asset as [[?|?]|]. }
  assert (tps ≠ []) as Hne by by intros ->.
  destruct (interpolate_length tps Hne) as (d' & Hd' & Hn & Hal).
  assert (d' = d) as -> by congruence.
  do 3 (split; [done|]).
  revert Hrun. unfold create_gauge_video, bind, lift.
  rewrite Ha. unfold read_json at 1. rewrite Hjson, Hd.
  unfold open_writer at 1.
  destruct (writer_opens output_path); [|done].
  set (w1 := World _ _ _).
  destruct (for_range_spec a output_path cb d (length (power d))
              (seq 0 (length (power d))) empty_caches w1
              cache_inv_empty Hal) as (w2 & r & -> & How & _ & Hr).
  { apply Forall_forall. intros i Hi%elem_of_seq. lia. }
  destruct r as [e|c']; [done|]. destruct Hr as [_ ->].
  unfold writer_release, modify. intros [= <-]. simpl.
  destruct (fold_wrote_rest output_path
              (written_frames a d (seq 0 (length (power d))) empty_caches) w1)
    as [Hw Hs].
  do 3 (split; [done|]). split; [|split].
  - intros path Hne'. rewrite fold_wrote_other by done.
    subst w1. simpl. by rewrite lookup_insert_ne.
  - rewrite Hw. subst w1. simpl.
    apply set_eq. intros x.
    rewrite !elem_of_difference, elem_of_union, elem_of_singleton. tauto.
  - rewrite Hs. by subst w1.
Qed.

(** X13. A run of [create_gauge_video] returns only when no asset is
    missing, the input file holds a list that is not empty and the video
    writer opened; it has then put into the output file exactly as many
    frames as the frame count computed from the span of the input, has
    released the writer, printed nothing, and left every other file as it
    was. *)
Theorem generation_output (json_path output_path : string)
    (cb : option callback) (w w' : world) :
  create_gauge_video json_path output_path cb w = (w', inr tt) →
  ∃ trackpoints frames,
    missing_asset = None
    ∧ files w !! json_path = Some (JsonFile trackpoints)
    ∧ trackpoints ≠ []
    ∧ writer_opens output_path = true
    ∧ files w' !! output_path = Some (VideoFile frames)
    ∧ length frames = Z.to_nat (num_interpolated_of (duration_of trackpoints))
    ∧ (∀ path, path ≠ output_path → files w' !! path = files w !! path)
    ∧ (output_path ∉ open_writers w')
    ∧ stdout w' = stdout w.
Proof.
  intros Hrun. apply create_gauge_video_effect in Hrun
    as (tps & frames & Ha & Hjson & Hne & Hopen & Hout & Hlen & Hother & How
        & Hs).
  exists tps, frames. do 7 (split; [done|]). split; [|done].
  rewrite How, elem_of_difference, elem_of_singleton. tauto.
Qed.

(** When nothing stands in the way, the generator returns. *)
Lemma create_gauge_video_returns (json_path output_path : string)
    (cb : option callback) (trackpoints : list jpoint) (w : world) :
  missing_asset = None →
  files w !! json_path = Some (JsonFile trackpoints) →
  trackpoints ≠ [] →
  writer_opens output_path = true →
  never_raises cb →
  ∃ w', create_gauge_video json_path output_path cb w = (w', inr tt).
Proof.
  intros Hassets Hjson Hne Hopens Hcb.
  destruct (interpolate_length trackpoints Hne) as (d & Hd & _ & Hal).
  unfold create_gauge_video, bind, lift, load_assets.
  rewrite Hassets. unfold read_json at 1. rewrite Hjson, Hd.
  unfold open_writer at 1. rewrite Hopens.
  set (w1 := World _ _ _). set (a := Assets _ _).
  destruct (for_range_accepted a output_path cb d (seq 0 (length (power d)))
              empty_caches w1 Hcb cache_inv_empty Hal) as (c' & -> & _).
  { apply Forall_forall. intros i Hi%elem_of_seq. lia. }
  by eexists.
Qed.

End generator_runs.

(** The demo run of the generator without a callback. *)
Lemma demo_quiet_run_returns : snd demo_quiet_run = inr tt.
Proof. vm_compute. reflexivity. Qed.

Lemma generation_output_witness :
  ∃ frames, files (fst demo_quiet_run) !! "out.mp4" = Some (VideoFile frames)
            ∧ length frames = 60%nat.
Proof.
  destruct (@generation_output MASTER_CONFIGURATION demo_python demo_pillow
              demo_opencv "in.json" "out.mp4" None demo_world
              (fst demo_quiet_run))
    as (tps & frames & _ & Hjson & _ & _ & Hout & Hlen & _).
  { rewrite <- demo_quiet_run_returns. apply surjective_pairing. }
  exists frames. split; [exact Hout|].
  assert (tps = series_2s) as ->.
  { unfold demo_world in Hjson. simpl in Hjson.
    rewrite lookup_singleton_eq in Hjson. congruence. }
  rewrite Hlen. vm_compute. reflexivity.
Defined.

(** ** The orchestrated generation from end to end *)

Section orchestration_runs.
Context `{Config, Python, Pillow, OpenCV}.

Lemma accepts_weaken (cb : callback) (lo hi lo' hi' : Z) :
  accepts cb lo hi → lo ≤ lo' → hi' ≤ hi → accepts cb lo' hi'.
Proof. intros Hcb Hlo Hhi p m Hp. apply Hcb. lia. Qed.

(** X14. With the assets in place, window endpoints that can be converted,
    a sliced-data file that can be created, a video writer that opens, a
    callback that accepts the percentages from 10 to 100 and at least one
    point of the series in the window, the orchestrated generation returns
    the output path; the video holds as many frames as the frame count
    computed from the span of the selected points, the sliced-data file is
    gone, no other file has changed, and one line was printed. *)
Theorem orchestration_returns_the_video (tcx_data : list trackpoint)
    (start_time end_time : datetime) (output_path : string)
    (progress_callback : callback) (w : world) :
  missing_asset = None →
  converts_to_utc start_time →
  converts_to_utc end_time →
  can_create (temp_json_path_of output_path) = true →
  writer_opens output_path = true →
  accepts progress_callback 10 100 →
  (∃ tp, tp ∈ tcx_data ∧ in_window start_time end_time tp) →
  ∃ w' frames,
    orchestrate_video_generation tcx_data start_time end_time output_path
      progress_callback w = (w', inr output_path)
    ∧ files w' !! output_path = Some (VideoFile frames)
    ∧ length frames
      = Z.to_nat (num_interpolated_of
                    (duration_of
                       (data_point_of
                          <$> filter (in_window start_time end_time) tcx_data)))
    ∧ files w' !! temp_json_path_of output_path = None
    ∧ (∀ path, path ≠ output_path → path ≠ temp_json_path_of output_path →
         files w' !! path = files w !! path)
    ∧ open_writers w' = open_writers w ∖ {[output_path]}
    ∧ stdout w'
      = stdout w ++ ["Sliced data saved to " +:+ temp_json_path_of output_path].
Proof.
  intros Hassets _ _ Hcreate Hopens Hcb (tp & Hin & Hwin).
  set (temp := temp_json_path_of output_path) in *.
  set (sliced := data_point_of <$> filter (in_window start_time end_time) tcx_data).
  assert (sliced ≠ []) as Hne.
  { intros Hnil. apply fmap_nil_inv in Hnil.
    assert (tp ∈ filter (in_window start_time end_time) tcx_data) as Htp
      by by apply list_elem_of_filter.
    rewrite Hnil in Htp. by apply not_elem_of_nil in Htp. }
  set (w1 := World (<[temp := JsonFile sliced]> (files w)) (open_writers w)
                   (stdout w ++ ["Sliced data saved to " +:+ temp])).
  destruct (create_gauge_video_returns temp output_path
              (Some (video_progress_adapter progress_callback)) sliced w1)
    as (w2 & Hrun); try done.
  { subst w1. simpl. by rewrite lookup_insert_eq. }
  { intros f [= <-]. apply adapter_accepts.
    by apply (accepts_weaken _ 10 100). }
  destruct (create_gauge_video_effect _ _ _ _ _ Hrun)
    as (tps & frames & _ & Hjson & _ & _ & Hout & Hlen & Hother & How & Hs).
  assert (tps = sliced) as ->.
  { subst w1. simpl in Hjson. rewrite lookup_insert_eq in Hjson. congruence. }
  assert (temp ≠ output_path) as Hdiff by apply temp_json_path_differs.
  destruct (cleanup_spec temp w2) as (w3 & Hclean & Hfiles).
  assert (open_writers w3 = open_writers w2 ∧ stdout w3 = stdout w2)
    as [How3 Hs3].
  { revert Hclean. unfold cleanup.
    destruct (files w2 !! temp); by intros [= <-]. }
  exists w3, frames.
  split; [|split; [|split; [|split; [|split; [|split]]]]].
  - unfold orchestrate_video_generation, try_finally.
    fold temp. unfold bind at 1, call at 1.
    rewrite (Hcb 10) by lia. unfold ret at 1.
    unfold bind at 1, slice_data_and_save_json at 1.
    rewrite slice_loop_filter. fold sliced.
    unfold bind at 1, write_json at 1. fold temp. rewrite Hcreate.
    unfold print at 1, modify at 1. cbn [files open_writers stdout].
    fold w1. unfold bind at 1, call at 1.
    rewrite (Hcb 20) by lia. unfold ret at 1.
    unfold bind at 1.
    change (λ p m, progress_callback
                     (20 + py_int (float_mul (int_truediv p 100)
                                             (float_of_int 75))) m)
      with (video_progress_adapter progress_callback).
    rewrite Hrun. unfold bind at 1, call at 1.
    rewrite (Hcb 100) by lia. unfold ret.
    by rewrite Hclean.
  - rewrite Hfiles, lookup_delete_ne by done. exact Hout.
  - exact Hlen.
  - rewrite Hfiles. apply lookup_delete_eq.
  - intros path Hp1 Hp2. rewrite Hfiles, lookup_delete_ne by done.
    rewrite Hother by done. subst w1. simpl. by rewrite lookup_insert_ne.
  - by rewrite How3, How.
  - by rewrite Hs3, Hs.
Qed.


End orchestration_runs.

Lemma orchestration_returns_the_video_witness :
  ∃ w' frames,
    demo_orchestration (λ _ _, None) = (w', inr "videos/out.mp4")
    ∧ files w' !! "videos/out.mp4" = Some (VideoFile frames)
    ∧ length frames = 60%nat.
Proof.
  destruct (@orchestration_returns_the_video MASTER_CONFIGURATION demo_python
              demo_pillow demo_opencv demo_trackpoints (Aware 0 0)
              (Naive 3602000000) "videos/out.mp4" (λ _ _, None) (World ∅ ∅ []))
    as (w' & frames & Hrun & Hout & Hlen & _); try reflexivity.
  - unfold converts_to_utc, datetime_min, datetime_max. lia.
  - unfold converts_to_utc, datetime_min, datetime_max. split; [done|].
    simpl. lia.
  - by intros p m _.
  - exists (Trackpoint 0 0 0 0 None (Some 0%Q)). split.
    + apply list_elem_of_here.
    + apply (bool_decide_unpack _). vm_compute. reflexivity.
  - exists w', frames. split; [exact Hrun|]. split; [exact Hout|].
    rewrite Hlen. vm_compute. reflexivity.
Defined.


(** ** The drawing helpers, pixel by pixel *)

Section overlay_pixels.
Import pixel_level.

Lemma py_int_opp (x : Q) : py_int (- x) = - py_int x.
Proof. unfold py_int. destruct x as [n d]. simpl. apply Z.quot_opp_l. lia. Qed.

Lemma py_int_Qeq (x y : Q) : (x == y)%Q → py_int x = py_int y.
Proof.
  intros Heq. destruct (Qlt_le_dec x 0) as [Hneg|Hpos].
  - assert (py_int (- x) = py_int (- y)) as Hopp.
    { rewrite !py_int_nonneg by Lqa.lra. apply Qfloor_comp. by rewrite Heq. }
    rewrite !py_int_opp in Hopp. lia.
  - rewrite !py_int_nonneg by Lqa.lra. by apply Qfloor_comp.
Qed.

Lemma py_int_inject_Z (z : Z) : py_int (inject_Z z) = z.
Proof. unfold py_int. simpl. apply Z.quot_1_r. Qed.

Lemma slice_bounds_drawn (bh bw h w x y : Z) :
  let s := slice_bounds bh bw h w x y in
  (y2 s <=? y1 s) || (x2 s <=? x1 s) = false →
  0 ≤ y1 s < y2 s ∧ y2 s ≤ bh ∧ 0 ≤ x1 s < x2 s ∧ x2 s ≤ bw
  ∧ 0 ≤ overlay_y1 s < overlay_y2 s ∧ overlay_y2 s ≤ h
  ∧ 0 ≤ overlay_x1 s < overlay_x2 s ∧ overlay_x2 s ≤ w
  ∧ overlay_y1 s = y1 s - y ∧ overlay_x1 s = x1 s - x.
Proof.
  intros s Hdrawn. apply orb_false_iff in Hdrawn as [Hy Hx].
  apply Z.leb_gt in Hy, Hx. subst s. unfold slice_bounds in *. simpl in *. lia.
Qed.

(** X16. Whenever [overlay_image_alpha] draws, its two slices are in range
    and of the same shape: the background slice is a non-empty part of the
    background, the overlay slice a non-empty part of the overlay, both have
    as many rows and columns, and the overlay slice is the background slice
    moved by (x, y).  It draws nothing exactly when the overlay, placed at
    (x, y), has no pixel in common with the background. *)
Theorem overlay_slices_in_range (bh bw h w x y : Z) :
  let s := slice_bounds bh bw h w x y in
  ((y2 s <=? y1 s) || (x2 s <=? x1 s) = false →
     0 ≤ y1 s < y2 s ∧ y2 s ≤ bh ∧ 0 ≤ x1 s < x2 s ∧ x2 s ≤ bw
     ∧ 0 ≤ overlay_y1 s < overlay_y2 s ∧ overlay_y2 s ≤ h
     ∧ 0 ≤ overlay_x1 s < overlay_x2 s ∧ overlay_x2 s ≤ w
     ∧ y2 s - y1 s = overlay_y2 s - overlay_y1 s
     ∧ x2 s - x1 s = overlay_x2 s - overlay_x1 s
     ∧ overlay_y1 s = y1 s - y ∧ overlay_x1 s = x1 s - x)
  ∧ ((y2 s <=? y1 s) || (x2 s <=? x1 s) = true
     ↔ ¬ ∃ row col, 0 ≤ row < bh ∧ 0 ≤ col < bw
                    ∧ y ≤ row < y + h ∧ x ≤ col < x + w).
Proof.
  intros s. split.
  - intros Hdrawn.
    destruct (slice_bounds_drawn bh bw h w x y Hdrawn)
      as (? & ? & ? & ? & ? & ? & ? & ? & ? & ?).
    subst s. unfold slice_bounds in *. simpl in *. lia.
  - subst s. unfold slice_bounds. simpl. rewrite orb_true_iff, !Z.leb_le. split.
    + intros Hskip (row & col & ? & ? & ? & ?). lia.
    + intros Hnone.
      destruct (decide (Z.min bh (y + h) ≤ Z.max 0 y)) as [|Hy]; [by left|].
      destruct (decide (Z.min bw (x + w) ≤ Z.max 0 x)) as [|Hx]; [by right|].
      exfalso. apply Hnone. exists (Z.max 0 y), (Z.max 0 x). lia.
Qed.

(** X17. [overlay_image_alpha] composes the overlay onto the background at
    (x, y): the shape is kept; an element outside the overlay's footprint,
    or of a channel after the first three, keeps its value; under the
    footprint, each of the first three channels keeps its value where the
    overlay is fully transparent and takes the overlay's value, read at
    (row - y, col - x), where it is fully opaque. *)
Theorem overlay_composes_at_offset (background overlay : array) (x y : Z) :
  let result := overlay_image_alpha background overlay x y in
  shape0 result = shape0 background
  ∧ shape1 result = shape1 background
  ∧ ∀ row col c,
      0 ≤ row < shape0 background → 0 ≤ col < shape1 background →
      0 ≤ c →
      let under := y ≤ row < y + shape0 overlay ∧ x ≤ col < x + shape1 overlay in
      (¬ under ∨ 3 ≤ c → at_ result row col c = at_ background row col c)
      ∧ (under → c < 3 → at_ overlay (row - y) (col - x) 3 = 0 →
           at_ result row col c = at_ background row col c)
      ∧ (under → c < 3 → at_ overlay (row - y) (col - x) 3 = 255 →
           at_ result row col c = at_ overlay (row - y) (col - x) c).
Proof.
  intros result. subst result. unfold overlay_image_alpha.
  set (s := slice_bounds _ _ _ _ _ _).
  destruct ((y2 s <=? y1 s) || (x2 s <=? x1 s)) eqn:Hdrawn.
  - do 2 (split; [done|]). intros row col c Hrow Hcol Hc.
    set (under := y ≤ row < y + shape0 overlay ∧ x ≤ col < x + shape1 overlay).
    assert (¬ under) as Hnot.
    { apply orb_true_iff in Hdrawn. rewrite !Z.leb_le in Hdrawn.
      subst s under. unfold slice_bounds in Hdrawn. simpl in Hdrawn. lia. }
    split; [done|]. split; intros Hu; by destruct Hnot.
  - do 2 (split; [done|]). intros row col c Hrow Hcol Hc.
    set (under := y ≤ row < y + shape0 overlay ∧ x ≤ col < x + shape1 overlay).
    destruct (slice_bounds_drawn _ _ _ _ _ _ Hdrawn)
      as (Hy1 & Hy2 & Hx1 & Hx2 & _ & _ & _ & _ & Hoy & Hox).
    fold s in Hy1, Hy2, Hx1, Hx2, Hoy, Hox.
    assert (under ↔ (y1 s ≤ row < y2 s ∧ x1 s ≤ col < x2 s)) as Hunder.
    { subst s under. unfold slice_bounds in *. simpl in *. lia. }
    cbn [at_]. rewrite Hoy, Hox.
    replace (y1 s - y + (row - y1 s)) with (row - y) by lia.
    replace (x1 s - x + (col - x1 s)) with (col - x) by lia.
    split; [|split].
    + intros [Hnot|Hc3].
      * destruct ((y1 s <=? row) && (row <? y2 s) && (x1 s <=? col)
                  && (col <? x2 s)) eqn:Hin; [|done].
        exfalso. apply Hnot, Hunder.
        rewrite !andb_true_iff, !Z.leb_le, !Z.ltb_lt in Hin. lia.
      * apply Z.ltb_ge in Hc3. by rewrite Hc3, !andb_false_r.
    + intros Hu Hc3 Hzero.
      destruct (_ && _) eqn:Hin; [|done].
      rewrite Hzero. change (inject_Z 0 / 255)%Q with (0 # 255)%Q.
      rewrite <- (py_int_inject_Z (at_ background row col c)) at 2.
      apply py_int_Qeq. Lqa.lra.
    + intros Hu Hc3 Hopaque.
      assert ((y1 s <=? row) && (row <? y2 s) && (x1 s <=? col)
              && (col <? x2 s) && (0 <=? c) && (c <? 3) = true) as ->.
      { apply Hunder in Hu. rewrite !andb_true_iff, !Z.leb_le, !Z.ltb_lt. lia. }
      rewrite Hopaque. change (inject_Z 255 / 255)%Q with (255 # 255)%Q.
      rewrite <- (py_int_inject_Z (at_ overlay (row - y) (col - x) c)) at 2.
      apply py_int_Qeq. Lqa.lra.
Qed.

End overlay_pixels.

Section text_draws.
Import pixel_level.
Context `{Pillow}.

Lemma elem_of_outline_offsets (stroke_width i j : Z) :
  (i, j) ∈ outline_offsets stroke_width
  ↔ 0 < stroke_width ∧ i * i + j * j < stroke_width * stroke_width.
Proof.
  unfold outline_offsets, range. rewrite list_elem_of_bind. split.
  - intros (i' & Hin & Hi).
    apply list_elem_of_bind in Hin as (j' & Hin & Hj).
    apply elem_of_seqZ in Hi, Hj.
    destruct (_ >=? _) eqn:Hge; [by apply not_elem_of_nil in Hin|].
    apply list_elem_of_singleton in Hin as [= -> ->].
    rewrite Z.geb_leb in Hge. apply Z.leb_gt in Hge. split; [nia|done].
  - intros [Hpos Hlt]. exists i. split; [|apply elem_of_seqZ; nia].
    apply list_elem_of_bind. exists j. split; [|apply elem_of_seqZ; nia].
    assert ((i * i + j * j >=? stroke_width * stroke_width) = false) as ->.
    { rewrite Z.geb_leb. apply Z.leb_gt. lia. }
    apply list_elem_of_here.
Qed.

(** X18. [draw_text_with_outline_pil] with a stroke width that is not
    negative makes an image larger than the text's bounding box by the
    stroke width on every side, draws the outline copies first and the fill
    last, at (stroke_width - b0, stroke_width - b1), where its ink leaves a
    margin of exactly the stroke width; every outline copy is displaced from
    the fill by less than the stroke width, and the ink of every call lies
    on the image.  A zero stroke width draws the fill alone. *)
Theorem text_drawn_within_image (text : string) (f : font)
    (stroke_width b0 b1 b2 b3 : Z) :
  textbbox f text = (b0, b1, b2, b3) →
  0 ≤ stroke_width →
  let text_w := b2 - b0 + stroke_width * 2 in
  let text_h := b3 - b1 + stroke_width * 2 in
  let filled := TextDraw (stroke_width - b0) (stroke_width - b1) fill_color in
  ∃ outline,
    draw_text_with_outline_pil text f stroke_width
    = (text_w, text_h, outline ++ [filled])
    ∧ (∀ d, d ∈ outline →
         fill d = outline_color
         ∧ (at_x d - at_x filled) * (at_x d - at_x filled)
           + (at_y d - at_y filled) * (at_y d - at_y filled)
           < stroke_width * stroke_width)
    ∧ (∀ d, d ∈ outline ++ [filled] →
         on_image (ink_box text f d) text_w text_h)
    ∧ ink_box text f filled
      = (stroke_width, stroke_width,
         text_w - stroke_width, text_h - stroke_width)
    ∧ (stroke_width = 0 → outline = []).
Proof.
  intros Hbox Hsw text_w text_h filled.
  unfold draw_text_with_outline_pil. rewrite Hbox.
  eexists. split; [reflexivity|].
  assert (∀ d, d ∈ (λ '(i, j), TextDraw (stroke_width - b0 + i)
                                 (stroke_width - b1 + j) outline_color)
                   <$> outline_offsets stroke_width →
          fill d = outline_color
          ∧ (at_x d - at_x filled) * (at_x d - at_x filled)
            + (at_y d - at_y filled) * (at_y d - at_y filled)
            < stroke_width * stroke_width) as Houtline.
  { intros d ([i j] & -> & Hin)%list_elem_of_fmap.
    apply elem_of_outline_offsets in Hin as [_ Hlt]. split; [done|].
    subst filled. cbn [at_x at_y].
    replace (stroke_width - b0 + i - (stroke_width - b0)) with i by lia.
    by replace (stroke_width - b1 + j - (stroke_width - b1)) with j by lia. }
  split; [exact Houtline|]. split; [|split].
  - intros d Hd. unfold ink_box, on_image. rewrite Hbox.
    apply elem_of_app in Hd as [Hd|Hd].
    + destruct (Houtline d Hd) as [_ Hlt]. subst filled text_w text_h.
      cbn [at_x at_y] in Hlt.
      remember (at_x d - (stroke_width - b0)) as u eqn:Hu.
      remember (at_y d - (stroke_width - b1)) as v eqn:Hv.
      assert (- stroke_width < u < stroke_width) by nia.
      assert (- stroke_width < v < stroke_width) by nia.
      lia.
    + apply list_elem_of_singleton in Hd as ->.
      subst filled text_w text_h. cbn [at_x at_y]. lia.
  - unfold ink_box. rewrite Hbox. subst filled text_w text_h. cbn [at_x at_y].
    repeat f_equal; lia.
  - intros ->. by vm_compute.
Qed.

End text_draws.

Lemma text_drawn_within_image_witness :
  ∃ outline,
    @pixel_level.draw_text_with_outline_pil demo_pillow "7" FONT_L 5
    = (55, 100, outline ++ [pixel_level.TextDraw 5 5 pixel_level.fill_color]).
Proof.
  destruct (@text_drawn_within_image demo_pillow "7" FONT_L 5 0 0 45 90)
    as (outline & Hdraws & _); [reflexivity|lia|].
  exists outline. exact Hdraws.
Defined.

(** ** The program on examples *)

(** Three samples over two seconds give 60 frames at 30 fps, from power 100
    at the first frame to power 200 at the last. *)
Example resampling_end_to_end :
  ∃ d, @interpolate MASTER_CONFIGURATION series_3_samples = inr d
       ∧ length (power d) = 60%nat
       ∧ (∃ p, power d !! 0%nat = Some p ∧ (p == 100)%Q)
       ∧ (∃ p, power d !! 59%nat = Some p ∧ (p == 200)%Q)
       ∧ (∃ h, hr d !! 59%nat = Some h ∧ (h == 140)%Q).
Proof.
  eexists. split; [vm_compute; reflexivity|]. split; [vm_compute; reflexivity|].
  repeat split; eexists; (split; [vm_compute; reflexivity|]);
    vm_compute; reflexivity.
Qed.

(** The builder keeps the two samples with a good timestamp, warns about
    the third, and derives the speed of the second kept sample. *)
Example parsing_skips_and_warns :
  let run := @parse_tcx_file demo_python (Tree raw_samples) (World ∅ ∅ []) in
  stdout (fst run)
  = ["Warning: Skipping trackpoint with unparsable time: yesterday"]
  ∧ ∃ data, snd run = inr data
            ∧ (tp_power <$> trackpoints data) = [150; 0]
            ∧ (tp_hr <$> trackpoints data) = [0; 150]
            ∧ Forall2 same_speed (tp_speed <$> trackpoints data)
                               [Some 0%Q; Some 5%Q]
            ∧ start_time data = Aware 1704103200000000 3600000000
            ∧ end_time data = Aware 1704103201000000 3600000000.
Proof.
  split; [vm_compute; reflexivity|]. eexists.
  split; [vm_compute; reflexivity|].
  repeat split; try (vm_compute; reflexivity).
  repeat constructor; vm_compute; reflexivity.
Qed.

(** A timestamp with a fraction of a second is accepted by the first
    format, one without by the second, and anything else by neither. *)
Example timestamp_formats :
  @parse_time demo_python "2024-01-01T10:00:00.500000Z" = Some 1704103200500000
  ∧ @parse_time demo_python "2024-01-01T10:00:01Z" = Some 1704103201000000
  ∧ @parse_time demo_python "2024-01-01 10:00:01" = None.
Proof. repeat split; vm_compute; reflexivity. Qed.

(** A series whose last point cannot be shown in the local zone, one hour
    ahead of UTC, is not returned: the builder raises [OverflowError]. *)
Example parsing_overflows :
  snd (@parse_tcx_file
         {| strptime _ _ := Some datetime_max;
            int_of_text _ := Some 0;
            float_of_text _ := Some 0%Q;
            format_1f _ := "";
            utcoffset_of_wall _ := 3600000000;
            utcoffset_at _ := 3600000000;
            localtime_error _ := None;
            can_create _ := true |}
         (Tree [TpNode ["9999-12-31T23:59:59.999999Z"] [] [] [] []])
         (World ∅ ∅ []))
  = inl (OverflowError "date value out of range").
Proof. vm_compute. reflexivity. Qed.

(** A 140 by 100 icon resized to height 90 gets width 125: the double
    product [90 * 1.4] is 125.99999999999999. *)
Example resized_width :
  resize_icon (IconFile "icon.png" 140 100) 90
  = Resized (IconFile "icon.png" 140 100) 125 90.
Proof. vm_compute. reflexivity. Qed.

(** After frame 1140 of 2000 the percentage reported is 56: the double
    product [0.57 * 100] is 56.99999999999999. *)
Example percentage_reported :
  snd (@report_progress MASTER_CONFIGURATION (Some (λ p _, Some p)) 1139 2000
         (World ∅ ∅ []))
  = inl (CallbackError 56).
Proof. vm_compute. reflexivity. Qed.

(** A missing font is not reported as a missing asset: the [OSError] of
    the font loader is not caught. *)
Example missing_font_raises_OSError :
  @load_assets MASTER_CONFIGURATION
     {| textbbox _ _ := (0, 0, 0, 0);
        missing_asset := Some (MissingFont "assets/CartoonVibes-Regular.otf");
        lightning_icon_orig_size := (64, 128);
        heart_icon_orig_size := (128, 128) |}
  = inl (OSError "cannot open resource").
Proof. reflexivity. Qed.
